(** * gradient-lab: colour math, stop lists and gradient gestures

  A shallow embedding of the gradient core of the editor: [utils.ts]
  (geometry helpers, hex interpolation, OKLCH colour math, anti-banding
  resample), [store.ts] (the stop-list actions of the zustand store) and
  the pointer handlers of the gradient overlay component.

  Numbers.  A JavaScript [number] is modelled as a real number of the
  Standard Library: arithmetic, comparisons, [Math.sqrt], [Math.pow],
  [Math.cos], [Math.sin] and [Math.atan2] are the exact real functions, and
  rounding error, NaN and the infinities are left out.  Every concrete
  evaluation below keeps a margin that is orders of magnitude larger than
  binary64 rounding error.  Values that the source rounds with [Math.round]
  become integers ([Z]). *)

From Stdlib Require Import Reals Lra Lia ZArith List String Ascii Bool.
From Stdlib Require Import Sorting.Sorted Sorting.Permutation.
From Stdlib Require Import HexadecimalString Hexadecimal.
Import ListNotations.

Local Open Scope R_scope.

(** ** JavaScript built-ins used by the sources *)

Module JS.

Definition Rleb (a b : R) : bool := if Rle_dec a b then true else false.
Definition Rltb (a b : R) : bool := if Rlt_dec a b then true else false.
Definition Reqb (a b : R) : bool := if Req_dec_T a b then true else false.

Definition Math_max (a b : R) : R := Rmax a b.
Definition Math_min (a b : R) : R := Rmin a b.
Definition Math_abs (a : R) : R := Rabs a.
Definition Math_sqrt (a : R) : R := sqrt a.

(** [Math.round]: the integer nearest to [a], halves rounded up. *)
Definition Math_round (a : R) : Z := Int_part (a + / 2).

(** [Math.pow b e].  The sources call it with a base [b >= 0] and a
    positive exponent only, where [Math.pow(0, e) = 0]. *)
Definition Math_pow (b e : R) : R := if Rlt_dec 0 b then Rpower b e else 0.

(** [Math.atan2 y x], the angle of the point [(x, y)] in [(-PI, PI]]. *)
Definition Math_atan2 (y x : R) : R :=
  if Rlt_dec 0 x then atan (y / x)
  else if Rlt_dec x 0 then
    (if Rle_dec 0 y then atan (y / x) + PI else atan (y / x) - PI)
  else if Rlt_dec 0 y then PI / 2
  else if Rlt_dec y 0 then - (PI / 2)
  else 0.

(** The remainder operator [a % m]: the quotient is truncated towards
    zero, so the result has the sign of the dividend [a]. *)
Definition trunc (a : R) : Z :=
  if Rle_dec 0 a then Int_part a else (- Int_part (- a))%Z.
Definition rem (a m : R) : R := a - m * IZR (trunc (a / m)).

(** [Array.prototype.sort] with a comparator: a stable sort.  [le a b]
    says that the comparator does not put [b] before [a]. *)
Section Sort.
Context {A : Type} (le : A -> A -> bool).

Fixpoint insert (a : A) (l : list A) : list A :=
  match l with
  | [] => [a]
  | b :: l' => if le a b then a :: b :: l' else b :: insert a l'
  end.

Fixpoint sort (l : list A) : list A :=
  match l with
  | [] => []
  | a :: l' => insert a (sort l')
  end.
End Sort.

(** [n.toString(16)] for a non-negative integer [n]. *)
Definition toString16 (n : Z) : string :=
  NilZero.string_of_uint (N.to_hex_uint (Z.to_N n)).

(** [s.padStart(2, '0')]. *)
Definition padStart2 (s : string) : string :=
  match s with
  | EmptyString => "00"
  | String c EmptyString => String "0" (String c EmptyString)
  | _ => s
  end.

Definition upperChar (c : ascii) : ascii :=
  let n := nat_of_ascii c in
  if (97 <=? n)%nat && (n <=? 122)%nat then ascii_of_nat (n - 32) else c.

Fixpoint toUpperCase (s : string) : string :=
  match s with
  | EmptyString => EmptyString
  | String c s' => String (upperChar c) (toUpperCase s')
  end.

Definition hexDigit (c : ascii) : option Z :=
  let n := Z.of_nat (nat_of_ascii c) in
  if (48 <=? n)%Z && (n <=? 57)%Z then Some (n - 48)%Z
  else if (97 <=? n)%Z && (n <=? 102)%Z then Some (n - 87)%Z
  else if (65 <=? n)%Z && (n <=? 70)%Z then Some (n - 55)%Z
  else None.

Fixpoint parseHexDigits (acc : Z) (s : string) : Z :=
  match s with
  | EmptyString => acc
  | String c s' =>
      match hexDigit c with
      | Some d => parseHexDigits (16 * acc + d) s'
      | None => acc
      end
  end.

(** [parseInt(s, 16)]: the value of the longest prefix of hexadecimal
    digits, and NaN ([None]) when [s] does not start with one.  Leading
    white space, a sign and a [0x] prefix, which [parseInt] also accepts,
    are not modelled; none of them occurs in a hex colour. *)
Definition parseInt16 (s : string) : option Z :=
  match s with
  | EmptyString => None
  | String c _ =>
      match hexDigit c with
      | Some _ => Some (parseHexDigits 0 s)
      | None => None
      end
  end.

(** [s.replace('#', '')]: the first ['#'] is removed. *)
Fixpoint replaceHash (s : string) : string :=
  match s with
  | EmptyString => EmptyString
  | String c s' => if Ascii.eqb c "#" then s' else String c (replaceHash s')
  end.

(** [s.substring(i, j)] for [i <= j]. *)
Definition substring (i j : nat) (s : string) : string :=
  String.substring i (j - i) s.

(** [s[i]] as a one-character string ([undefined] is not modelled: the
    callers index below the length). *)
Definition charAt (i : nat) (s : string) : string := String.substring i 1 s.

End JS.

(** ** types.ts *)

Record Vec2 := mkVec2 { x : R; y : R }.

Inductive GradientType := linear | radial | conic.

Record GradientStop := mkStop {
id : string;
offset : R;
color : string;
opacity : R;
midpoint : option R
}.

Record Gradient := mkGradient {
type : GradientType;
stops : list GradientStop;
angle : R;
center : Vec2;
start : option Vec2;
end_ : option Vec2;
radius : option R;
ratio : option R
}.

Inductive LayerType := artboard | rectangle | circle.

(** [fill: string | Gradient]. *)
Inductive Fill :=
| Solid (c : string)
| GradientFill (g : Gradient).

Record Layer := mkLayer {
layer_id : string;
layer_type : LayerType;
name : string;
layer_x : R;
layer_y : R;
width : R;
height : R;
rotation : R;
visible : bool;
fill : Fill;
borderRadius : option R
}.

Record Viewport := mkViewport { vp_x : R; vp_y : R; zoom : R }.

(** ** utils.ts: OKLCH colour math *)

Module Utils.
Import JS.

Definition EPS : R := 1e-10.

Record RGB := mkRGB { r : R; g : R; b : R }.
Record OKLab := mkOKLab { lab_L : R; lab_a : R; lab_b : R }.
Record OKLCH := mkOKLCH { L : R; C : R; H : R }.
Record XYZ := mkXYZ { X : R; Y : R; Z_ : R }.

Definition clamp01 (u : R) : R := Math_min 1 (Math_max 0 u).
Definition cbrt (u : R) : R :=
  if Rlt_dec u 0 then - Math_pow (- u) (1 / 3) else Math_pow u (1 / 3).

Definition srgbToLinear (u : R) : R :=
  if Rle_dec u 0.04045 then u / 12.92
  else Math_pow ((u + 0.055) / 1.055) 2.4.

Definition linearToSrgb (u : R) : R :=
  if Rle_dec u 0.0031308 then 12.92 * u
  else 1.055 * Math_pow u (1 / 2.4) - 0.055.

Definition linearSrgbToXyz (rgbLin : RGB) : XYZ :=
  let r := r rgbLin in let g := g rgbLin in let b := b rgbLin in
  {| X := 0.4122214708 * r + 0.5363325363 * g + 0.0514459929 * b;
     Y := 0.2119034982 * r + 0.6806995451 * g + 0.1073969566 * b;
     Z_ := 0.0883024619 * r + 0.2817188376 * g + 0.6299787005 * b |}.

Definition xyzToLinearSrgb (xyz : XYZ) : RGB :=
  let X := X xyz in let Y := Y xyz in let Z := Z_ xyz in
  {| r := 3.2409699419 * X - 1.5373831776 * Y - 0.4986107603 * Z;
     g := -0.9692436363 * X + 1.8759675015 * Y + 0.0415550574 * Z;
     b := 0.0556300797 * X - 0.2039769589 * Y + 1.0569715142 * Z |}.

Definition xyzToOklab (xyz : XYZ) : OKLab :=
  let X := X xyz in let Y := Y xyz in let Z := Z_ xyz in
  let l := 0.8189330101 * X + 0.3618667424 * Y - 0.1288597137 * Z in
  let m := 0.0329845436 * X + 0.9293118715 * Y + 0.0361456387 * Z in
  let s := 0.0482003018 * X + 0.2643662691 * Y + 0.6338517070 * Z in
  let l_ := cbrt l in
  let m_ := cbrt m in
  let s_ := cbrt s in
  {| lab_L := 0.2104542553 * l_ + 0.7936177850 * m_ - 0.0040720468 * s_;
     lab_a := 1.9779984951 * l_ - 2.4285922050 * m_ + 0.4505937099 * s_;
     lab_b := 0.0259040371 * l_ + 0.7827717662 * m_ - 0.8086757660 * s_ |}.

Definition oklabToXyz (lab : OKLab) : XYZ :=
  let L := lab_L lab in let a := lab_a lab in let b := lab_b lab in
  let l_ := L + 0.3963377774 * a + 0.2158037573 * b in
  let m_ := L - 0.1055613458 * a - 0.0638541728 * b in
  let s_ := L - 0.0894841775 * a - 1.2914855480 * b in
  let l := l_ * l_ * l_ in
  let m := m_ * m_ * m_ in
  let s := s_ * s_ * s_ in
  {| X := 1.2270138511 * l - 0.5577999807 * m + 0.2812561490 * s;
     Y := -0.0405801784 * l + 1.1122568696 * m - 0.0716766787 * s;
     Z_ := -0.0763812845 * l - 0.4214819784 * m + 1.5861632204 * s |}.

Definition oklabToOklch (lab : OKLab) : OKLCH :=
  let C := Math_sqrt (lab_a lab * lab_a lab + lab_b lab * lab_b lab) in
  let H :=
    if Rlt_dec EPS C then
      let H := Math_atan2 (lab_b lab) (lab_a lab) * 180 / PI in
      if Rlt_dec H 0 then H + 360 else H
    else 0 in
  {| L := lab_L lab; C := C; H := H |}.

Definition oklchToOklab (lch : OKLCH) : OKLab :=
  let hRad := H lch * PI / 180 in
  {| lab_L := L lch;
     lab_a := C lch * cos hRad;
     lab_b := C lch * sin hRad |}.

Definition srgbEncodedToOklch (rgb : RGB) : OKLCH :=
  let lin := {| r := srgbToLinear (r rgb);
                g := srgbToLinear (g rgb);
                b := srgbToLinear (b rgb) |} in
  let xyz := linearSrgbToXyz lin in
  let lab := xyzToOklab xyz in
  oklabToOklch lab.

Definition oklchToSrgbEncoded (lch : OKLCH) : RGB :=
  let lab := oklchToOklab lch in
  let xyz := oklabToXyz lab in
  let lin := xyzToLinearSrgb xyz in
  {| r := linearToSrgb (r lin);
     g := linearToSrgb (g lin);
     b := linearToSrgb (b lin) |}.

Definition isInGamutSrgbEncoded (rgb : RGB) : bool :=
  let e := 0.00005 in
  Rleb (- e) (r rgb) && Rleb (r rgb) (1 + e) &&
  Rleb (- e) (g rgb) && Rleb (g rgb) (1 + e) &&
  Rleb (- e) (b rgb) && Rleb (b rgb) (1 + e).

(** The [for] loop of [clampOklchToSrgbGamut]: [n] iterations are left,
    the loop variables are [lo], [hi] and [best]; the value of [best] after
    the loop is returned. *)
Fixpoint clampLoop (lch : OKLCH) (n : nat) (lo hi best : R) : R :=
  match n with
  | O => best
  | S n' =>
      let mid := (lo + hi) / 2 in
      let test := {| L := L lch; C := mid; H := H lch |} in
      let rgb := oklchToSrgbEncoded test in
      if isInGamutSrgbEncoded rgb
      then clampLoop lch n' mid hi mid
      else clampLoop lch n' lo mid best
  end.

(** [maxIter] is the iteration count (20 when the caller omits it). *)
Definition clampOklchToSrgbGamut (lch : OKLCH) (maxIter : nat) : OKLCH :=
  let encoded := oklchToSrgbEncoded lch in
  if isInGamutSrgbEncoded encoded then lch
  else
    let best := clampLoop lch maxIter 0 (C lch) 0 in
    {| L := L lch; C := best; H := H lch |}.

Definition defaultMaxIter : nat := 20.

Definition toHexUpper (n : Z) : string :=
  toUpperCase (padStart2 (toString16 n)).

Definition oklchToHex (lch : OKLCH) (alpha : R) : string :=
  let clamped := clampOklchToSrgbGamut lch defaultMaxIter in
  let rgb := oklchToSrgbEncoded clamped in
  let r := Math_round (clamp01 (r rgb) * 255) in
  let g := Math_round (clamp01 (g rgb) * 255) in
  let b := Math_round (clamp01 (b rgb) * 255) in
  let hex := ("#" ++ toHexUpper r ++ toHexUpper g ++ toHexUpper b)%string in
  if Rle_dec 0.999 alpha then hex
  else
    let aVal := Math_round (clamp01 alpha * 255) in
    (hex ++ toHexUpper aVal)%string.


(** ** utils.ts: geometry helpers *)

(** [generateId] draws a pseudo-random string.  The model threads the
    sequence of strings that successive calls return: [draws k] is the
    result of the [k]-th call and [next] counts the calls made so far. *)
Record Rng := mkRng { draws : nat -> string; next : nat }.

Definition generateId (rng : Rng) : string * Rng :=
  (draws rng (next rng), {| draws := draws rng; next := S (next rng) |}).

Definition screenToCanvas (screenPos : Vec2) (viewport : Viewport) : Vec2 :=
  {| x := (x screenPos - vp_x viewport) / zoom viewport;
     y := (y screenPos - vp_y viewport) / zoom viewport |}.

Definition canvasToScreen (canvasPos : Vec2) (viewport : Viewport) : Vec2 :=
  {| x := x canvasPos * zoom viewport + vp_x viewport;
     y := y canvasPos * zoom viewport + vp_y viewport |}.

Definition clamp (num min max : R) : R := Math_min (Math_max num min) max.

Definition degreesToRadians (deg : R) : R := deg * PI / 180.

Record Coords := mkCoords { x1 : R; y1 : R; x2 : R; y2 : R }.

Definition getGradientCoords (angleDeg : R) : Coords :=
  let angleRad := degreesToRadians (angleDeg - 90) in
  {| x1 := 0.5 - 0.5 * cos angleRad;
     y1 := 0.5 - 0.5 * sin angleRad;
     x2 := 0.5 + 0.5 * cos angleRad;
     y2 := 0.5 + 0.5 * sin angleRad |}.

Definition getLocalPoint (screenPos : Vec2) (viewport : Viewport)
    (layer : Layer) : Vec2 :=
  let cp := screenToCanvas screenPos viewport in
  let dx := x cp - layer_x layer in
  let dy := y cp - layer_y layer in
  let rad := - degreesToRadians (rotation layer) in
  let lx := dx * cos rad - dy * sin rad in
  let ly := dx * sin rad + dy * cos rad in
  {| x := lx / width layer; y := ly / height layer |}.

(** ** utils.ts: hex interpolation *)

(** A parsed channel is an integer or NaN ([None]). *)
Record Parsed := mkParsed {
  p_r : option Z; p_g : option Z; p_b : option Z;
  p_a : option R
}.

Definition parseHex (c : string) : Parsed :=
  let hex := replaceHash c in
  if (String.length hex =? 3)%nat then
    {| p_r := parseInt16 (charAt 0 hex ++ charAt 0 hex);
       p_g := parseInt16 (charAt 1 hex ++ charAt 1 hex);
       p_b := parseInt16 (charAt 2 hex ++ charAt 2 hex);
       p_a := Some 1 |}
  else if (String.length hex =? 6)%nat then
    {| p_r := parseInt16 (substring 0 2 hex);
       p_g := parseInt16 (substring 2 4 hex);
       p_b := parseInt16 (substring 4 6 hex);
       p_a := Some 1 |}
  else if (String.length hex =? 8)%nat then
    {| p_r := parseInt16 (substring 0 2 hex);
       p_g := parseInt16 (substring 2 4 hex);
       p_b := parseInt16 (substring 4 6 hex);
       p_a := option_map (fun n => IZR n / 255) (parseInt16 (substring 6 8 hex)) |}
  else {| p_r := Some 0%Z; p_g := Some 0%Z; p_b := Some 0%Z; p_a := Some 1 |}.

(** [c1 + (c2 - c1) * factor], NaN as soon as an operand is. *)
Definition blend (c1 c2 : option R) (factor : R) : option R :=
  match c1, c2 with
  | Some u, Some v => Some (u + (v - u) * factor)
  | _, _ => None
  end.

Definition izr (n : option Z) : option R := option_map IZR n.

(** [toHex] of [interpolateColor]; NaN prints as ["NaN"]. *)
Definition toHex (n : option Z) : string :=
  match n with
  | Some n => padStart2 (toString16 (Z.min 255 (Z.max 0 n)))
  | None => "NaN"
  end.

Definition interpolateColor (color1 color2 : string) (factor : R) : string :=
  let c1 := parseHex color1 in
  let c2 := parseHex color2 in
  let r := option_map Math_round (blend (izr (p_r c1)) (izr (p_r c2)) factor) in
  let g := option_map Math_round (blend (izr (p_g c1)) (izr (p_g c2)) factor) in
  let b := option_map Math_round (blend (izr (p_b c1)) (izr (p_b c2)) factor) in
  let a := blend (p_a c1) (p_a c2) factor in
  if match a with Some a => Rleb 0.999 a | None => false end
  then ("#" ++ toHex r ++ toHex g ++ toHex b)%string
  else ("#" ++ toHex r ++ toHex g ++ toHex b
            ++ toHex (option_map (fun a => Math_round (a * 255)) a))%string.

(** ** utils.ts: projection of a local point on the gradient line *)

Definition getGradientT (mx my : R) (gradient : Gradient)
    (layerWidth layerHeight : R) : R :=
  let center := center gradient in
  let radiusPos :=
    match radius gradient with
    | Some radius =>
        let rad := degreesToRadians (angle gradient - 90) in
        {| x := x center + radius * cos rad;
           y := y center + radius * sin rad |}
    | None => {| x := 0.5; y := 1 |}
    end in
  match type gradient with
  | conic =>
      let dx := mx - x center * layerWidth in
      let dy := my - y center * layerHeight in
      let angleRad := Math_atan2 dy dx in
      let angleDeg := angleRad * 180 / PI + 90 in
      let angleDeg := rem (angleDeg + 360) 360 in
      let relativeDeg := angleDeg - angle gradient in
      let relativeDeg := rem (relativeDeg + 360) 360 in
      relativeDeg / 360
  | ty =>
      let '(ax, ay, bx, by_) :=
        match ty with
        | radial =>
            (x center * layerWidth, y center * layerHeight,
             x radiusPos * layerWidth, y radiusPos * layerHeight)
        | _ =>
            let '(start, end_) :=
              match start gradient, end_ gradient with
              | Some s, Some e => (s, e)
              | _, _ =>
                  let coords := getGradientCoords (angle gradient) in
                  ({| x := x1 coords; y := y1 coords |},
                   {| x := x2 coords; y := y2 coords |})
              end in
            (x start * layerWidth, y start * layerHeight,
             x end_ * layerWidth, y end_ * layerHeight)
        end in
      let abx := bx - ax in
      let aby := by_ - ay in
      let apx := mx - ax in
      let apy := my - ay in
      let lenSq := abx * abx + aby * aby in
      if Req_dec_T lenSq 0 then 0
      else
        let t := (apx * abx + apy * aby) / lenSq in
        Math_max 0 (Math_min 1 t)
  end.

(** ** utils.ts: anti-banding resample *)

(** A channel of [hexToRgbStruct] is a number in 0..1 or NaN ([None]). *)
Record RGBn := mkRGBn { n_r : option R; n_g : option R; n_b : option R }.

Definition hexToRgbStruct (hex : string) : RGBn :=
  let h := replaceHash hex in
  let ch (s : string) := option_map (fun n => IZR n / 255) (parseInt16 s) in
  if (String.length h =? 3)%nat then
    {| n_r := ch (charAt 0 h ++ charAt 0 h)%string;
       n_g := ch (charAt 1 h ++ charAt 1 h)%string;
       n_b := ch (charAt 2 h ++ charAt 2 h)%string |}
  else
    {| n_r := ch (substring 0 2 h);
       n_g := ch (substring 2 4 h);
       n_b := ch (substring 4 6 h) |}.

(** [|u - v|], NaN as soon as an operand is. *)
Definition absDiff (u v : option R) : option R :=
  match u, v with
  | Some u, Some v => Some (Math_abs (u - v))
  | _, _ => None
  end.

Definition add3 (u v w : option R) : option R :=
  match u, v, w with
  | Some u, Some v, Some w => Some (u + v + w)
  | _, _, _ => None
  end.

(** [Math.round(clamp01(u) * 255).toString(16).padStart(2, '0')
    .toUpperCase()]; NaN prints as ["NAN"]. *)
Definition byteHex (u : option R) : string :=
  match u with
  | Some u => toHexUpper (Math_round (clamp01 u * 255))
  | None => "NAN"
  end.

Definition MIN_OFFSET_DIFF : R := 0.005.
Definition steps : nat := 8.

(** The inner [for (k = 1; k < steps; k++)] loop: [n] iterations are left
    and the next value of the loop variable is [k]. *)
Fixpoint stepLoop (start end_ : GradientStop) (range : R)
    (lin1 lin2 : RGBn) (n : nat) (k : Z) (rng : Rng)
    : list GradientStop * Rng :=
  match n with
  | O => ([], rng)
  | S n' =>
      let t := IZR k / INR steps in
      let rLin := blend (n_r lin1) (n_r lin2) t in
      let gLin := blend (n_g lin1) (n_g lin2) t in
      let bLin := blend (n_b lin1) (n_b lin2) t in
      let r := option_map linearToSrgb rLin in
      let g := option_map linearToSrgb gLin in
      let b := option_map linearToSrgb bLin in
      let hex := ("#" ++ byteHex r ++ byteHex g ++ byteHex b)%string in
      let opacity := opacity start + (opacity end_ - opacity start) * t in
      let (newId, rng1) := generateId rng in
      let stop := {| id := newId;
                     offset := offset start + range * t;
                     color := hex;
                     opacity := opacity;
                     midpoint := None |} in
      let (rest, rng2) := stepLoop start end_ range lin1 lin2 n' (k + 1)%Z rng1 in
      (stop :: rest, rng2)
  end.

(** What one iteration of the outer loop pushes after [start]: nothing for
    a hard edge or for two similar colours, seven stops otherwise. *)
Definition smoothPair (start end_ : GradientStop) (rng : Rng)
    : list GradientStop * Rng :=
  let range := offset end_ - offset start in
  if Rlt_dec range MIN_OFFSET_DIFF then ([], rng)
  else
    let rgb1 := hexToRgbStruct (color start) in
    let rgb2 := hexToRgbStruct (color end_) in
    let lin1 := {| n_r := option_map srgbToLinear (n_r rgb1);
                   n_g := option_map srgbToLinear (n_g rgb1);
                   n_b := option_map srgbToLinear (n_b rgb1) |} in
    let lin2 := {| n_r := option_map srgbToLinear (n_r rgb2);
                   n_g := option_map srgbToLinear (n_g rgb2);
                   n_b := option_map srgbToLinear (n_b rgb2) |} in
    let dist := add3 (absDiff (n_r rgb1) (n_r rgb2))
                     (absDiff (n_g rgb1) (n_g rgb2))
                     (absDiff (n_b rgb1) (n_b rgb2)) in
    if match dist with Some d => Rltb d 0.05 | None => false end
    then ([], rng)
    else stepLoop start end_ range lin1 lin2 (steps - 1) 1%Z rng.

(** The outer loop over adjacent pairs, followed by the push of the last
    stop. *)
Fixpoint bandLoop (sorted : list GradientStop) (rng : Rng)
    : list GradientStop * Rng :=
  match sorted with
  | [] => ([], rng)
  | start :: rest =>
      match rest with
      | [] => ([start], rng)
      | end_ :: _ =>
          let (inserted, rng1) := smoothPair start end_ rng in
          let (tail, rng2) := bandLoop rest rng1 in
          (start :: inserted ++ tail, rng2)
      end
  end.

Definition byOffset (a b : GradientStop) : bool := Rleb (offset a) (offset b).

Definition fixGradientBanding (stops : list GradientStop) (rng : Rng)
    : list GradientStop * Rng :=
  let sorted := sort byOffset stops in
  if (List.length sorted <? 2)%nat then (stops, rng)
  else bandLoop sorted rng.
(** [snapToGrid(value, gridSize)]; callers that omit [gridSize] get 8. *)
Definition snapToGrid (value gridSize : R) : R :=
  IZR (Math_round (value / gridSize)) * gridSize.

Definition defaultGridSize : R := 8.

(** ** colorExtraction.ts: helpers of the gradient generator *)

(** [modifyLightness]: only [L] moves, kept inside [[0.02, 0.98]]. *)
Definition modifyLightness (c : OKLCH) (lDiff : R) : OKLCH :=
  {| L := Math_max 0.02 (Math_min 0.98 (L c + lDiff)); C := C c; H := H c |}.

Definition createStop (color : string) (offset : R) (rng : Rng)
    : GradientStop * Rng :=
  let (newId, rng1) := generateId rng in
  ({| id := newId; offset := offset; color := color; opacity := 1;
      midpoint := None |}, rng1).

End Utils.

(** ** store.ts: the editor store and its gradient actions *)

Module Store.
Import JS Utils.

Inductive InteractionMode :=
| idle | panning | dragging_layer | dragging_gradient | resizing | drawing.

(** [Record<string, Layer>]: an object keeps its keys in insertion order,
    and assigning to an existing key keeps the key in place. *)
Definition Layers := list (string * Layer).

Fixpoint lookup (k : string) (m : Layers) : option Layer :=
  match m with
  | [] => None
  | (k', v) :: m' => if String.eqb k k' then Some v else lookup k m'
  end.

(** [{ ...m, [k]: v }]. *)
Fixpoint assign (k : string) (v : Layer) (m : Layers) : Layers :=
  match m with
  | [] => [(k, v)]
  | (k', v') :: m' =>
      if String.eqb k k' then (k, v) :: m' else (k', v') :: assign k v m'
  end.

(** A history entry is [JSON.stringify({ layers, layerOrder })]; the model
    keeps the serialised pair itself. *)
Record Snapshot := mkSnapshot {
  snap_layers : Layers;
  snap_layerOrder : list string
}.

Record History := mkHistory { past : list Snapshot; future : list Snapshot }.

(** The fields of the store that the gradient actions and the overlay
    handlers read or write; the others (tool, theme, grid, palette,
    generated gradients, live session) are left out. *)
Record EditorState := mkState {
  viewport : Viewport;
  layers : Layers;
  layerOrder : list string;
  selectedIds : list string;
  interactionMode : InteractionMode;
  history : History
}.

Definition MAX_HISTORY : nat := 50.

(** [l.slice(-n)]. *)
Definition sliceLast {A : Type} (n : nat) (l : list A) : list A :=
  skipn (List.length l - n) l.

Definition INITIAL_GRADIENT : Gradient :=
  {| type := linear;
     angle := 135;
     stops := [ {| id := "init-1"; offset := 0; color := "#00EBE5";
                   opacity := 1; midpoint := None |};
                {| id := "init-2"; offset := 0.5; color := "#DAA3FF";
                   opacity := 1; midpoint := None |};
                {| id := "init-3"; offset := 1; color := "#F9AB3E";
                   opacity := 1; midpoint := None |} ];
     center := {| x := 0.5; y := 0.5 |};
     start := None; end_ := None; radius := None; ratio := None |}.

Definition setLayers (st : EditorState) (ls : Layers) : EditorState :=
  {| viewport := viewport st; layers := ls; layerOrder := layerOrder st;
     selectedIds := selectedIds st; interactionMode := interactionMode st;
     history := history st |}.

Definition setFill (layer : Layer) (f : Fill) : Layer :=
  {| layer_id := layer_id layer; layer_type := layer_type layer;
     name := name layer; layer_x := layer_x layer; layer_y := layer_y layer;
     width := width layer; height := height layer;
     rotation := rotation layer; visible := visible layer; fill := f;
     borderRadius := borderRadius layer |}.

Definition setStops (g : Gradient) (ss : list GradientStop) : Gradient :=
  {| type := type g; stops := ss; angle := angle g; center := center g;
     start := start g; end_ := end_ g; radius := radius g;
     ratio := ratio g |}.

Definition saveSnapshot (st : EditorState) : EditorState :=
  let current := {| snap_layers := layers st;
                    snap_layerOrder := layerOrder st |} in
  {| viewport := viewport st; layers := layers st;
     layerOrder := layerOrder st; selectedIds := selectedIds st;
     interactionMode := interactionMode st;
     history := {| past := sliceLast MAX_HISTORY (past (history st) ++ [current]);
                   future := [] |} |}.

Definition setInteractionMode (mode : InteractionMode) (st : EditorState)
    : EditorState :=
  {| viewport := viewport st; layers := layers st;
     layerOrder := layerOrder st; selectedIds := selectedIds st;
     interactionMode := mode; history := history st |}.

(** [Partial<Gradient>]: [None] is an absent key.  For the optional fields
    a present key can hold [undefined] ([Some None]). *)
Record GradientPatch := mkGradientPatch {
  g_type : option GradientType;
  g_stops : option (list GradientStop);
  g_angle : option R;
  g_center : option Vec2;
  g_start : option (option Vec2);
  g_end : option (option Vec2);
  g_radius : option (option R);
  g_ratio : option (option R)
}.

Definition noPatch : GradientPatch :=
  {| g_type := None; g_stops := None; g_angle := None; g_center := None;
     g_start := None; g_end := None; g_radius := None; g_ratio := None |}.

Definition over {A : Type} (old : A) (new : option A) : A :=
  match new with Some v => v | None => old end.

(** [{ ...g, ...updates }]. *)
Definition mergeGradient (g : Gradient) (u : GradientPatch) : Gradient :=
  {| type := over (type g) (g_type u);
     stops := over (stops g) (g_stops u);
     angle := over (angle g) (g_angle u);
     center := over (center g) (g_center u);
     start := over (start g) (g_start u);
     end_ := over (end_ g) (g_end u);
     radius := over (radius g) (g_radius u);
     ratio := over (ratio g) (g_ratio u) |}.

(** [Partial<GradientStop>]. *)
Record StopPatch := mkStopPatch {
  s_id : option string;
  s_offset : option R;
  s_color : option string;
  s_opacity : option R;
  s_midpoint : option (option R)
}.

Definition mergeStop (s : GradientStop) (u : StopPatch) : GradientStop :=
  {| id := over (id s) (s_id u);
     offset := over (offset s) (s_offset u);
     color := over (color s) (s_color u);
     opacity := over (opacity s) (s_opacity u);
     midpoint := over (midpoint s) (s_midpoint u) |}.

(** When the layer does not exist the callback of [set] throws on
    [layer.fill] and the store keeps the state it had, snapshot included. *)
Definition updateLayerGradient (layerId : string)
    (gradientUpdates : GradientPatch) (recordHistory : bool)
    (st : EditorState) : EditorState :=
  let st := if recordHistory then saveSnapshot st else st in
  match lookup layerId (layers st) with
  | None => st
  | Some layer =>
      let fill :=
        match fill layer with
        | Solid _ => mergeGradient INITIAL_GRADIENT gradientUpdates
        | GradientFill g => mergeGradient g gradientUpdates
        end in
      setLayers st (assign layerId (setFill layer (GradientFill fill)) (layers st))
  end.

(** [color || '#ffffff']. *)
Definition orWhite (color : option string) : string :=
  match color with
  | None | Some EmptyString => "#ffffff"
  | Some c => c
  end.

Definition addGradientStop (layerId : string) (offset : R)
    (color : option string) (st : EditorState) (rng : Rng)
    : EditorState * Rng :=
  let st := saveSnapshot st in
  match lookup layerId (layers st) with
  | None => (st, rng)
  | Some layer =>
      match fill layer with
      | Solid _ => (st, rng)
      | GradientFill g =>
          let (newId, rng1) := generateId rng in
          let stops :=
            sort byOffset
              (stops g ++ [ {| id := newId; offset := offset;
                               color := orWhite color; opacity := 1;
                               midpoint := None |} ]) in
          (setLayers st
             (assign layerId (setFill layer (GradientFill (setStops g stops)))
                (layers st)), rng1)
      end
  end.

Definition removeGradientStop (layerId stopId : string) (st : EditorState)
    : EditorState :=
  let st := saveSnapshot st in
  match lookup layerId (layers st) with
  | None => st
  | Some layer =>
      match fill layer with
      | Solid _ => st
      | GradientFill g =>
          if (List.length (stops g) <=? 2)%nat then st
          else
            let stops :=
              filter (fun s => negb (String.eqb (id s) stopId)) (stops g) in
            setLayers st
              (assign layerId (setFill layer (GradientFill (setStops g stops)))
                 (layers st))
      end
  end.

Definition updateGradientStop (layerId stopId : string) (updates : StopPatch)
    (st : EditorState) : EditorState :=
  match lookup layerId (layers st) with
  | None => st
  | Some layer =>
      match fill layer with
      | Solid _ => st
      | GradientFill g =>
          let stops :=
            sort byOffset
              (map (fun s => if String.eqb (id s) stopId
                             then mergeStop s updates else s) (stops g)) in
          setLayers st
            (assign layerId (setFill layer (GradientFill (setStops g stops)))
               (layers st))
      end
  end.

Definition smoothLayerGradient (layerId : string) (st : EditorState)
    (rng : Rng) : EditorState * Rng :=
  let st := saveSnapshot st in
  match lookup layerId (layers st) with
  | None => (st, rng)
  | Some layer =>
      match fill layer with
      | Solid _ => (st, rng)
      | GradientFill g =>
          let (stops, rng1) := fixGradientBanding (stops g) rng in
          (setLayers st
             (assign layerId (setFill layer (GradientFill (setStops g stops)))
                (layers st)), rng1)
      end
  end.

Definition setViewport (st : EditorState) (v : Viewport) : EditorState :=
  {| viewport := v; layers := layers st; layerOrder := layerOrder st;
     selectedIds := selectedIds st; interactionMode := interactionMode st;
     history := history st |}.

Definition panCanvas (dx dy : R) (st : EditorState) : EditorState :=
  setViewport st {| vp_x := vp_x (viewport st) + dx;
                    vp_y := vp_y (viewport st) + dy;
                    zoom := zoom (viewport st) |}.

Definition zoomCanvas (delta : R) (center : Vec2) (st : EditorState)
    : EditorState :=
  let x0 := vp_x (viewport st) in
  let y0 := vp_y (viewport st) in
  let zoom0 := zoom (viewport st) in
  let newZoom := Math_min (Math_max (zoom0 * (1 - delta * 0.0015)) 0.05) 50 in
  let scale := newZoom / zoom0 in
  setViewport st {| vp_x := x center - (x center - x0) * scale;
                    vp_y := y center - (y center - y0) * scale;
                    zoom := newZoom |}.

Definition addLayer (layer : Layer) (st : EditorState) : EditorState :=
  let st := saveSnapshot st in
  {| viewport := viewport st;
     layers := assign (layer_id layer) layer (layers st);
     layerOrder := layerOrder st ++ [layer_id layer];
     selectedIds := [layer_id layer];
     interactionMode := interactionMode st;
     history := history st |}.

Definition currentSnapshot (st : EditorState) : Snapshot :=
  {| snap_layers := layers st; snap_layerOrder := layerOrder st |}.

(** [undo]: [past.pop()] takes the newest snapshot; the state it replaces
    goes to the front of [future]. *)
Definition undo (st : EditorState) : EditorState :=
  match past (history st) with
  | [] => st
  | first :: rest =>
      let previous := last rest first in
      let current := currentSnapshot st in
      {| viewport := viewport st;
         layers := snap_layers previous;
         layerOrder := snap_layerOrder previous;
         selectedIds := selectedIds st;
         interactionMode := interactionMode st;
         history := {| past := removelast (past (history st));
                       future := current :: future (history st) |} |}
  end.

(** [redo]: [future.shift()] takes the front snapshot; the state it replaces
    is appended to [past]. *)
Definition redo (st : EditorState) : EditorState :=
  match future (history st) with
  | [] => st
  | next :: rest =>
      let current := currentSnapshot st in
      {| viewport := viewport st;
         layers := snap_layers next;
         layerOrder := snap_layerOrder next;
         selectedIds := selectedIds st;
         interactionMode := interactionMode st;
         history := {| past := past (history st) ++ [current];
                       future := rest |} |}
  end.

End Store.

(** ** The gradient overlay: pointer handlers

  The handlers are closures of a React component rendered for one layer;
  they read the layer, its gradient and the viewport from the store and
  keep the live gesture in [dragRef].  The component renders nothing, and
  so has no handlers, when the layer is missing or has a solid fill.  View
  state that only drives the display (selected stop, hover, rotation
  badge) is left out. *)

Module Overlay.
Import JS Utils Store.

Inductive DragState :=
| MoveStart (id : string)
| MoveEnd (id : string)
| MoveStop (id : string)
| MoveMidpoint (stopId : string) (startStopOffset endStopOffset : R)
| PotentialStop (startX startY t : R) (valid : bool)
| Rotate (center : Vec2) (isPointBased : bool) (currentLen startAngle : R)
| MoveCenter.

Record DragRef := mkDragRef {
  active : bool;
  hasMoved : bool;
  startPos : Vec2;
  state : option DragState
}.

Definition idleDrag : DragRef :=
  {| active := false; hasMoved := false;
     startPos := {| x := 0; y := 0 |}; state := None |}.

Record PointerEvent := mkPointerEvent { clientX : R; clientY : R }.

(** The hit target of a pointer-down, with the extra data the element
    passes along. *)
Inductive Target :=
| OnStop (id : string) (offset : R)
| OnMidpoint (id : string) (startStopOffset endStopOffset : R)
| OnLine
| OnRotate
| OnCenter.

(** The search loop of [getGradientColorAt] over the adjacent pairs of
    [sorted]; [fallback] is returned when no pair brackets [t]. *)
Fixpoint colorLoop (t : R) (fallback : string) (l : list GradientStop)
    : string :=
  match l with
  | s1 :: l' =>
      match l' with
      | s2 :: _ =>
          if Rleb (offset s1) t && Rleb t (offset s2) then
            let range := offset s2 - offset s1 in
            if Req_dec_T range 0 then color s1
            else
              let factor := (t - offset s1) / range in
              interpolateColor (color s1) (color s2) factor
          else colorLoop t fallback l'
      | [] => fallback
      end
  | [] => fallback
  end.

Definition getGradientColorAt (t : R) (stops : list GradientStop) : string :=
  let sorted := sort byOffset stops in
  match sorted with
  | [] => "#000000"
  | first :: _ =>
      if Rle_dec t (offset first) then color first
      else if Rle_dec (offset (last sorted first)) t
      then color (last sorted first)
      else colorLoop t (color first) sorted
  end.

(** The values the component derives from the layer and its gradient on
    each render. *)
Section Render.
Variables (layer : Layer) (gradient : Gradient).

Definition conicRadius : R := Math_min (width layer) (height layer) * 0.35.

Definition derivedCoords : Coords := getGradientCoords (angle gradient).

Definition renderStart : Vec2 :=
  match start gradient with
  | Some s => s
  | None => {| x := x1 derivedCoords; y := y1 derivedCoords |}
  end.

Definition renderEnd : Vec2 :=
  match end_ gradient with
  | Some e => e
  | None => {| x := x2 derivedCoords; y := y2 derivedCoords |}
  end.

Definition radiusOrDefault : R :=
  match radius gradient with Some r => r | None => 0.5 end.

Definition radiusPos : Vec2 :=
  let radialAngleRad := degreesToRadians (angle gradient - 90) in
  {| x := x (center gradient) + radiusOrDefault * cos radialAngleRad;
     y := y (center gradient) + radiusOrDefault * sin radialAngleRad |}.

Definition rotCenter : Vec2 :=
  match type gradient with
  | linear =>
      let sx := x renderStart * width layer in
      let sy := y renderStart * height layer in
      let ex := x renderEnd * width layer in
      let ey := y renderEnd * height layer in
      {| x := (sx + ex) / 2; y := (sy + ey) / 2 |}
  | _ =>
      {| x := x (center gradient) * width layer;
         y := y (center gradient) * height layer |}
  end.

Definition getProjectionT (mx my : R) : R :=
  match type gradient with
  | conic =>
      let dx := mx - x (center gradient) * width layer in
      let dy := my - y (center gradient) * height layer in
      let angleRad := Math_atan2 dy dx in
      let angleDeg := angleRad * 180 / PI + 90 in
      let angleDeg := rem (angleDeg + 360) 360 in
      let relativeDeg := angleDeg - angle gradient in
      let relativeDeg := rem (relativeDeg + 360) 360 in
      relativeDeg / 360
  | ty =>
      let '(ax, ay, bx, by_) :=
        match ty with
        | radial =>
            (x (center gradient) * width layer,
             y (center gradient) * height layer,
             x radiusPos * width layer, y radiusPos * height layer)
        | _ =>
            (x renderStart * width layer, y renderStart * height layer,
             x renderEnd * width layer, y renderEnd * height layer)
        end in
      let abx := bx - ax in
      let aby := by_ - ay in
      let apx := mx - ax in
      let apy := my - ay in
      let lenSq := abx * abx + aby * aby in
      if Req_dec_T lenSq 0 then 0
      else (apx * abx + apy * aby) / lenSq
  end.
End Render.

(** The layer's gradient, when the overlay is rendered at all. *)
Definition rendered (layerId : string) (st : EditorState)
    : option (Layer * Gradient) :=
  match lookup layerId (layers st) with
  | Some layer =>
      match fill layer with
      | GradientFill g => Some (layer, g)
      | Solid _ => None
      end
  | None => None
  end.

Definition isSome {A : Type} (o : option A) : bool :=
  match o with Some _ => true | None => false end.

Definition isLinear (t : GradientType) : bool :=
  match t with linear => true | _ => false end.

Definition isConic (t : GradientType) : bool :=
  match t with conic => true | _ => false end.

Definition handlePointerDown (layerId : string) (e : PointerEvent)
    (target : Target) (st : EditorState) (dragRef : DragRef)
    : DragRef * EditorState :=
  match rendered layerId st with
  | None => (dragRef, st)
  | Some (layer, gradient) =>
      let st' := setInteractionMode dragging_gradient st in
      let state :=
        match target with
        | OnRotate =>
            let isPointBased :=
              isLinear (type gradient) && isSome (start gradient)
              && isSome (end_ gradient) in
            let dx := (x (renderEnd gradient) - x (renderStart gradient))
                      * width layer in
            let dy := (y (renderEnd gradient) - y (renderStart gradient))
                      * height layer in
            let currentLen := Math_sqrt (dx * dx + dy * dy) in
            Rotate (rotCenter layer gradient) isPointBased currentLen
                   (angle gradient)
        | OnCenter => MoveCenter
        | OnStop id offset =>
            if negb (isConic (type gradient)) then
              if Rlt_dec (Math_abs (offset - 0)) 0.001 then MoveStart id
              else if Rlt_dec (Math_abs (offset - 1)) 0.001 then MoveEnd id
              else MoveStop id
            else MoveStop id
        | OnMidpoint id startStopOffset endStopOffset =>
            MoveMidpoint id startStopOffset endStopOffset
        | OnLine =>
            let mousePos :=
              getLocalPoint {| x := clientX e; y := clientY e |}
                            (viewport st) layer in
            let mx := x mousePos * width layer in
            let my := y mousePos * height layer in
            let t := Math_max 0.01
                       (Math_min 0.99 (getProjectionT layer gradient mx my)) in
            PotentialStop (clientX e) (clientY e) t true
        end in
      ({| active := true; hasMoved := false;
          startPos := {| x := clientX e; y := clientY e |};
          state := Some state |}, st')
  end.

Definition offsetPatch (t : R) : StopPatch :=
  {| s_id := None; s_offset := Some t; s_color := None; s_opacity := None;
     s_midpoint := None |}.

Definition midpointPatch (t : R) : StopPatch :=
  {| s_id := None; s_offset := None; s_color := None; s_opacity := None;
     s_midpoint := Some (Some t) |}.

Definition setMoved (d : DragRef) (moved : bool) : DragRef :=
  {| active := active d; hasMoved := moved; startPos := startPos d;
     state := state d |}.

Definition setDragState (d : DragRef) (s : DragState) : DragRef :=
  {| active := active d; hasMoved := hasMoved d; startPos := startPos d;
     state := Some s |}.

Definition handlePointerMove (layerId : string) (e : PointerEvent)
    (st : EditorState) (dragRef : DragRef) : DragRef * EditorState :=
  match rendered layerId st with
  | None => (dragRef, st)
  | Some (layer, gradient) =>
      match active dragRef, state dragRef with
      | true, Some state =>
          let dx := clientX e - x (startPos dragRef) in
          let dy := clientY e - y (startPos dragRef) in
          let dragRef :=
            if Rlt_dec 16 (dx * dx + dy * dy) then setMoved dragRef true
            else dragRef in
          let mousePos :=
            getLocalPoint {| x := clientX e; y := clientY e |}
                          (viewport st) layer in
          let mx := x mousePos * width layer in
          let my := y mousePos * height layer in
          match state with
          | Rotate center isPointBased currentLen _ =>
              let dX := mx - x center in
              let dY := my - y center in
              let rad := Math_atan2 dY dX in
              let cssDeg := rad * 180 / PI + 90 in
              let cssDeg := rem (cssDeg + 360) 360 in
              let updates :=
                if isPointBased && isLinear (type gradient) then
                  let halfLen := currentLen / 2 in
                  let vx := cos rad * halfLen in
                  let vy := sin rad * halfLen in
                  let nsx := x center - vx in
                  let nsy := y center - vy in
                  let nex := x center + vx in
                  let ney := y center + vy in
                  {| g_type := None; g_stops := None;
                     g_angle := Some cssDeg; g_center := None;
                     g_start := Some (Some {| x := nsx / width layer;
                                              y := nsy / height layer |});
                     g_end := Some (Some {| x := nex / width layer;
                                            y := ney / height layer |});
                     g_radius := None; g_ratio := None |}
                else
                  {| g_type := None; g_stops := None;
                     g_angle := Some cssDeg; g_center := None;
                     g_start := None; g_end := None;
                     g_radius := None; g_ratio := None |} in
              (dragRef, updateLayerGradient layerId updates true st)
          | PotentialStop sx sy t valid =>
              if hasMoved dragRef
              then (setDragState dragRef (PotentialStop sx sy t false), st)
              else (dragRef, st)
          | MoveCenter =>
              (dragRef,
               updateLayerGradient layerId
                 {| g_type := None; g_stops := None; g_angle := None;
                    g_center := Some mousePos; g_start := None;
                    g_end := None; g_radius := None; g_ratio := None |}
                 true st)
          | MoveStart _ =>
              match type gradient with
              | linear =>
                  (dragRef,
                   updateLayerGradient layerId
                     {| g_type := None; g_stops := None; g_angle := None;
                        g_center := None; g_start := Some (Some mousePos);
                        g_end := Some (end_ gradient); g_radius := None;
                        g_ratio := None |} true st)
              | radial =>
                  (dragRef,
                   updateLayerGradient layerId
                     {| g_type := None; g_stops := None; g_angle := None;
                        g_center := Some mousePos; g_start := None;
                        g_end := None; g_radius := None; g_ratio := None |}
                     true st)
              | conic => (dragRef, st)
              end
          | MoveEnd _ =>
              match type gradient with
              | linear =>
                  (dragRef,
                   updateLayerGradient layerId
                     {| g_type := None; g_stops := None; g_angle := None;
                        g_center := None; g_start := Some (start gradient);
                        g_end := Some (Some mousePos); g_radius := None;
                        g_ratio := None |} true st)
              | radial =>
                  let ddx := mx - x (center gradient) * width layer in
                  let ddy := my - y (center gradient) * height layer in
                  let distPx := Math_sqrt (ddx * ddx + ddy * ddy) in
                  let newRadius := distPx / width layer in
                  (dragRef,
                   updateLayerGradient layerId
                     {| g_type := None; g_stops := None; g_angle := None;
                        g_center := None; g_start := None; g_end := None;
                        g_radius := Some (Some newRadius); g_ratio := None |}
                     true st)
              | conic => (dragRef, st)
              end
          | MoveStop id =>
              let t := getProjectionT layer gradient mx my in
              let t := if negb (isConic (type gradient))
                       then Math_max 0.01 (Math_min 0.99 t) else t in
              (dragRef, updateGradientStop layerId id (offsetPatch t) st)
          | MoveMidpoint stopId startStopOffset endStopOffset =>
              let t := getProjectionT layer gradient mx my in
              let range := endStopOffset - startStopOffset in
              let localT :=
                if isConic (type gradient) then
                  let range := if Rlt_dec range 0 then range + 1 else range in
                  let relT := t - startStopOffset in
                  let relT := if Rlt_dec relT 0 then relT + 1 else relT in
                  relT / range
                else
                  if Rlt_dec 0.001 range
                  then (t - startStopOffset) / range else 0.5 in
              let localT := Math_max 0.1 (Math_min 0.9 localT) in
              (dragRef,
               updateGradientStop layerId stopId (midpointPatch localT) st)
          end
      | _, _ => (dragRef, st)
      end
  end.

Definition handlePointerUp (layerId : string) (e : PointerEvent)
    (st : EditorState) (dragRef : DragRef) (rng : Rng)
    : DragRef * EditorState * Rng :=
  match rendered layerId st with
  | None => (dragRef, st, rng)
  | Some (layer, gradient) =>
      if active dragRef then
        let '(st1, rng1) :=
          match hasMoved dragRef, state dragRef with
          | false, Some (PotentialStop _ _ t true) =>
              let color := getGradientColorAt t (stops gradient) in
              addGradientStop layerId t (Some color) st rng
          | _, _ => (st, rng)
          end in
        (idleDrag, setInteractionMode idle st1, rng1)
      else (dragRef, st, rng)
  end.

(** Where the overlay draws a point of the layer's normalised space on the
    screen. *)
Definition getStopScreenPosition (localPos : Vec2) (layer : Layer)
    (viewport : Viewport) : Vec2 :=
  let lx := x localPos * width layer in
  let ly := y localPos * height layer in
  let rad := degreesToRadians (rotation layer) in
  let cos := cos rad in
  let sin := sin rad in
  let rx := lx * cos - ly * sin in
  let ry := lx * sin + ly * cos in
  let cx := layer_x layer + rx in
  let cy := layer_y layer + ry in
  canvasToScreen {| x := cx; y := cy |} viewport.

(** Where the overlay draws the stop of a given offset, in the layer's
    normalised space. *)
Definition getPosOnGradient (layer : Layer) (gradient : Gradient) (offset : R)
    : Vec2 :=
  match type gradient with
  | conic =>
      let angleDeg := angle gradient + offset * 360 - 90 in
      let rad := degreesToRadians angleDeg in
      {| x := x (center gradient) + conicRadius layer / width layer * cos rad;
         y := y (center gradient) + conicRadius layer / height layer * sin rad |}
  | radial =>
      let rad := degreesToRadians (angle gradient - 90) in
      {| x := x (center gradient) + offset * radiusOrDefault gradient * cos rad;
         y := y (center gradient) + offset * radiusOrDefault gradient * sin rad |}
  | linear =>
      {| x := x (renderStart gradient)
              + (x (renderEnd gradient) - x (renderStart gradient)) * offset;
         y := y (renderStart gradient)
              + (y (renderEnd gradient) - y (renderStart gradient)) * offset |}
  end.

Definition handleDeleteStop (layerId id : string) (st : EditorState)
    : EditorState :=
  removeGradientStop layerId id st.

End Overlay.

(** ** GradientRenderer: midpoint stops *)

Module Renderer.
Import JS Utils.

(** [processStops]: after every stop but the last, a stop at the biased
    midpoint when the stop's [midpoint] is more than 0.01 away from 0.5. *)
Fixpoint processStops (stops : list GradientStop) : list GradientStop :=
  match stops with
  | [] => []
  | current :: rest =>
      match rest with
      | [] => [current]
      | next :: _ =>
          let mid := match midpoint current with Some m => m | None => 0.5 end in
          if Rlt_dec 0.01 (Math_abs (mid - 0.5)) then
            let midOffset := offset current + (offset next - offset current) * mid in
            let midColor := interpolateColor (color current) (color next) 0.5 in
            current
            :: {| id := ("mid-" ++ id current ++ "-" ++ id next)%string;
                  offset := midOffset;
                  color := midColor;
                  opacity := (opacity current + opacity next) / 2;
                  midpoint := None |}
            :: processStops rest
          else current :: processStops rest
      end
  end.

End Renderer.

(** ** Vocabulary of the statements *)

Import Utils Store Overlay Renderer.

Definition gray (lch : OKLCH) : OKLCH := {| L := L lch; C := 0; H := H lch |}.

Definition inGamut (lch : OKLCH) : bool :=
  isInGamutSrgbEncoded (oklchToSrgbEncoded lch).

(** Linear-light red of the achromatic colour of lightness [l]. *)
Definition grayRed (l : R) : R :=
  (3.2409699419 * (1.2270138511 - 0.5577999807 + 0.2812561490)
   - 1.5373831776 * (-0.0405801784 + 1.1122568696 - 0.0716766787)
   - 0.4986107603 * (-0.0763812845 - 0.4214819784 + 1.5861632204)) * (l * l * l).

Definition gray8 : RGB := {| r := 8 / 255; g := 8 / 255; b := 8 / 255 |}.

Definition lab8 : OKLab :=
  xyzToOklab (linearSrgbToXyz {| r := srgbToLinear (8 / 255);
                                 g := srgbToLinear (8 / 255);
                                 b := srgbToLinear (8 / 255) |}).

(** The stop that iteration [k] of the inner loop pushes, with [newId] the
    identifier drawn for it. *)
Definition insertedStop (start end_ : GradientStop) (range : R)
    (lin1 lin2 : RGBn) (k : Z) (newId : string) : GradientStop :=
  let t := IZR k / INR steps in
  {| id := newId;
     offset := offset start + range * t;
     color := ("#" ++ byteHex (option_map linearToSrgb (blend (n_r lin1) (n_r lin2) t))
                   ++ byteHex (option_map linearToSrgb (blend (n_g lin1) (n_g lin2) t))
                   ++ byteHex (option_map linearToSrgb (blend (n_b lin1) (n_b lin2) t)))%string;
     opacity := opacity start + (opacity end_ - opacity start) * t;
     midpoint := None |}.

Definition advance (rng : Rng) (n : nat) : Rng :=
  {| draws := draws rng; next := (next rng + n)%nat |}.

Definition white : string := "#FFFFFF".


Fixpoint hexDigits (h : string) : bool :=
  match h with
  | EmptyString => true
  | String c h' =>
      match JS.hexDigit c with Some _ => hexDigits h' | None => false end
  end.

Definition byte (n : Z) : Prop := (0 <= n <= 255)%Z.

(** The values of the hexadecimal digits of [h], when every character of
    [h] is one. *)
Fixpoint digitValues (h : string) : option (list Z) :=
  match h with
  | EmptyString => Some []
  | String c h' =>
      match JS.hexDigit c, digitValues h' with
      | Some d, Some ds => Some (d :: ds)
      | _, _ => None
      end
  end.

(** The colour that 3, 6 or 8 digit values denote: red, green and blue as
    bytes and alpha in [[0, 1]].  A digit of the short form counts twice;
    without an alpha pair the colour is opaque. *)
Definition channels (ds : list Z) : option (Z * Z * Z * R) :=
  match ds with
  | [r; g; b] => Some ((17 * r)%Z, (17 * g)%Z, (17 * b)%Z, 1)
  | [r1; r0; g1; g0; b1; b0] =>
      Some ((16 * r1 + r0)%Z, (16 * g1 + g0)%Z, (16 * b1 + b0)%Z, 1)
  | [r1; r0; g1; g0; b1; b0; a1; a0] =>
      Some ((16 * r1 + r0)%Z, (16 * g1 + g0)%Z, (16 * b1 + b0)%Z,
            IZR (16 * a1 + a0) / 255)
  | _ => None
  end.

(** [c] is the digits [h], with or without a leading ['#']. *)
Definition writes (c h : string) : Prop := c = h \/ c = String "#" h.

Definition hexChar (d : Z) : ascii :=
  nth (Z.to_nat d) (list_ascii_of_string "0123456789abcdef") "0"%char.

(** The two lower-case hex digits of [n] clamped into a byte. *)
Definition hexPair (n : Z) : string :=
  let m := Z.min 255 (Z.max 0 n) in
  String (hexChar (m / 16)) (String (hexChar (m mod 16)) EmptyString).

Definition offsetLe (a b : GradientStop) : Prop := offset a <= offset b.

(** Stability: the stops that share an offset keep their relative order. *)
Definition atOffset (v : R) (s : GradientStop) : bool := JS.Reqb (offset s) v.

Definition keepOthers (stopId : string) (s : GradientStop) : bool :=
  negb (String.eqb (id s) stopId).

(** The stops of a layer's gradient, empty for a missing layer or a solid
    fill. *)
Definition stopsOf (layerId : string) (st : EditorState) : list GradientStop :=
  match lookup layerId (layers st) with
  | Some layer =>
      match fill layer with GradientFill g => stops g | Solid _ => [] end
  | None => []
  end.

(** A sequence of offset edits [(stopId, offset)], applied one after the
    other with [updateGradientStop]. *)
Definition applyOffsetEdits (layerId : string) (edits : list (string * R))
    (st : EditorState) : EditorState :=
  fold_left (fun s e => updateGradientStop layerId (fst e)
                          (Overlay.offsetPatch (snd e)) s) edits st.

(** A small editor state: one artboard with a two-stop linear gradient. *)
Definition stopA : GradientStop :=
  {| id := "a"; offset := 0; color := "#000000"; opacity := 1; midpoint := None |}.
Definition stopB : GradientStop :=
  {| id := "b"; offset := 1; color := "#FFFFFF"; opacity := 1; midpoint := None |}.
Definition stopM : GradientStop :=
  {| id := "m"; offset := 0.5; color := "#808080"; opacity := 1; midpoint := None |}.

Definition gradientOf (ss : list GradientStop) : Gradient :=
  {| type := linear; stops := ss; angle := 90;
     center := {| x := 0.5; y := 0.5 |};
     start := None; end_ := None; radius := None; ratio := None |}.

Definition boardOf (g : Gradient) : Layer :=
  {| layer_id := "board"; layer_type := artboard; name := "Main Board";
     layer_x := 100; layer_y := 100; width := 1200; height := 800;
     rotation := 0; visible := true; fill := GradientFill g;
     borderRadius := None |}.

Definition stateOf (g : Gradient) : EditorState :=
  {| viewport := {| vp_x := 0; vp_y := 0; zoom := 1 |};
     layers := [("board"%string, boardOf g)];
     layerOrder := ["board"%string];
     selectedIds := ["board"%string];
     interactionMode := idle;
     history := {| past := []; future := [] |} |}.

Definition mergeInto (stopId : string) (updates : StopPatch) (s : GradientStop)
    : GradientStop :=
  if String.eqb (id s) stopId then mergeStop s updates else s.

Definition moveAPastB : StopPatch :=
  {| s_id := None; s_offset := Some 2; s_color := None; s_opacity := None;
     s_midpoint := None |}.

Definition renameA : StopPatch :=
  {| s_id := Some "z"%string; s_offset := None; s_color := None;
     s_opacity := None; s_midpoint := None |}.

(** A conic gradient turned by two full turns, as a generated gradient can
    carry it. *)
Definition conic720 : Gradient :=
  {| type := conic; stops := [stopA; stopB]; angle := 720;
     center := {| x := 0.5; y := 0.5 |};
     start := None; end_ := None; radius := None; ratio := None |}.

(** The gradient the overlay of [layerId] shows, if any. *)
Definition gradientAt (layerId : string) (st : EditorState) : option Gradient :=
  option_map snd (rendered layerId st).

(** Midpoint and separation of two normalised handles in layer pixels. *)
Definition pixelMid (layer : Layer) (s e : Vec2) : Vec2 :=
  {| x := (x s * width layer + x e * width layer) / 2;
     y := (y s * height layer + y e * height layer) / 2 |}.

Definition pixelSep (layer : Layer) (s e : Vec2) : R :=
  sqrt ((x e - x s) * width layer * ((x e - x s) * width layer)
        + (y e - y s) * height layer * ((y e - y s) * height layer)).

(** The gradient [g'] differs from [g] in its angle at most. *)
Definition sameButAngle (g g' : Gradient) : Prop :=
  type g' = type g /\ stops g' = stops g /\ center g' = center g
  /\ start g' = start g /\ end_ g' = end_ g
  /\ radius g' = radius g /\ ratio g' = ratio g.

(** The gradient [g'] differs from [g] in its angle and handles at most. *)
Definition sameButAxis (g g' : Gradient) : Prop :=
  type g' = type g /\ stops g' = stops g /\ center g' = center g
  /\ radius g' = radius g /\ ratio g' = ratio g.

(** The pointer in the pixel space of the layer. *)
Definition pointerPx (v : Viewport) (layer : Layer) (e : PointerEvent) : Vec2 :=
  let p := getLocalPoint {| x := clientX e; y := clientY e |} v layer in
  {| x := x p * width layer; y := y p * height layer |}.

(** The direction from the pixel point [c] to the pointer, in radians. *)
Definition pointerRad (v : Viewport) (layer : Layer) (c : Vec2)
    (e : PointerEvent) : R :=
  JS.Math_atan2 (y (pointerPx v layer e) - y c) (x (pointerPx v layer e) - x c).

(** The CSS angle of a direction: a quarter turn ahead, in [[0, 360)]. *)
Definition cssAngle (rad : R) : R := JS.rem (rad * 180 / PI + 90 + 360) 360.

(** The normalised point at pixel distance [len / 2] from [c], against
    ([side = false]) or along ([side = true]) the direction [rad]. *)
Definition handleAt (layer : Layer) (c : Vec2) (len rad : R) (side : bool)
    : Vec2 :=
  if side
  then {| x := (x c + cos rad * (len / 2)) / width layer;
          y := (y c + sin rad * (len / 2)) / height layer |}
  else {| x := (x c - cos rad * (len / 2)) / width layer;
          y := (y c - sin rad * (len / 2)) / height layer |}.

(** The gradient after one pointer move of a rotate gesture. *)
Definition rotated (layer : Layer) (c : Vec2) (pointBased : bool)
    (len rad : R) (g : Gradient) : Gradient :=
  {| type := type g; stops := stops g; angle := cssAngle rad;
     center := center g;
     start := if pointBased && isLinear (type g)
              then Some (handleAt layer c len rad false) else start g;
     end_ := if pointBased && isLinear (type g)
             then Some (handleAt layer c len rad true) else end_ g;
     radius := radius g; ratio := ratio g |}.

(** Pointer moves of one gesture, in order. *)
Definition runMoves (layerId : string) (es : list PointerEvent)
    (s : DragRef * EditorState) : DragRef * EditorState :=
  fold_left (fun s e => handlePointerMove layerId e (snd s) (fst s)) es s.

(** The length that pointer-down on the rotation handle freezes. *)
Definition frozenLen (layer : Layer) (g : Gradient) : R :=
  pixelSep layer (renderStart g) (renderEnd g).

Definition gradientPts : Gradient :=
  {| type := linear; stops := [stopA; stopB]; angle := 90;
     center := {| x := 0.5; y := 0.5 |};
     start := Some {| x := 0.25; y := 0.5 |};
     end_ := Some {| x := 0.75; y := 0.5 |};
     radius := None; ratio := None |}.

Definition pointerAt (px py : R) : PointerEvent :=
  {| clientX := px; clientY := py |}.

Definition draggingM : DragRef :=
  {| active := true; hasMoved := false; startPos := {| x := 690; y := 500 |};
     state := Some (MoveStop "m") |}.

Definition grayGreen (l : R) : R :=
  (-0.9692436363 * (1.2270138511 - 0.5577999807 + 0.2812561490)
   + 1.8759675015 * (-0.0405801784 + 1.1122568696 - 0.0716766787)
   + 0.0415550574 * (-0.0763812845 - 0.4214819784 + 1.5861632204)) * (l * l * l).

Definition grayBlue (l : R) : R :=
  (0.0556300797 * (1.2270138511 - 0.5577999807 + 0.2812561490)
   - 0.2039769589 * (-0.0405801784 + 1.1122568696 - 0.0716766787)
   + 1.0569715142 * (-0.0763812845 - 0.4214819784 + 1.5861632204)) * (l * l * l).

Definition vividOrange : OKLCH := {| L := 0.7; C := 0.4; H := 50 |}.

(** No character of [h] is a lower-case letter. *)
Fixpoint noLowerCase (h : string) : bool :=
  match h with
  | EmptyString => true
  | String c h' =>
      negb ((97 <=? nat_of_ascii c)%nat && (nat_of_ascii c <=? 122)%nat)
      && noLowerCase h'
  end.

Definition radialAt (radius : option R) : Gradient :=
  {| type := radial; stops := [stopA; stopB]; angle := 0;
     center := {| x := 0.5; y := 0.5 |};
     start := None; end_ := None; radius := radius; ratio := None |}.

Definition conicAt (angle : R) : Gradient :=
  {| type := conic; stops := [stopA; stopB]; angle := angle;
     center := {| x := 0.5; y := 0.5 |};
     start := None; end_ := None; radius := None; ratio := None |}.

Definition viewHalf : Viewport := {| vp_x := 40; vp_y := -20; zoom := 0.5 |}.

(** The squared pixel length of the axis the overlay projects on. *)
Definition axisLenSq (layer : Layer) (g : Gradient) : R :=
  match type g with
  | radial =>
      (x (radiusPos g) * width layer - x (center g) * width layer)
      * (x (radiusPos g) * width layer - x (center g) * width layer)
      + (y (radiusPos g) * height layer - y (center g) * height layer)
        * (y (radiusPos g) * height layer - y (center g) * height layer)
  | _ =>
      (x (renderEnd g) * width layer - x (renderStart g) * width layer)
      * (x (renderEnd g) * width layer - x (renderStart g) * width layer)
      + (y (renderEnd g) * height layer - y (renderStart g) * height layer)
        * (y (renderEnd g) * height layer - y (renderStart g) * height layer)
  end.

Definition swapEnds (c : Coords) : Coords :=
  {| x1 := x2 c; y1 := y2 c; x2 := x1 c; y2 := y1 c |}.

(** The number of snapshots the history holds, undo and redo together. *)
Definition historySize (st : EditorState) : nat :=
  (List.length (past (history st)) + List.length (future (history st)))%nat.

(** The stop [addGradientStop] creates. *)
Definition newStop (rng : Rng) (t : R) (c : option string) : GradientStop :=
  {| id := draws rng (next rng); offset := t; color := orWhite c; opacity := 1;
     midpoint := None |}.

Definition countingRng : Rng :=
  {| draws := fun k => if Nat.eqb k 0 then "n0"%string else "n1"%string; next := 0 |}.

Definition viewAt (vx vy z : R) : EditorState :=
  {| viewport := {| vp_x := vx; vp_y := vy; zoom := z |};
     layers := []; layerOrder := []; selectedIds := [];
     interactionMode := idle;
     history := {| past := []; future := [] |} |}.

(** The stop's midpoint is missing or within 0.01 of the default 0.5. *)
Definition defaultMidpoint (s : GradientStop) : Prop :=
  match midpoint s with
  | Some m => Rabs (m - 0.5) <= 0.01
  | None => True
  end.

(** The stop's midpoint, when it has one, lies in [[0, 1]]. *)
Definition midpointInUnit (s : GradientStop) : Prop :=
  match midpoint s with
  | Some m => 0 <= m <= 1
  | None => True
  end.

(** The pointer is more than 4 px away from [origin]. *)
Definition movedFrom (origin : Vec2) (e : PointerEvent) : Prop :=
  16 < (clientX e - x origin) * (clientX e - x origin)
       + (clientY e - y origin) * (clientY e - y origin).

Definition pressAt (e : PointerEvent) : Vec2 :=
  {| x := clientX e; y := clientY e |}.

Definition draggingMid : DragRef :=
  {| active := true; hasMoved := false; startPos := {| x := 690; y := 500 |};
     state := Some (MoveMidpoint "a" 0 1) |}.

Definition lowerHexDigits : list ascii :=
  list_ascii_of_string "0123456789abcdef".

(** [c] is ['#'] followed by six hex digits, none of them upper-case: the
    form in which [interpolateColor] prints an opaque colour. *)
Definition lowerHex6 (c : string) : Prop :=
  exists h, c = String "#" h /\ String.length h = 6%nat
            /\ Forall (fun a => In a lowerHexDigits) (list_ascii_of_string h).



(** * Verification *)

(** * Facts about the JavaScript built-ins *)

Lemma Rleb_true (a b : R) : a <= b -> JS.Rleb a b = true.
Proof. intros Hab. unfold JS.Rleb. destruct (Rle_dec a b); [reflexivity | contradiction]. Qed.

Lemma Rleb_false (a b : R) : b < a -> JS.Rleb a b = false.
Proof. intros Hab. unfold JS.Rleb. destruct (Rle_dec a b); [lra | reflexivity]. Qed.

Lemma Rleb_spec (a b : R) : JS.Rleb a b = true <-> a <= b.
Proof.
  unfold JS.Rleb. destruct (Rle_dec a b); split; intros; try assumption;
    try reflexivity; try discriminate; contradiction.
Qed.



(** [Math.round] of a real inside a unit window around an integer. *)
Lemma Math_round_eq (a : R) (n : Z) :
  IZR n - / 2 <= a < IZR n + / 2 -> JS.Math_round a = n.
Proof.
  intros [Hlo Hhi]. unfold JS.Math_round. symmetry.
  apply Int_part_spec. lra.
Qed.

Lemma Math_pow_pos (b e : R) : 0 < b -> JS.Math_pow b e = Rpower b e.
Proof. intros Hb. unfold JS.Math_pow. destruct (Rlt_dec 0 b); [reflexivity | contradiction]. Qed.


(** The power [u^(1/2.4)] satisfies [y^12 = u^5]; this pins it between
    rational bounds. *)
Lemma Rpower_gamma_pow12 (u : R) : 0 < u -> Rpower u (1 / 2.4) ^ 12 = u ^ 5.
Proof.
  intros Hu.
  rewrite <- (Rpower_pow 12) by (unfold Rpower; apply exp_pos).
  rewrite Rpower_mult.
  replace (1 / 2.4 * INR 12) with (INR 5) by (simpl; lra).
  apply Rpower_pow; assumption.
Qed.

Lemma pow_lt_reg (c v : R) (n : nat) : 0 <= v -> c ^ n < v ^ n -> c < v.
Proof.
  intros Hv Hlt. destruct (Rlt_le_dec c v) as [|Hle]; [assumption|].
  exfalso. assert (v ^ n <= c ^ n) by (apply pow_incr; lra). lra.
Qed.

Lemma pow_le_reg (c v : R) (n : nat) :
  0 <= v -> 0 < c -> c ^ S n <= v ^ S n -> c <= v.
Proof.
  intros Hv Hc Hle. destruct (Rle_lt_dec c v) as [|Hlt]; [assumption|].
  exfalso.
  assert (v ^ S n < c ^ S n).
  { clear Hle. induction n as [|n IH].
    - simpl. lra.
    - change (v ^ S (S n)) with (v * v ^ S n).
      change (c ^ S (S n)) with (c * c ^ S n).
      assert (0 <= v ^ S n) by (apply pow_le; assumption).
      nra. }
  lra.
Qed.

Lemma Rpower_gamma_lower (u c : R) :
  0 < u -> 0 < c -> c ^ 12 <= u ^ 5 -> c <= Rpower u (1 / 2.4).
Proof.
  intros Hu Hc Hle. apply (pow_le_reg c _ 11).
  - left. unfold Rpower. apply exp_pos.
  - assumption.
  - rewrite Rpower_gamma_pow12; assumption.
Qed.

Lemma Rpower_gamma_lower_strict (u c : R) :
  0 < u -> c ^ 12 < u ^ 5 -> c < Rpower u (1 / 2.4).
Proof.
  intros Hu Hlt. apply (pow_lt_reg c _ 12).
  - left. unfold Rpower. apply exp_pos.
  - rewrite Rpower_gamma_pow12; assumption.
Qed.

Lemma Rpower_gamma_upper (u c : R) :
  0 < u -> 0 <= c -> u ^ 5 < c ^ 12 -> Rpower u (1 / 2.4) < c.
Proof.
  intros Hu Hc Hlt. apply (pow_lt_reg _ c 12); [assumption|].
  rewrite Rpower_gamma_pow12; assumption.
Qed.

(** * Gamut clamp *)

(** The loop returns its initial [best] or a chroma that passed the test. *)
Lemma clampLoop_best_or_in_gamut lch n : forall lo hi best,
  let c := clampLoop lch n lo hi best in
  c = best \/ inGamut {| L := L lch; C := c; H := H lch |} = true.
Proof.
  induction n as [|n IH]; intros lo hi best; simpl.
  - left; reflexivity.
  - destruct (isInGamutSrgbEncoded _) eqn:Hmid.
    + destruct (IH ((lo + hi) / 2) hi ((lo + hi) / 2)) as [Heq | Hin].
      * right. rewrite Heq. exact Hmid.
      * right. exact Hin.
    + apply IH.
Qed.

(** With a positive input chroma out of reach, the search interval stays
    inside [[0, hi]] and [best] never exceeds it. *)
Lemma clampLoop_le lch n : forall lo hi best,
  lo <= hi -> best <= lo -> clampLoop lch n lo hi best <= hi.
Proof.
  induction n as [|n IH]; intros lo hi best Hlo Hbest; simpl.
  - lra.
  - destruct (isInGamutSrgbEncoded _).
    + apply IH; lra.
    + apply Rle_trans with ((lo + hi) / 2); [apply IH; lra | lra].
Qed.

(** When the achromatic colour of the same lightness fails the test, a
    search that starts from a zero interval never moves. *)
Lemma clampLoop_stuck lch n : forall lo hi,
  lo = 0 -> hi = 0 -> inGamut (gray lch) = false ->
  clampLoop lch n lo hi 0 = 0.
Proof.
  induction n as [|n IH]; intros lo hi Hlo Hhi Hgray; simpl.
  - reflexivity.
  - replace ((lo + hi) / 2) with 0 by (subst; lra).
    unfold inGamut, gray in Hgray. rewrite Hgray.
    apply IH; [assumption | reflexivity | exact Hgray].
Qed.

Lemma clamp_in_gamut lch n :
  inGamut lch = true -> clampOklchToSrgbGamut lch n = lch.
Proof.
  intros Hin. unfold clampOklchToSrgbGamut. unfold inGamut in Hin.
  rewrite Hin. reflexivity.
Qed.

Lemma clamp_out_of_gamut lch n :
  inGamut lch = false ->
  clampOklchToSrgbGamut lch n
  = {| L := L lch; C := clampLoop lch n 0 (C lch) 0; H := H lch |}.
Proof.
  intros Hout. unfold clampOklchToSrgbGamut. unfold inGamut in Hout.
  rewrite Hout. reflexivity.
Qed.

Lemma clamp_idem lch n m :
  clampOklchToSrgbGamut (clampOklchToSrgbGamut lch n) m
  = clampOklchToSrgbGamut lch n.
Proof.
  destruct (inGamut lch) eqn:Hin.
  - rewrite (clamp_in_gamut lch n Hin). apply clamp_in_gamut; exact Hin.
  - rewrite (clamp_out_of_gamut lch n Hin).
    destruct (clampLoop_best_or_in_gamut lch n 0 (C lch) 0) as [Hzero | Hok].
    + rewrite Hzero.
      destruct (inGamut {| L := L lch; C := 0; H := H lch |}) eqn:Hgray.
      * apply clamp_in_gamut; exact Hgray.
      * rewrite (clamp_out_of_gamut _ m Hgray). simpl. f_equal.
        apply clampLoop_stuck; [reflexivity | reflexivity | exact Hgray].
    + apply clamp_in_gamut; exact Hok.
Qed.


(** * Transfer curve between rational bounds *)

Lemma linearToSrgb_linear (u : R) : u <= 0.0031308 -> linearToSrgb u = 12.92 * u.
Proof. intros Hu. unfold linearToSrgb. destruct (Rle_dec u 0.0031308); [reflexivity | contradiction]. Qed.

Lemma linearToSrgb_gamma (u : R) :
  0.0031308 < u -> linearToSrgb u = 1.055 * Rpower u (1 / 2.4) - 0.055.
Proof.
  intros Hu. unfold linearToSrgb. destruct (Rle_dec u 0.0031308); [lra|].
  rewrite Math_pow_pos by lra. reflexivity.
Qed.

Lemma linearToSrgb_gt (u c : R) :
  0.0031308 < u -> c ^ 12 < u ^ 5 -> 1.055 * c - 0.055 < linearToSrgb u.
Proof.
  intros Hu Hc. rewrite linearToSrgb_gamma by assumption.
  assert (c < Rpower u (1 / 2.4)) by (apply Rpower_gamma_lower_strict; lra).
  lra.
Qed.

Lemma linearToSrgb_ge (u c : R) :
  0.0031308 < u -> 0 < c -> c ^ 12 <= u ^ 5 -> 1.055 * c - 0.055 <= linearToSrgb u.
Proof.
  intros Hu Hc0 Hc. rewrite linearToSrgb_gamma by assumption.
  assert (c <= Rpower u (1 / 2.4)) by (apply Rpower_gamma_lower; lra).
  lra.
Qed.

Lemma linearToSrgb_lt (u c : R) :
  0.0031308 < u -> 0 <= c -> u ^ 5 < c ^ 12 -> linearToSrgb u < 1.055 * c - 0.055.
Proof.
  intros Hu Hc0 Hc. rewrite linearToSrgb_gamma by assumption.
  assert (Rpower u (1 / 2.4) < c) by (apply Rpower_gamma_upper; lra).
  lra.
Qed.

Lemma srgbToLinear_linear (u : R) : u <= 0.04045 -> srgbToLinear u = u / 12.92.
Proof. intros Hu. unfold srgbToLinear. destruct (Rle_dec u 0.04045); [reflexivity | contradiction]. Qed.


(** * The achromatic colours *)

Lemma oklchToOklab_gray (l h : R) :
  oklchToOklab {| L := l; C := 0; H := h |} = {| lab_L := l; lab_a := 0; lab_b := 0 |}.
Proof. unfold oklchToOklab; simpl. f_equal; lra. Qed.

Lemma gray_linear_red (l h : R) :
  r (xyzToLinearSrgb (oklabToXyz (oklchToOklab {| L := l; C := 0; H := h |})))
  = grayRed l.
Proof.
  rewrite oklchToOklab_gray. unfold oklabToXyz, xyzToLinearSrgb, grayRed; simpl.
  lra.
Qed.

Lemma encoded_r (lch : OKLCH) :
  r (oklchToSrgbEncoded lch)
  = linearToSrgb (r (xyzToLinearSrgb (oklabToXyz (oklchToOklab lch)))).
Proof. reflexivity. Qed.

Lemma encoded_g (lch : OKLCH) :
  g (oklchToSrgbEncoded lch)
  = linearToSrgb (g (xyzToLinearSrgb (oklabToXyz (oklchToOklab lch)))).
Proof. reflexivity. Qed.

Lemma encoded_b (lch : OKLCH) :
  b (oklchToSrgbEncoded lch)
  = linearToSrgb (b (xyzToLinearSrgb (oklabToXyz (oklchToOklab lch)))).
Proof. reflexivity. Qed.

Lemma isInGamut_red_high (rgb : RGB) :
  1 + 0.00005 < r rgb -> isInGamutSrgbEncoded rgb = false.
Proof.
  intros Hr. unfold isInGamutSrgbEncoded.
  rewrite (Rleb_false (r rgb) (1 + 0.00005)) by assumption.
  rewrite andb_false_r. reflexivity.
Qed.

Lemma white_red_out :
  1 + 0.00005 < r (oklchToSrgbEncoded {| L := 1; C := 0; H := 0 |}).
Proof.
  rewrite encoded_r, gray_linear_red.
  assert (Hlo : 1.0004 <= grayRed 1) by (unfold grayRed; lra).
  apply Rlt_trans with (1.055 * 1.00005 - 0.055); [lra|].
  apply linearToSrgb_gt; [lra|].
  apply Rlt_le_trans with (1.0004 ^ 5); [lra|].
  apply pow_incr; lra.
Qed.

Lemma white_out_of_gamut : inGamut {| L := 1; C := 0; H := 0 |} = false.
Proof. apply isInGamut_red_high, white_red_out. Qed.

Lemma clamp_white :
  clampOklchToSrgbGamut {| L := 1; C := 0; H := 0 |} defaultMaxIter
  = {| L := 1; C := 0; H := 0 |}.
Proof.
  rewrite (clamp_out_of_gamut _ _ white_out_of_gamut). simpl L. simpl H. simpl C.
  f_equal. apply clampLoop_stuck; [reflexivity | reflexivity | exact white_out_of_gamut].
Qed.


(** * Cube roots and the polar form *)

Lemma Rpower_third_cube (u : R) : 0 < u -> Rpower u (1 / 3) ^ 3 = u.
Proof.
  intros Hu.
  rewrite <- (Rpower_pow 3) by (unfold Rpower; apply exp_pos).
  rewrite Rpower_mult.
  replace (1 / 3 * INR 3) with 1 by (simpl; lra).
  apply Rpower_1; assumption.
Qed.

Lemma cbrt_bounds (u lo hi : R) :
  0 < lo -> lo ^ 3 <= u <= hi ^ 3 -> lo <= cbrt u <= hi.
Proof.
  intros Hlo [Hl Hh].
  assert (Hu : 0 < u).
  { apply Rlt_le_trans with (lo ^ 3); [apply pow_lt; assumption | assumption]. }
  unfold cbrt. destruct (Rlt_dec u 0); [lra|].
  rewrite Math_pow_pos by assumption.
  assert (Hy : 0 < Rpower u (1 / 3)) by (unfold Rpower; apply exp_pos).
  split.
  - apply (pow_le_reg lo _ 2); [lra | assumption |].
    rewrite Rpower_third_cube; assumption.
  - apply (pow_le_reg _ hi 2); [|assumption|].
    + destruct (Rle_lt_dec 0 hi) as [|Hneg]; [assumption|].
      exfalso. assert (hi ^ 3 < 0) by (simpl; nra). lra.
    + rewrite Rpower_third_cube; assumption.
Qed.

(** Cartesian to polar and back is the identity in the right half-plane,
    once the chroma exceeds the achromatic threshold. *)
Lemma polar_roundtrip (lab : OKLab) :
  0 < lab_a lab ->
  EPS < sqrt (lab_a lab * lab_a lab + lab_b lab * lab_b lab) ->
  oklchToOklab (oklabToOklch lab) = lab.
Proof.
  destruct lab as [l a b]; simpl. intros Ha HC.
  set (c := sqrt (a * a + b * b)) in *.
  assert (Hc : 0 < c) by (unfold EPS in HC; lra).
  assert (Hroot : sqrt (1 + (b / a)²) = c / a).
  { unfold c. replace (1 + (b / a)²) with ((a * a + b * b) / (a * a))
      by (unfold Rsqr; field; lra).
    rewrite sqrt_div_alt by nra. rewrite sqrt_square by lra. reflexivity. }
  assert (Hcos : c * cos (atan (b / a)) = a).
  { rewrite cos_atan, Hroot. field. split; lra. }
  assert (Hsin : c * sin (atan (b / a)) = b).
  { rewrite sin_atan, Hroot. field. split; lra. }
  unfold oklchToOklab, oklabToOklch, JS.Math_sqrt; simpl. fold c.
  destruct (Rlt_dec EPS c); [|contradiction].
  unfold JS.Math_atan2. destruct (Rlt_dec 0 a); [|contradiction].
  assert (HPI : PI <> 0) by (pose proof PI_RGT_0; lra).
  destruct (Rlt_dec (atan (b / a) * 180 / PI) 0).
  - replace ((atan (b / a) * 180 / PI + 360) * PI / 180)
      with (atan (b / a) + 2 * INR 1 * PI) by (simpl; field; assumption).
    rewrite cos_period, sin_period, Hcos, Hsin. reflexivity.
  - replace (atan (b / a) * 180 / PI * PI / 180) with (atan (b / a))
      by (field; assumption).
    rewrite Hcos, Hsin. reflexivity.
Qed.

(** * Round trip of the dark gray (8, 8, 8) *)

Lemma lab8_bounds :
  0.134845261 <= lab_L lab8 <= 0.134845263 /\
  0.003593458 <= lab_a lab8 <= 0.003593464 /\
  0.001981675 <= lab_b lab8 <= 0.001981677.
Proof.
  unfold lab8, xyzToOklab, linearSrgbToXyz. cbv zeta. simpl.
  rewrite (srgbToLinear_linear (8 / 255)) by lra.
  match goal with
  | |- context [0.2104542553 * cbrt ?l + 0.7936177850 * cbrt ?m - 0.0040720468 * cbrt ?s] =>
      pose proof (cbrt_bounds l 0.136697139 0.136697140) as Hl;
      pose proof (cbrt_bounds m 0.134339394 0.134339395) as Hm;
      pose proof (cbrt_bounds s 0.131964405 0.131964406) as Hs;
      generalize dependent (cbrt l); generalize dependent (cbrt m);
      generalize dependent (cbrt s)
  end.
  intros cs Hs cm Hm cl Hl.
  assert (Hl' := Hl ltac:(lra) ltac:(lra)).
  assert (Hm' := Hm ltac:(lra) ltac:(lra)).
  assert (Hs' := Hs ltac:(lra) ltac:(lra)).
  clear Hl Hm Hs. lra.
Qed.

Lemma cube_bounds (u lo hi : R) :
  0 <= lo -> lo <= u <= hi -> lo * lo * lo <= u * u * u <= hi * hi * hi.
Proof.
  intros Hlo [Hl Hh].
  pose proof (pow_incr lo u 3 ltac:(lra)) as H1.
  pose proof (pow_incr u hi 3 ltac:(lra)) as H2.
  simpl in H1, H2. lra.
Qed.

(** Linear-light channels after the way back, from bounds on the OKLab
    coordinates. *)
Lemma lin8_bounds (lab : OKLab) :
  0.134845261 <= lab_L lab <= 0.134845263 ->
  0.003593458 <= lab_a lab <= 0.003593464 ->
  0.001981675 <= lab_b lab <= 0.001981677 ->
  let lin := xyzToLinearSrgb (oklabToXyz lab) in
  0.0029259 <= r lin <= 0.0029260 /\
  0.0023026 <= g lin <= 0.0023027 /\
  0.0022063 <= b lin <= 0.0022064.
Proof.
  destruct lab as [l a b]; simpl. intros HL Ha Hb.
  set (l_ := l + 0.3963377774 * a + 0.2158037573 * b).
  set (m_ := l - 0.1055613458 * a - 0.0638541728 * b).
  set (s_ := l - 0.0894841775 * a - 1.2914855480 * b).
  assert (Hl : 0.13669713 <= l_ <= 0.13669715) by (unfold l_; lra).
  assert (Hm : 0.13433939 <= m_ <= 0.13433940) by (unfold m_; lra).
  assert (Hs : 0.13196439 <= s_ <= 0.13196441) by (unfold s_; lra).
  pose proof (cube_bounds l_ 0.13669713 0.13669715 ltac:(lra) Hl) as Hl3.
  pose proof (cube_bounds m_ 0.13433939 0.13433940 ltac:(lra) Hm) as Hm3.
  pose proof (cube_bounds s_ 0.13196439 0.13196441 ltac:(lra) Hs) as Hs3.
  generalize dependent (l_ * l_ * l_).
  generalize dependent (m_ * m_ * m_).
  generalize dependent (s_ * s_ * s_).
  intros s3 Hs3 m3 Hm3 l3 Hl3. lra.
Qed.


Lemma clamp01_id (u : R) : 0 <= u <= 1 -> clamp01 u = u.
Proof.
  intros [H0 H1]. unfold clamp01, JS.Math_min, JS.Math_max.
  rewrite (Rmax_right 0 u) by assumption. apply Rmin_right; assumption.
Qed.

Lemma clamp01_range (u : R) : 0 <= clamp01 u <= 1.
Proof.
  unfold clamp01, JS.Math_min, JS.Math_max.
  split.
  - apply Rmin_glb; [lra | apply Rmax_l].
  - apply Rmin_l.
Qed.

Lemma isInGamut_intro (rgb : RGB) :
  0 <= r rgb <= 1 -> 0 <= g rgb <= 1 -> 0 <= b rgb <= 1 ->
  isInGamutSrgbEncoded rgb = true.
Proof.
  intros Hr Hg Hb. unfold isInGamutSrgbEncoded.
  rewrite !Rleb_true by lra. reflexivity.
Qed.

(** The hex string of an in-gamut opaque colour, from the 8-bit windows of
    its encoded channels. *)
Lemma oklchToHex_opaque (lch : OKLCH) (nr ng nb : Z) :
  let rgb := oklchToSrgbEncoded lch in
  0 <= r rgb <= 1 -> 0 <= g rgb <= 1 -> 0 <= b rgb <= 1 ->
  IZR nr - / 2 <= r rgb * 255 < IZR nr + / 2 ->
  IZR ng - / 2 <= g rgb * 255 < IZR ng + / 2 ->
  IZR nb - / 2 <= b rgb * 255 < IZR nb + / 2 ->
  oklchToHex lch 1
  = ("#" ++ toHexUpper nr ++ toHexUpper ng ++ toHexUpper nb)%string.
Proof.
  intros rgb Hr Hg Hb Wr Wg Wb. unfold oklchToHex.
  rewrite clamp_in_gamut by (apply isInGamut_intro; assumption).
  fold rgb. rewrite !clamp01_id by assumption.
  rewrite (Math_round_eq _ nr Wr), (Math_round_eq _ ng Wg), (Math_round_eq _ nb Wb).
  destruct (Rle_dec 0.999 1); [reflexivity | lra].
Qed.

Lemma lab8_polar : oklchToOklab (oklabToOklch lab8) = lab8.
Proof.
  destruct lab8_bounds as (HL & Ha & Hb).
  apply polar_roundtrip; [lra|].
  apply Rlt_le_trans with (lab_a lab8); [unfold EPS; lra|].
  rewrite <- (sqrt_square (lab_a lab8)) at 1 by lra.
  apply sqrt_le_1_alt. nra.
Qed.

Lemma gray8_encoded :
  let rgb := oklchToSrgbEncoded (srgbEncodedToOklch gray8) in
  0.0378 <= r rgb <= 0.0379 /\
  0.0297 <= g rgb <= 0.0298 /\
  0.0285 <= b rgb <= 0.0286.
Proof.
  change (srgbEncodedToOklch gray8) with (oklabToOklch lab8). cbv zeta.
  rewrite encoded_r, encoded_g, encoded_b, lab8_polar.
  destruct lab8_bounds as (HL & Ha & Hb).
  destruct (lin8_bounds lab8 HL Ha Hb) as (Hr & Hg & Hbb).
  rewrite !linearToSrgb_linear by lra. lra.
Qed.

(** ** C2 *)

(** C2, at the failing input.  The sRGB colour (8, 8, 8), converted with
    [srgbEncodedToOklch] and encoded back with [oklchToHex] at alpha 1, comes
    out as [#0A0807]: red 10, two steps from 8.  [linearSrgbToXyz] holds the
    linear-sRGB-to-LMS matrix, which [xyzToLinearSrgb] does not invert. *)
Theorem roundtrip_gray8 :
  oklchToHex (srgbEncodedToOklch gray8) 1 = "#0A0807"%string.
Proof.
  destruct gray8_encoded as (Hr & Hg & Hb).
  rewrite (oklchToHex_opaque _ 10 8 7); [reflexivity | lra ..].
Qed.


(** * Anti-banding resample *)

Lemma stepLoop_eq start end_ range lin1 lin2 n : forall k rng,
  stepLoop start end_ range lin1 lin2 n k rng
  = (map (fun j => insertedStop start end_ range lin1 lin2 (k + Z.of_nat j)
                     (draws rng (next rng + j)%nat)) (seq 0 n),
     advance rng n).
Proof.
  induction n as [|n IH]; intros k rng.
  - simpl. unfold advance. rewrite Nat.add_0_r. destruct rng; reflexivity.
  - cbn [stepLoop generateId]. rewrite IH. cbn [seq map draws next].
    rewrite <- seq_shift, map_map. f_equal.
    + f_equal.
      * unfold insertedStop. rewrite Z.add_0_r, Nat.add_0_r. reflexivity.
      * apply map_ext. intros j. f_equal; [lia | f_equal; lia].
    + unfold advance; cbn [draws next]. f_equal. lia.
Qed.


Lemma INR_steps : INR steps = 8.
Proof. unfold steps. simpl. lra. Qed.












(** * Hex interpolation *)

Lemma string_length_app (s1 s2 : string) :
  String.length (s1 ++ s2) = (String.length s1 + String.length s2)%nat.
Proof. induction s1 as [|c s1 IH]; simpl; [reflexivity | rewrite IH; reflexivity]. Qed.

Lemma hexDigit_range (c : ascii) (d : Z) :
  JS.hexDigit c = Some d -> (0 <= d <= 15)%Z.
Proof.
  unfold JS.hexDigit.
  repeat match goal with
         | |- context [if ?t then _ else _] => destruct t eqn:?
         end; intros Heq; inversion Heq; subst; clear Heq;
    repeat match goal with
           | H : (_ && _)%bool = true |- _ => apply andb_prop in H; destruct H
           | H : (_ <=? _)%Z = true |- _ => apply Z.leb_le in H
           end; lia.
Qed.

Lemma hexDigit_not_hash (c : ascii) (d : Z) :
  JS.hexDigit c = Some d -> Ascii.eqb c "#" = false.
Proof.
  intros Hd. destruct (Ascii.eqb c "#") eqn:Heq; [|reflexivity].
  apply Ascii.eqb_eq in Heq. subst c. discriminate Hd.
Qed.

Lemma replaceHash_hexDigits (h : string) :
  hexDigits h = true -> JS.replaceHash h = h.
Proof.
  induction h as [|c h IH]; cbn [hexDigits JS.replaceHash]; [reflexivity|].
  destruct (JS.hexDigit c) eqn:Hc; [|discriminate].
  intros Hh. rewrite (hexDigit_not_hash c z Hc), IH by assumption. reflexivity.
Qed.


Lemma string_app_assoc (s1 s2 s3 : string) :
  ((s1 ++ s2) ++ s3 = s1 ++ (s2 ++ s3))%string.
Proof. induction s1 as [|c s1 IH]; simpl; [reflexivity | rewrite IH; reflexivity]. Qed.

Lemma parseHex_black :
  parseHex "#000000"
  = {| p_r := Some 0%Z; p_g := Some 0%Z; p_b := Some 0%Z; p_a := Some 1 |}.
Proof. reflexivity. Qed.

Lemma parseHex_white :
  parseHex "#FFFFFF"
  = {| p_r := Some 255%Z; p_g := Some 255%Z; p_b := Some 255%Z; p_a := Some 1 |}.
Proof. reflexivity. Qed.

Lemma interpolate_black_white :
  interpolateColor "#000000" "#FFFFFF" 0.5 = "#808080"%string.
Proof.
  unfold interpolateColor. rewrite parseHex_black, parseHex_white.
  cbn [p_r p_g p_b p_a izr blend option_map].
  rewrite (Math_round_eq (0 + (255 - 0) * 0.5) 128) by lra.
  rewrite Rleb_true by lra. reflexivity.
Qed.

(** The string [interpolateColor] builds from parsed channels. *)
Lemma interpolateColor_parsed (c1 c2 : string) (factor : R)
    (r1 g1 b1 r2 g2 b2 : Z) (a1 a2 : R) :
  parseHex c1 = {| p_r := Some r1; p_g := Some g1; p_b := Some b1; p_a := Some a1 |} ->
  parseHex c2 = {| p_r := Some r2; p_g := Some g2; p_b := Some b2; p_a := Some a2 |} ->
  let mix (u v : Z) := JS.Math_round (IZR u + (IZR v - IZR u) * factor) in
  let a := a1 + (a2 - a1) * factor in
  let rgbHex := ("#" ++ toHex (Some (mix r1 r2)) ++ toHex (Some (mix g1 g2))
                     ++ toHex (Some (mix b1 b2)))%string in
  interpolateColor c1 c2 factor
  = (if Rle_dec 0.999 a then rgbHex
     else rgbHex ++ toHex (Some (JS.Math_round (a * 255))))%string.
Proof.
  intros H1 H2 mix a rgbHex. unfold interpolateColor. rewrite H1, H2.
  cbn [p_r p_g p_b p_a izr blend option_map]. fold a.
  unfold JS.Rleb. destruct (Rle_dec 0.999 a).
  - reflexivity.
  - unfold rgbHex, mix.
    cbn [append]. rewrite !string_app_assoc. reflexivity.
Qed.

(** ** C8 *)

Lemma digitValues_hexDigits (h : string) (ds : list Z) :
  digitValues h = Some ds -> hexDigits h = true.
Proof.
  revert ds. induction h as [|c h IH]; intros ds; cbn [digitValues hexDigits];
    [reflexivity|].
  destruct (JS.hexDigit c); [|discriminate].
  destruct (digitValues h) as [ds'|]; [|discriminate].
  intros _. apply (IH ds'). reflexivity.
Qed.

Lemma digitValues_length (h : string) (ds : list Z) :
  digitValues h = Some ds -> String.length h = List.length ds.
Proof.
  revert ds. induction h as [|c h IH]; intros ds; cbn [digitValues].
  - intros Heq. inversion Heq. reflexivity.
  - destruct (JS.hexDigit c); [|discriminate].
    destruct (digitValues h) as [ds'|]; [|discriminate].
    intros Heq. inversion Heq. cbn [String.length List.length].
    rewrite (IH ds') by reflexivity. reflexivity.
Qed.

Lemma replaceHash_writes (c h : string) :
  writes c h -> hexDigits h = true -> JS.replaceHash c = h.
Proof.
  intros [-> | ->] Hh.
  - apply replaceHash_hexDigits. exact Hh.
  - reflexivity.
Qed.

(** [parseHex] reads the channels the digits denote. *)
Lemma parseHex_channels (c h : string) (ds : list Z) (r g b : Z) (a : R) :
  writes c h -> digitValues h = Some ds -> channels ds = Some (r, g, b, a) ->
  parseHex c = {| p_r := Some r; p_g := Some g; p_b := Some b; p_a := Some a |}.
Proof.
  intros Hw Hd Hc.
  pose proof (digitValues_hexDigits h ds Hd) as Hh.
  pose proof (digitValues_length h ds Hd) as Hlen.
  unfold parseHex. rewrite (replaceHash_writes c h Hw Hh). clear Hw Hh c.
  destruct ds as [|d1 [|d2 [|d3 [|d4 [|d5 [|d6 [|d7 [|d8 [|d9 ds]]]]]]]]];
    try discriminate Hc.
  - (* three digits *)
    destruct h as [|c1 [|c2 [|c3 [|? ?]]]]; try discriminate Hlen.
    cbn [digitValues] in Hd.
    destruct (JS.hexDigit c1) as [e1|] eqn:H1; [|discriminate Hd].
    destruct (JS.hexDigit c2) as [e2|] eqn:H2; [|discriminate Hd].
    destruct (JS.hexDigit c3) as [e3|] eqn:H3; [|discriminate Hd].
    inversion Hd; subst. cbn [channels] in Hc. inversion Hc; subst.
    cbn [String.length Nat.eqb JS.charAt String.substring append].
    unfold JS.parseInt16. rewrite H1, H2, H3. cbn [JS.parseHexDigits].
    rewrite H1, H2, H3.
    replace (16 * (16 * 0 + d1) + d1)%Z with (17 * d1)%Z by lia.
    replace (16 * (16 * 0 + d2) + d2)%Z with (17 * d2)%Z by lia.
    replace (16 * (16 * 0 + d3) + d3)%Z with (17 * d3)%Z by lia.
    reflexivity.
  - (* six digits *)
    destruct h as [|c1 [|c2 [|c3 [|c4 [|c5 [|c6 [|? ?]]]]]]]; try discriminate Hlen.
    cbn [digitValues] in Hd.
    destruct (JS.hexDigit c1) as [e1|] eqn:H1; [|discriminate Hd].
    destruct (JS.hexDigit c2) as [e2|] eqn:H2; [|discriminate Hd].
    destruct (JS.hexDigit c3) as [e3|] eqn:H3; [|discriminate Hd].
    destruct (JS.hexDigit c4) as [e4|] eqn:H4; [|discriminate Hd].
    destruct (JS.hexDigit c5) as [e5|] eqn:H5; [|discriminate Hd].
    destruct (JS.hexDigit c6) as [e6|] eqn:H6; [|discriminate Hd].
    inversion Hd; subst. cbn [channels] in Hc. inversion Hc; subst.
    cbn [String.length Nat.eqb JS.substring String.substring Nat.sub].
    unfold JS.parseInt16. rewrite H1, H3, H5. cbn [JS.parseHexDigits].
    rewrite H1, H2, H3, H4, H5, H6.
    replace (16 * (16 * 0 + d1) + d2)%Z with (16 * d1 + d2)%Z by lia.
    replace (16 * (16 * 0 + d3) + d4)%Z with (16 * d3 + d4)%Z by lia.
    replace (16 * (16 * 0 + d5) + d6)%Z with (16 * d5 + d6)%Z by lia.
    reflexivity.
  - (* eight digits *)
    destruct h as [|c1 [|c2 [|c3 [|c4 [|c5 [|c6 [|c7 [|c8 [|? ?]]]]]]]]];
      try discriminate Hlen.
    cbn [digitValues] in Hd.
    destruct (JS.hexDigit c1) as [e1|] eqn:H1; [|discriminate Hd].
    destruct (JS.hexDigit c2) as [e2|] eqn:H2; [|discriminate Hd].
    destruct (JS.hexDigit c3) as [e3|] eqn:H3; [|discriminate Hd].
    destruct (JS.hexDigit c4) as [e4|] eqn:H4; [|discriminate Hd].
    destruct (JS.hexDigit c5) as [e5|] eqn:H5; [|discriminate Hd].
    destruct (JS.hexDigit c6) as [e6|] eqn:H6; [|discriminate Hd].
    destruct (JS.hexDigit c7) as [e7|] eqn:H7; [|discriminate Hd].
    destruct (JS.hexDigit c8) as [e8|] eqn:H8; [|discriminate Hd].
    inversion Hd; subst. cbn [channels] in Hc. inversion Hc; subst.
    cbn [String.length Nat.eqb JS.substring String.substring Nat.sub].
    unfold JS.parseInt16. rewrite H1, H3, H5, H7. cbn [JS.parseHexDigits option_map].
    rewrite H1, H2, H3, H4, H5, H6, H7, H8.
    replace (16 * (16 * 0 + d1) + d2)%Z with (16 * d1 + d2)%Z by lia.
    replace (16 * (16 * 0 + d3) + d4)%Z with (16 * d3 + d4)%Z by lia.
    replace (16 * (16 * 0 + d5) + d6)%Z with (16 * d5 + d6)%Z by lia.
    replace (16 * (16 * 0 + d7) + d8)%Z with (16 * d7 + d8)%Z by lia.
    reflexivity.
Qed.

(** [toHex] prints the two lower-case digits of the clamped byte. *)
Lemma toHex_hexPair (n : Z) : toHex (Some n) = hexPair n.
Proof.
  unfold toHex, hexPair. cbv zeta.
  set (m := Z.min 255 (Z.max 0 n)).
  assert (Hm : (0 <= m <= 255)%Z) by (unfold m; lia).
  assert (Hall : forallb (fun k =>
            String.eqb (JS.padStart2 (JS.toString16 (Z.of_nat k)))
              (String (hexChar (Z.of_nat k / 16))
                 (String (hexChar (Z.of_nat k mod 16)) EmptyString)))
            (seq 0 256) = true) by (vm_compute; reflexivity).
  rewrite forallb_forall in Hall.
  specialize (Hall (Z.to_nat m)).
  rewrite Z2Nat.id in Hall by lia.
  apply String.eqb_eq, Hall, in_seq. lia.
Qed.

Lemma hexPair_length (n : Z) : String.length (hexPair n) = 2%nat.
Proof. reflexivity. Qed.

(** The result of [interpolateColor] on two colours from the channels their
    digits denote. *)
Lemma interpolateColor_channels (c1 c2 h1 h2 : string) (ds1 ds2 : list Z)
    (r1 g1 b1 r2 g2 b2 : Z) (a1 a2 factor : R) :
  writes c1 h1 -> writes c2 h2 ->
  digitValues h1 = Some ds1 -> digitValues h2 = Some ds2 ->
  channels ds1 = Some (r1, g1, b1, a1) ->
  channels ds2 = Some (r2, g2, b2, a2) ->
  let mix (u v : Z) := JS.Math_round (IZR u + (IZR v - IZR u) * factor) in
  let a := a1 + (a2 - a1) * factor in
  let rgbHex := ("#" ++ hexPair (mix r1 r2) ++ hexPair (mix g1 g2)
                     ++ hexPair (mix b1 b2))%string in
  interpolateColor c1 c2 factor
  = (if Rle_dec 0.999 a then rgbHex
     else rgbHex ++ hexPair (JS.Math_round (a * 255)))%string.
Proof.
  intros Hw1 Hw2 Hd1 Hd2 Hc1 Hc2 mix a rgbHex.
  pose proof (parseHex_channels c1 h1 ds1 r1 g1 b1 a1 Hw1 Hd1 Hc1) as Hp1.
  pose proof (parseHex_channels c2 h2 ds2 r2 g2 b2 a2 Hw2 Hd2 Hc2) as Hp2.
  rewrite (interpolateColor_parsed c1 c2 factor _ _ _ _ _ _ _ _ Hp1 Hp2).
  cbv zeta. rewrite !toHex_hexPair. reflexivity.
Qed.

Lemma interpolate_short_form :
  interpolateColor "#f00" "#00f" 0.25 = "#bf0040"%string.
Proof.
  rewrite (interpolateColor_channels "#f00" "#00f" "f00" "00f"
             [15; 0; 0]%Z [0; 0; 15]%Z 255%Z 0%Z 0%Z 0%Z 0%Z 255%Z 1 1 0.25
             (or_intror eq_refl) (or_intror eq_refl) eq_refl eq_refl
             eq_refl eq_refl).
  cbv zeta. destruct (Rle_dec 0.999 (1 + (1 - 1) * 0.25)); [|lra].
  rewrite (Math_round_eq (255 + (0 - 255) * 0.25) 191) by lra.
  rewrite (Math_round_eq (0 + (0 - 0) * 0.25) 0) by lra.
  rewrite (Math_round_eq (0 + (255 - 0) * 0.25) 64) by lra.
  reflexivity.
Qed.

Lemma interpolate_alpha_pair :
  interpolateColor "#ff0000ff" "#0000ff80" 0.5 = "#800080c0"%string.
Proof.
  rewrite (interpolateColor_channels "#ff0000ff" "#0000ff80" "ff0000ff" "0000ff80"
             [15; 15; 0; 0; 0; 0; 15; 15]%Z [0; 0; 0; 0; 15; 15; 8; 0]%Z
             255%Z 0%Z 0%Z 0%Z 0%Z 255%Z (255 / 255) (128 / 255) 0.5
             (or_intror eq_refl) (or_intror eq_refl) eq_refl eq_refl
             eq_refl eq_refl).
  cbv zeta.
  destruct (Rle_dec 0.999 (255 / 255 + (128 / 255 - 255 / 255) * 0.5)); [lra|].
  rewrite (Math_round_eq (255 + (0 - 255) * 0.5) 128) by lra.
  rewrite (Math_round_eq (0 + (0 - 0) * 0.5) 0) by lra.
  rewrite (Math_round_eq (0 + (255 - 0) * 0.5) 128) by lra.
  rewrite (Math_round_eq ((255 / 255 + (128 / 255 - 255 / 255) * 0.5) * 255) 192)
    by lra.
  reflexivity.
Qed.

(** C8.  [interpolateColor('#000000', '#FFFFFF', 0.5)] is ['#808080'].  A
    colour of 3, 6 or 8 hex digits, with or without the leading ['#'], is
    read as the channels its digits denote: a digit of the 3-digit form
    counts twice, the fourth pair of the 8-digit form is the alpha byte, and
    without it alpha is 1.  Red, green and blue are blended and rounded
    channel by channel and printed as lower-case digit pairs; the result is
    the 7-character [#rrggbb] when the blended alpha is at least 0.999 and
    the 9-character [#rrggbbaa], with the rounded alpha byte, otherwise.
    So [interpolateColor('#f00', '#00f', 0.25)] is ['#bf0040'] and
    [interpolateColor('#ff0000ff', '#0000ff80', 0.5)] is ['#800080c0']. *)
Theorem interpolateColor_spec :
  interpolateColor "#000000" "#FFFFFF" 0.5 = "#808080"%string
  /\ interpolateColor "#f00" "#00f" 0.25 = "#bf0040"%string
  /\ interpolateColor "#ff0000ff" "#0000ff80" 0.5 = "#800080c0"%string
  /\ forall (c1 c2 h1 h2 : string) (ds1 ds2 : list Z)
            (r1 g1 b1 r2 g2 b2 : Z) (a1 a2 factor : R),
      writes c1 h1 -> writes c2 h2 ->
      digitValues h1 = Some ds1 -> digitValues h2 = Some ds2 ->
      channels ds1 = Some (r1, g1, b1, a1) ->
      channels ds2 = Some (r2, g2, b2, a2) ->
      let mix (u v : Z) := JS.Math_round (IZR u + (IZR v - IZR u) * factor) in
      let a := a1 + (a2 - a1) * factor in
      let rgbHex := ("#" ++ hexPair (mix r1 r2) ++ hexPair (mix g1 g2)
                         ++ hexPair (mix b1 b2))%string in
      let out := interpolateColor c1 c2 factor in
      (0.999 <= a -> out = rgbHex /\ String.length out = 7%nat)
      /\ (a < 0.999 ->
            out = (rgbHex ++ hexPair (JS.Math_round (a * 255)))%string
            /\ String.length out = 9%nat).
Proof.
  split; [exact interpolate_black_white|].
  split; [exact interpolate_short_form|].
  split; [exact interpolate_alpha_pair|].
  intros c1 c2 h1 h2 ds1 ds2 r1 g1 b1 r2 g2 b2 a1 a2 factor
         Hw1 Hw2 Hd1 Hd2 Hc1 Hc2 mix a rgbHex out.
  pose proof (interpolateColor_channels c1 c2 h1 h2 ds1 ds2 r1 g1 b1 r2 g2 b2
                a1 a2 factor Hw1 Hw2 Hd1 Hd2 Hc1 Hc2) as Hout.
  cbv zeta in Hout. fold mix a rgbHex out in Hout.
  assert (Hlen : String.length rgbHex = 7%nat) by reflexivity.
  split; intros Ha.
  - destruct (Rle_dec 0.999 a); [|contradiction].
    rewrite Hout. split; [reflexivity | exact Hlen].
  - destruct (Rle_dec 0.999 a); [lra|]. rewrite Hout. split; [reflexivity|].
    rewrite string_length_app, Hlen. reflexivity.
Qed.


(** * The stable sort by offset *)

Lemma insert_perm (a : GradientStop) (l : list GradientStop) :
  Permutation (JS.insert byOffset a l) (a :: l).
Proof.
  induction l as [|b l IH]; cbn [JS.insert]; [reflexivity|].
  destruct (byOffset a b); [reflexivity|].
  rewrite IH. apply perm_swap.
Qed.

Lemma sort_perm (l : list GradientStop) : Permutation (JS.sort byOffset l) l.
Proof.
  induction l as [|a l IH]; cbn [JS.sort]; [reflexivity|].
  rewrite insert_perm. apply perm_skip, IH.
Qed.

Lemma insert_hd (a b : GradientStop) (l : list GradientStop) :
  offsetLe b a -> HdRel offsetLe b l -> HdRel offsetLe b (JS.insert byOffset a l).
Proof.
  intros Hba Hl. destruct l as [|c l]; cbn [JS.insert].
  - constructor; assumption.
  - destruct (byOffset a c); constructor; [assumption|].
    inversion Hl; assumption.
Qed.

Lemma insert_sorted (a : GradientStop) (l : list GradientStop) :
  Sorted offsetLe l -> Sorted offsetLe (JS.insert byOffset a l).
Proof.
  induction l as [|b l IH]; intros Hs; cbn [JS.insert].
  - repeat constructor.
  - inversion Hs as [|? ? Hs' Hhd]; subst.
    unfold byOffset at 1, JS.Rleb. destruct (Rle_dec (offset a) (offset b)) as [Hle|Hgt].
    + constructor; [assumption | constructor; exact Hle].
    + constructor; [apply IH; assumption|].
      apply insert_hd; [unfold offsetLe; lra | assumption].
Qed.

Lemma sort_sorted (l : list GradientStop) : Sorted offsetLe (JS.sort byOffset l).
Proof.
  induction l as [|a l IH]; cbn [JS.sort]; [constructor|].
  apply insert_sorted, IH.
Qed.

Lemma insert_stable (v : R) (a : GradientStop) (l : list GradientStop) :
  filter (atOffset v) (JS.insert byOffset a l) = filter (atOffset v) (a :: l).
Proof.
  induction l as [|b l IH]; [reflexivity|]. cbn [JS.insert].
  unfold byOffset at 1, JS.Rleb. destruct (Rle_dec (offset a) (offset b)) as [Hle|Hgt];
    [reflexivity|].
  cbn [filter] in *. rewrite IH.
  unfold atOffset, JS.Reqb.
  destruct (Req_dec_T (offset b) v), (Req_dec_T (offset a) v); try reflexivity.
  exfalso. lra.
Qed.

Lemma sort_stable (v : R) (l : list GradientStop) :
  filter (atOffset v) (JS.sort byOffset l) = filter (atOffset v) l.
Proof.
  induction l as [|a l IH]; [reflexivity|]. cbn [JS.sort].
  rewrite insert_stable. cbn [filter]. rewrite IH. reflexivity.
Qed.

Lemma sort_sorted_id (l : list GradientStop) :
  Sorted offsetLe l -> JS.sort byOffset l = l.
Proof.
  induction l as [|a l IH]; intros Hs; [reflexivity|]. cbn [JS.sort].
  inversion Hs as [|? ? Hs' Hhd]; subst. rewrite IH by assumption.
  destruct l as [|b l]; [reflexivity|]. cbn [JS.insert].
  inversion Hhd; subst. unfold byOffset. rewrite Rleb_true by assumption. reflexivity.
Qed.

(** * The layer table *)

Lemma lookup_assign (k : string) (v : Layer) (m : Layers) :
  lookup k (assign k v m) = Some v.
Proof.
  induction m as [|[k' v'] m IH]; cbn [assign lookup].
  - rewrite String.eqb_refl. reflexivity.
  - destruct (String.eqb k k') eqn:Hk; cbn [lookup]; rewrite ?String.eqb_refl, ?Hk;
      [reflexivity | exact IH].
Qed.

Lemma lookup_assign_other (k k' : string) (v : Layer) (m : Layers) :
  k' <> k -> lookup k' (assign k v m) = lookup k' m.
Proof.
  intros Hne. induction m as [|[k0 v0] m IH]; cbn [assign lookup].
  - destruct (String.eqb k' k) eqn:Hk; [apply String.eqb_eq in Hk; contradiction | reflexivity].
  - destruct (String.eqb k k0) eqn:Hk0; cbn [lookup].
    + apply String.eqb_eq in Hk0. subst k0.
      destruct (String.eqb k' k) eqn:Hk; [apply String.eqb_eq in Hk; contradiction | reflexivity].
    + destruct (String.eqb k' k0); [reflexivity | exact IH].
Qed.

Lemma assign_keys (k : string) (v : Layer) (m : Layers) :
  lookup k m <> None -> map fst (assign k v m) = map fst m.
Proof.
  induction m as [|[k0 v0] m IH]; cbn [assign lookup map fst]; [congruence|].
  destruct (String.eqb k k0) eqn:Hk; intros Hin; cbn [map fst].
  - apply String.eqb_eq in Hk. subst. reflexivity.
  - rewrite IH by assumption. reflexivity.
Qed.

(** * removeGradientStop *)

Lemma filter_absent (stopId : string) (l : list GradientStop) :
  ~ In stopId (map id l) -> filter (keepOthers stopId) l = l.
Proof.
  induction l as [|a l IH]; intros Hnin; [reflexivity|]. cbn [filter].
  unfold keepOthers at 1. destruct (String.eqb (id a) stopId) eqn:Ha.
  - apply String.eqb_eq in Ha. exfalso. apply Hnin. left. exact Ha.
  - cbn [negb]. rewrite IH; [reflexivity|]. intros Hin. apply Hnin. right. exact Hin.
Qed.

Lemma filter_unique_length (stopId : string) (l : list GradientStop) :
  NoDup (map id l) ->
  (List.length l <= S (List.length (filter (keepOthers stopId) l)))%nat.
Proof.
  induction l as [|a l IH]; intros Hnd; [cbn; lia|].
  cbn [map] in Hnd. inversion Hnd as [|? ? Hnin Hnd']; subst. cbn [filter].
  unfold keepOthers at 1. destruct (String.eqb (id a) stopId) eqn:Ha; cbn [negb List.length].
  - apply String.eqb_eq in Ha. subst stopId. rewrite filter_absent by assumption. lia.
  - specialize (IH Hnd'). lia.
Qed.

Lemma saveSnapshot_layers (st : EditorState) : layers (saveSnapshot st) = layers st.
Proof. reflexivity. Qed.

Lemma removeGradientStop_floor (layerId stopId : string) (st : EditorState) :
  removeGradientStop layerId stopId st =
  match lookup layerId (layers st) with
  | Some layer =>
      match fill layer with
      | GradientFill g =>
          if (List.length (stops g) <=? 2)%nat then saveSnapshot st
          else setLayers (saveSnapshot st)
                 (assign layerId
                    (setFill layer
                       (GradientFill (setStops g (filter (keepOthers stopId) (stops g)))))
                    (layers st))
      | Solid _ => saveSnapshot st
      end
  | None => saveSnapshot st
  end.
Proof. unfold removeGradientStop. rewrite saveSnapshot_layers. reflexivity. Qed.


Lemma setFill_same (layer : Layer) (f : Fill) :
  fill layer = f -> setFill layer f = layer.
Proof. intros <-. destruct layer; reflexivity. Qed.

Lemma setStops_same (g : Gradient) : setStops g (stops g) = g.
Proof. destruct g; reflexivity. Qed.

(** ** C3 *)

(** C3, as the code has it.  For a layer whose gradient holds at least two
    stops with pairwise distinct ids, [removeGradientStop] leaves at least
    two stops.  With exactly two stops nothing is removed and no exception is
    raised: layers, layer order, viewport, selection and interaction mode are
    unchanged, so the caller sees the same stop list; the undo history still
    records a snapshot (the current layers appended to [past], cut to the last
    50, and [future] emptied). *)
Theorem removeGradientStop_keeps_two :
  forall (layerId stopId : string) (st : EditorState) (layer : Layer)
         (g : Gradient),
    lookup layerId (layers st) = Some layer ->
    fill layer = GradientFill g ->
    NoDup (map id (stops g)) ->
    (2 <= List.length (stops g))%nat ->
    let st' := removeGradientStop layerId stopId st in
    (2 <= List.length (stopsOf layerId st'))%nat
    /\ (List.length (stops g) = 2%nat ->
        layers st' = layers st
        /\ stopsOf layerId st' = stops g
        /\ layerOrder st' = layerOrder st
        /\ viewport st' = viewport st
        /\ selectedIds st' = selectedIds st
        /\ interactionMode st' = interactionMode st
        /\ history st'
           = {| past := sliceLast MAX_HISTORY
                          (past (history st)
                             ++ [ {| snap_layers := layers st;
                                     snap_layerOrder := layerOrder st |} ]);
                future := [] |}).
Proof.
  intros layerId stopId st layer g Hl Hf Hnd Hlen st'.
  unfold st'. rewrite removeGradientStop_floor, Hl, Hf.
  destruct (List.length (stops g) <=? 2)%nat eqn:Hle.
  - split.
    + unfold stopsOf. rewrite saveSnapshot_layers, Hl, Hf. exact Hlen.
    + intros _. unfold stopsOf. rewrite saveSnapshot_layers, Hl, Hf.
      repeat split; reflexivity.
  - apply Nat.leb_gt in Hle. split.
    + unfold stopsOf. cbn [layers setLayers]. rewrite lookup_assign.
      cbn [fill setFill stops setStops].
      pose proof (filter_unique_length stopId (stops g) Hnd). lia.
    + intros H2. lia.
Qed.

Lemma removeGradientStop_keeps_two_witness :
  (2 <= List.length (stopsOf "board" (removeGradientStop "board" "a"
                                        (stateOf (gradientOf [stopA; stopB])))))%nat.
Proof.
  apply (removeGradientStop_keeps_two "board" "a"
           (stateOf (gradientOf [stopA; stopB]))
           (boardOf (gradientOf [stopA; stopB])) (gradientOf [stopA; stopB])).
  - reflexivity.
  - reflexivity.
  - repeat constructor; simpl; intuition discriminate.
  - simpl. lia.
Defined.

(** The rejected removal is not a no-op on the whole state: the history
    grows by a snapshot. *)
Lemma removeGradientStop_records_snapshot :
  List.length (stops (gradientOf [stopA; stopB])) = 2%nat
  /\ removeGradientStop "board" "a" (stateOf (gradientOf [stopA; stopB]))
     <> stateOf (gradientOf [stopA; stopB]).
Proof.
  split; [reflexivity|]. intros Heq.
  apply (f_equal (fun s => List.length (past (history s)))) in Heq.
  discriminate Heq.
Qed.

(** Without distinct ids the floor of two stops is not kept. *)
Lemma removeGradientStop_duplicate_ids :
  stopsOf "board"
    (removeGradientStop "board" "a" (stateOf (gradientOf [stopA; stopA; stopB])))
  = [stopB].
Proof. reflexivity. Qed.


(** * updateGradientStop *)

Lemma updateGradientStop_eq (layerId stopId : string) (updates : StopPatch)
    (st : EditorState) (layer : Layer) (g : Gradient) :
  lookup layerId (layers st) = Some layer ->
  fill layer = GradientFill g ->
  updateGradientStop layerId stopId updates st
  = setLayers st
      (assign layerId
         (setFill layer
            (GradientFill
               (setStops g (JS.sort byOffset (map (mergeInto stopId updates) (stops g))))))
         (layers st)).
Proof. intros Hl Hf. unfold updateGradientStop. rewrite Hl, Hf. reflexivity. Qed.

Lemma stopsOf_updateGradientStop (layerId stopId : string) (updates : StopPatch)
    (st : EditorState) (layer : Layer) (g : Gradient) :
  lookup layerId (layers st) = Some layer ->
  fill layer = GradientFill g ->
  stopsOf layerId (updateGradientStop layerId stopId updates st)
  = JS.sort byOffset (map (mergeInto stopId updates) (stops g)).
Proof.
  intros Hl Hf. rewrite (updateGradientStop_eq _ _ _ _ _ _ Hl Hf).
  unfold stopsOf. cbn [layers setLayers]. rewrite lookup_assign. reflexivity.
Qed.

Lemma mergeInto_ids (stopId : string) (updates : StopPatch) (l : list GradientStop) :
  s_id updates = None -> map id (map (mergeInto stopId updates) l) = map id l.
Proof.
  intros Hid. rewrite map_map. apply map_ext. intros s. unfold mergeInto.
  destruct (String.eqb (id s) stopId); [|reflexivity].
  unfold mergeStop. cbn [id]. rewrite Hid. reflexivity.
Qed.

Lemma update_ids (layerId stopId : string) (updates : StopPatch)
    (st : EditorState) (layer : Layer) (g : Gradient) :
  lookup layerId (layers st) = Some layer ->
  fill layer = GradientFill g ->
  s_id updates = None ->
  Permutation (map id (stopsOf layerId (updateGradientStop layerId stopId updates st)))
              (map id (stops g)).
Proof.
  intros Hl Hf Hid. rewrite (stopsOf_updateGradientStop _ _ _ _ _ _ Hl Hf).
  rewrite <- (mergeInto_ids stopId updates (stops g) Hid).
  apply Permutation_map, sort_perm.
Qed.

Lemma update_gradient_layer (layerId stopId : string) (updates : StopPatch)
    (st : EditorState) (layer : Layer) (g : Gradient) :
  lookup layerId (layers st) = Some layer ->
  fill layer = GradientFill g ->
  exists layer' g',
    lookup layerId (layers (updateGradientStop layerId stopId updates st)) = Some layer'
    /\ fill layer' = GradientFill g'
    /\ stops g' = stopsOf layerId (updateGradientStop layerId stopId updates st).
Proof.
  intros Hl Hf. rewrite (stopsOf_updateGradientStop _ _ _ _ _ _ Hl Hf).
  rewrite (updateGradientStop_eq _ _ _ _ _ _ Hl Hf). cbn [layers setLayers].
  rewrite lookup_assign. eexists _, _. split; [reflexivity|]. split; reflexivity.
Qed.

Lemma offsetPatch_id (t : R) : s_id (Overlay.offsetPatch t) = None.
Proof. reflexivity. Qed.

Lemma applyOffsetEdits_ids (layerId : string) (edits : list (string * R)) :
  forall (st : EditorState) (layer : Layer) (g : Gradient),
    lookup layerId (layers st) = Some layer ->
    fill layer = GradientFill g ->
    Permutation (map id (stopsOf layerId (applyOffsetEdits layerId edits st)))
                (map id (stops g))
    /\ (edits <> [] ->
        Sorted offsetLe (stopsOf layerId (applyOffsetEdits layerId edits st))).
Proof.
  induction edits as [|[sid t] edits IH] using rev_ind; intros st layer g Hl Hf.
  - split; [|congruence]. unfold applyOffsetEdits, stopsOf. cbn [fold_left].
    rewrite Hl, Hf. reflexivity.
  - unfold applyOffsetEdits. rewrite fold_left_app. cbn [fold_left fst snd].
    fold (applyOffsetEdits layerId edits st).
    destruct (IH st layer g Hl Hf) as [Hperm _].
    assert (Hmid : exists layer' g',
               lookup layerId (layers (applyOffsetEdits layerId edits st)) = Some layer'
               /\ fill layer' = GradientFill g'
               /\ stops g' = stopsOf layerId (applyOffsetEdits layerId edits st)).
    { clear Hperm IH. revert st layer g Hl Hf.
      induction edits as [|[sid' t'] edits IH']; intros st layer g Hl Hf.
      - exists layer, g. unfold applyOffsetEdits, stopsOf. cbn [fold_left].
        rewrite Hl, Hf. repeat split; assumption.
      - unfold applyOffsetEdits. cbn [fold_left fst snd].
        destruct (update_gradient_layer layerId sid' (Overlay.offsetPatch t') st layer g Hl Hf)
          as (layer1 & g1 & Hl1 & Hf1 & _).
        apply (IH' _ layer1 g1 Hl1 Hf1). }
    destruct Hmid as (layer' & g' & Hl' & Hf' & Hs').
    split.
    + rewrite (update_ids _ _ _ _ _ _ Hl' Hf' (offsetPatch_id t)).
      rewrite Hs'. exact Hperm.
    + intros _. rewrite (stopsOf_updateGradientStop _ _ _ _ _ _ Hl' Hf').
      apply sort_sorted.
Qed.

(** ** C6 *)

(** C6, as the code has it.  When the updates carry no [id] field,
    [updateGradientStop] leaves the layer's stops sorted ascending by offset
    with the ids of the input (as a permutation, so also as a set); the sort
    is stable, stops that share an offset keep their relative order; and any
    sequence of offset edits keeps the ids.  An update that sets [id]
    replaces the id of the matching stops. *)
Theorem updateGradientStop_sorted_ids :
  forall (layerId stopId : string) (updates : StopPatch) (st : EditorState)
         (layer : Layer) (g : Gradient),
    lookup layerId (layers st) = Some layer ->
    fill layer = GradientFill g ->
    s_id updates = None ->
    let out := stopsOf layerId (updateGradientStop layerId stopId updates st) in
    Sorted offsetLe out
    /\ Permutation (map id out) (map id (stops g))
    /\ (forall v, filter (atOffset v) out
                  = filter (atOffset v) (map (mergeInto stopId updates) (stops g)))
    /\ (forall edits : list (string * R),
          Permutation (map id (stopsOf layerId (applyOffsetEdits layerId edits st)))
                      (map id (stops g))).
Proof.
  intros layerId stopId updates st layer g Hl Hf Hid out.
  unfold out. split; [|split; [|split]].
  - rewrite (stopsOf_updateGradientStop _ _ _ _ _ _ Hl Hf). apply sort_sorted.
  - apply (update_ids _ _ _ _ _ _ Hl Hf Hid).
  - intros v. rewrite (stopsOf_updateGradientStop _ _ _ _ _ _ Hl Hf). apply sort_stable.
  - intros edits. apply (applyOffsetEdits_ids layerId edits st layer g Hl Hf).
Qed.

Lemma updateGradientStop_sorted_ids_witness :
  Permutation
    (map id (stopsOf "board"
               (updateGradientStop "board" "a" moveAPastB
                  (stateOf (gradientOf [stopA; stopB])))))
    ["a"; "b"]%string.
Proof.
  apply (updateGradientStop_sorted_ids "board" "a" moveAPastB
           (stateOf (gradientOf [stopA; stopB]))
           (boardOf (gradientOf [stopA; stopB])) (gradientOf [stopA; stopB]));
    reflexivity.
Defined.

(** An update that carries an [id] changes the set of ids. *)
Lemma updateGradientStop_renames :
  In "a"%string (map id (stopsOf "board" (stateOf (gradientOf [stopA; stopB]))))
  /\ ~ In "a"%string
       (map id (stopsOf "board"
                  (updateGradientStop "board" "a" renameA
                     (stateOf (gradientOf [stopA; stopB]))))).
Proof.
  split; [left; reflexivity|].
  rewrite (stopsOf_updateGradientStop "board" "a" renameA _
             (boardOf (gradientOf [stopA; stopB])) (gradientOf [stopA; stopB]))
    by reflexivity.
  intros Hin.
  apply (Permutation_in (l' := map id (map (mergeInto "a" renameA) [stopA; stopB]))) in Hin.
  - cbn in Hin. intuition discriminate.
  - apply Permutation_map, sort_perm.
Qed.


(** * Remainder and angles *)

Lemma Int_part_eq (a : R) (n : Z) : IZR n <= a < IZR n + 1 -> Int_part a = n.
Proof. intros [H1 H2]. symmetry. apply Int_part_spec. lra. Qed.

Lemma Int_part_bounds (a : R) : IZR (Int_part a) <= a < IZR (Int_part a) + 1.
Proof. destruct (base_Int_part a). lra. Qed.

(** A non-negative dividend has its remainder in [[0, m)]. *)
Lemma rem_nonneg (a m : R) : 0 <= a -> 0 < m -> 0 <= JS.rem a m < m.
Proof.
  intros Ha Hm. unfold JS.rem, JS.trunc.
  assert (Hq : 0 <= a / m) by (apply Rle_mult_inv_pos; assumption).
  destruct (Rle_dec 0 (a / m)); [|contradiction].
  pose proof (Int_part_bounds (a / m)) as [Hlo Hhi].
  assert (Heq : a = m * (a / m)) by (field; lra).
  split.
  - apply Rmult_le_compat_l with (r := m) in Hlo; lra.
  - apply Rmult_lt_compat_l with (r := m) in Hhi; lra.
Qed.

(** A negative dividend has its remainder in [(-m, 0]]. *)
Lemma rem_neg (a m : R) : a < 0 -> 0 < m -> - m < JS.rem a m <= 0.
Proof.
  intros Ha Hm. unfold JS.rem, JS.trunc.
  assert (Hq : a / m < 0).
  { assert (0 < / m) by (apply Rinv_0_lt_compat; assumption). unfold Rdiv. nra. }
  destruct (Rle_dec 0 (a / m)); [lra|].
  pose proof (Int_part_bounds (- (a / m))) as [Hlo Hhi].
  rewrite opp_IZR.
  assert (Heq : a = m * (a / m)) by (field; lra).
  split.
  - apply Rmult_lt_compat_l with (r := m) in Hhi; lra.
  - apply Rmult_le_compat_l with (r := m) in Hlo; lra.
Qed.

Lemma rem_eval (a m : R) (q : Z) :
  0 < m -> 0 <= a -> IZR q * m <= a < (IZR q + 1) * m -> JS.rem a m = a - m * IZR q.
Proof.
  intros Hm Ha [Hlo Hhi]. unfold JS.rem, JS.trunc.
  assert (Hq : 0 <= a / m) by (apply Rle_mult_inv_pos; assumption).
  destruct (Rle_dec 0 (a / m)); [|contradiction].
  rewrite (Int_part_eq (a / m) q); [reflexivity|].
  split.
  - apply Rmult_le_reg_r with m; [assumption|]. unfold Rdiv.
    rewrite Rmult_assoc, Rinv_l by lra. lra.
  - apply Rmult_lt_reg_r with m; [assumption|]. unfold Rdiv.
    rewrite Rmult_assoc, Rinv_l by lra. lra.
Qed.

Lemma rem_eval_neg (a m : R) (q : Z) :
  0 < m -> a < 0 -> IZR q * m <= - a < (IZR q + 1) * m ->
  JS.rem a m = a + m * IZR q.
Proof.
  intros Hm Ha [Hlo Hhi]. unfold JS.rem, JS.trunc.
  assert (Hq : a / m < 0).
  { assert (0 < / m) by (apply Rinv_0_lt_compat; assumption). unfold Rdiv. nra. }
  destruct (Rle_dec 0 (a / m)); [lra|].
  rewrite (Int_part_eq (- (a / m)) q).
  - rewrite opp_IZR. lra.
  - replace (- (a / m)) with ((- a) / m) by (field; lra). split.
    + apply Rmult_le_reg_r with m; [assumption|]. unfold Rdiv.
      rewrite Rmult_assoc, Rinv_l by lra. lra.
    + apply Rmult_lt_reg_r with m; [assumption|]. unfold Rdiv.
      rewrite Rmult_assoc, Rinv_l by lra. lra.
Qed.

Lemma atan2_range (v u : R) : - PI <= JS.Math_atan2 v u <= PI.
Proof.
  pose proof PI_RGT_0 as Hpi. unfold JS.Math_atan2.
  destruct (Rlt_dec 0 u) as [Hu|Hu].
  - pose proof (atan_bound (v / u)). lra.
  - destruct (Rlt_dec u 0) as [Hu'|Hu'].
    + assert (Hinv : / u < 0) by (apply Rinv_lt_0_compat; assumption).
      destruct (Rle_dec 0 v) as [Hv|Hv].
      * assert (v / u <= 0) by (unfold Rdiv; nra).
        assert (atan (v / u) <= 0).
        { rewrite <- atan_0. destruct (Req_dec (v / u) 0) as [->|Hne]; [lra|].
          left. apply atan_increasing. lra. }
        pose proof (atan_bound (v / u)). lra.
      * assert (0 < v / u) by (unfold Rdiv; nra).
        assert (0 < atan (v / u)) by (rewrite <- atan_0; apply atan_increasing; assumption).
        pose proof (atan_bound (v / u)). lra.
    + destruct (Rlt_dec 0 v); [lra|]. destruct (Rlt_dec v 0); lra.
Qed.

(** The first normalisation of the pointer angle lands in [[0, 360)]. *)
Lemma pointer_angle_range (v u : R) :
  0 <= JS.rem (JS.Math_atan2 v u * 180 / PI + 90 + 360) 360 < 360.
Proof.
  apply rem_nonneg; [|lra].
  pose proof PI_RGT_0 as Hpi. pose proof (atan2_range v u) as [Hlo Hhi].
  assert (-180 <= JS.Math_atan2 v u * 180 / PI).
  { apply Rmult_le_reg_r with PI; [assumption|]. unfold Rdiv.
    rewrite Rmult_assoc, Rinv_l by lra. lra. }
  lra.
Qed.

(** * getGradientT *)

Lemma clamp_unit (t : R) : 0 <= JS.Math_max 0 (JS.Math_min 1 t) <= 1.
Proof.
  unfold JS.Math_max, JS.Math_min. split; [apply Rmax_l|].
  apply Rmax_lub; [lra | apply Rmin_l].
Qed.

Lemma getGradientT_axis_range (mx my : R) (g : Gradient) (w h : R) :
  type g <> conic -> 0 <= getGradientT mx my g w h <= 1.
Proof.
  intros Hty. unfold getGradientT.
  destruct (type g); [| |contradiction].
  - destruct (start g), (end_ g);
      match goal with |- context [Req_dec_T ?l 0] => destruct (Req_dec_T l 0) end;
      try lra; apply clamp_unit.
  - destruct (radius g);
      match goal with |- context [Req_dec_T ?l 0] => destruct (Req_dec_T l 0) end;
      try lra; apply clamp_unit.
Qed.

Lemma getGradientT_conic_range (mx my : R) (g : Gradient) (w h : R) :
  type g = conic -> angle g <= 360 -> 0 <= getGradientT mx my g w h < 1.
Proof.
  intros Hty Hang. unfold getGradientT. rewrite Hty.
  destruct (radius g);
    match goal with
    | |- context [JS.rem (JS.Math_atan2 ?v ?u * 180 / PI + 90 + 360) 360] =>
        pose proof (pointer_angle_range v u) as Hp;
        set (deg := JS.rem (JS.Math_atan2 v u * 180 / PI + 90 + 360) 360) in *
    end;
    pose proof (rem_nonneg (deg - angle g + 360) 360 ltac:(lra) ltac:(lra)); lra.
Qed.

Lemma getGradientT_degenerate (mx my : R) (g : Gradient) (w h : R) (p : Vec2) :
  type g = linear -> start g = Some p -> end_ g = Some p ->
  getGradientT mx my g w h = 0.
Proof.
  intros Hty Hs He. unfold getGradientT. rewrite Hty, Hs, He.
  match goal with |- context [Req_dec_T ?l 0] => destruct (Req_dec_T l 0) as [|Hne] end;
    [reflexivity|]. exfalso. apply Hne. ring.
Qed.

Lemma atan2_east : JS.Math_atan2 0 1 = 0.
Proof.
  unfold JS.Math_atan2. destruct (Rlt_dec 0 1); [|lra].
  replace (0 / 1) with 0 by lra. apply atan_0.
Qed.


(** ** C4 *)

(** C4, at the failing input.  For the conic gradient of angle 720 centred
    on a 1200x800 layer and the pointer one pixel east of the centre,
    [getGradientT] and the overlay's [getProjectionT] return -0.75, outside
    [[0, 1)]: the remainder of the negative relative angle keeps its sign. *)
Theorem conic_t_negative :
  getGradientT 601 400 conic720 1200 800 = -0.75
  /\ Overlay.getProjectionT (boardOf conic720) conic720 601 400 = -0.75.
Proof.
  assert (Hdeg : JS.rem (JS.Math_atan2 0 1 * 180 / PI + 90 + 360) 360 = 90).
  { rewrite atan2_east. replace (0 * 180 / PI + 90 + 360) with 450 by lra.
    rewrite (rem_eval 450 360 1) by lra. lra. }
  assert (Hrel : JS.rem (90 - 720 + 360) 360 / 360 = -0.75).
  { rewrite (rem_eval_neg (90 - 720 + 360) 360 0) by lra. lra. }
  split.
  - unfold getGradientT. cbn [type conic720 radius center angle x y].
    replace (601 - 0.5 * 1200) with 1 by lra.
    replace (400 - 0.5 * 800) with 0 by lra.
    rewrite Hdeg. exact Hrel.
  - unfold Overlay.getProjectionT.
    cbn [type conic720 center angle x y boardOf width height].
    replace (601 - 0.5 * 1200) with 1 by lra.
    replace (400 - 0.5 * 800) with 0 by lra.
    rewrite Hdeg. exact Hrel.
Qed.


(** * Gestures *)

Lemma rendered_some (layerId : string) (st : EditorState) (layer : Layer)
    (g : Gradient) :
  lookup layerId (layers st) = Some layer -> fill layer = GradientFill g ->
  rendered layerId st = Some (layer, g).
Proof. intros Hl Hf. unfold rendered. rewrite Hl, Hf. reflexivity. Qed.

Lemma rendered_inv (layerId : string) (st : EditorState) (layer : Layer)
    (g : Gradient) :
  rendered layerId st = Some (layer, g) ->
  lookup layerId (layers st) = Some layer /\ fill layer = GradientFill g.
Proof.
  unfold rendered. destruct (lookup layerId (layers st)) as [l|]; [|discriminate].
  destruct (fill l) eqn:Hf; [discriminate|]. intros Heq. inversion Heq; subst.
  split; [reflexivity | assumption].
Qed.

Lemma updateLayerGradient_rendered (layerId : string) (u : GradientPatch)
    (st : EditorState) (layer : Layer) (g : Gradient) :
  rendered layerId st = Some (layer, g) ->
  rendered layerId (updateLayerGradient layerId u true st)
  = Some (setFill layer (GradientFill (mergeGradient g u)), mergeGradient g u)
  /\ viewport (updateLayerGradient layerId u true st) = viewport st.
Proof.
  intros Hr. apply rendered_inv in Hr. destruct Hr as [Hl Hf].
  unfold updateLayerGradient. rewrite saveSnapshot_layers, Hl, Hf.
  split; [|reflexivity].
  unfold rendered. cbn [layers setLayers]. rewrite lookup_assign. reflexivity.
Qed.

Lemma clamp_stop_range (t : R) :
  0.01 <= JS.Math_max 0.01 (JS.Math_min 0.99 t) <= 0.99.
Proof.
  unfold JS.Math_max, JS.Math_min. split; [apply Rmax_l|].
  apply Rmax_lub; [lra | apply Rmin_l].
Qed.

(** One pointer move of a rotate gesture. *)
Lemma rotate_step (layerId : string) (ev : PointerEvent) (st : EditorState)
    (d : DragRef) (layer : Layer) (g : Gradient) (c : Vec2) (pb : bool)
    (len a : R) :
  rendered layerId st = Some (setFill layer (GradientFill g), g) ->
  active d = true -> state d = Some (Rotate c pb len a) ->
  let g' := rotated layer c pb len (pointerRad (viewport st) layer c ev) g in
  let r := handlePointerMove layerId ev st d in
  active (fst r) = true /\ state (fst r) = Some (Rotate c pb len a)
  /\ rendered layerId (snd r) = Some (setFill layer (GradientFill g'), g')
  /\ viewport (snd r) = viewport st.
Proof.
  intros Hr Hact Hst g' r. unfold r, handlePointerMove.
  rewrite Hr, Hact, Hst. cbv zeta.
  match goal with
  | |- context [updateLayerGradient layerId ?u true st] =>
      destruct (updateLayerGradient_rendered layerId u st _ g Hr) as [Hr' Hv'];
      set (upd := u) in *
  end.
  assert (Hg : mergeGradient g upd = g').
  { unfold upd, g', rotated, handleAt, mergeGradient, over.
    destruct pb, (isLinear (type g)); reflexivity. }
  rewrite Hg in Hr'.
  match goal with
  | |- context [if ?c then setMoved d true else d] => destruct c
  end; cbn [fst snd setMoved active state]; (split; [exact Hact|]);
    (split; [exact Hst|]); (split; [exact Hr' | exact Hv']).
Qed.

Lemma sameButAxis_rotated (layer : Layer) (c : Vec2) (pb : bool) (len rad : R)
    (g0 g : Gradient) :
  sameButAxis g0 g -> sameButAxis g0 (rotated layer c pb len rad g).
Proof. intros H. exact H. Qed.

(** Any number of pointer moves of a rotate gesture. *)
Lemma rotate_moves (layerId : string) (layer : Layer) (c : Vec2) (pb : bool)
    (len a : R) (g0 : Gradient) (moves : list PointerEvent) :
  forall (st : EditorState) (d : DragRef) (g : Gradient),
    rendered layerId st = Some (setFill layer (GradientFill g), g) ->
    active d = true -> state d = Some (Rotate c pb len a) ->
    sameButAxis g0 g ->
    (pb && isLinear (type g0) = false -> start g = start g0 /\ end_ g = end_ g0) ->
    exists gk,
      rendered layerId (snd (runMoves layerId moves (d, st)))
      = Some (setFill layer (GradientFill gk), gk)
      /\ viewport (snd (runMoves layerId moves (d, st))) = viewport st
      /\ active (fst (runMoves layerId moves (d, st))) = true
      /\ state (fst (runMoves layerId moves (d, st))) = Some (Rotate c pb len a)
      /\ sameButAxis g0 gk
      /\ (pb && isLinear (type g0) = false ->
          start gk = start g0 /\ end_ gk = end_ g0).
Proof.
  induction moves as [|m moves IH]; intros st d g Hr Hact Hst Hsame Hkeep.
  - exists g. cbn [runMoves fold_left fst snd].
    split; [exact Hr|]. split; [reflexivity|]. split; [exact Hact|].
    split; [exact Hst|]. split; [exact Hsame | exact Hkeep].
  - destruct (rotate_step layerId m st d layer g c pb len a Hr Hact Hst)
      as (Hact1 & Hst1 & Hr1 & Hv1).
    change (runMoves layerId (m :: moves) (d, st))
      with (runMoves layerId moves (handlePointerMove layerId m st d)).
    rewrite (surjective_pairing (handlePointerMove layerId m st d)).
    destruct (IH _ _ _ Hr1 Hact1 Hst1 (sameButAxis_rotated _ _ _ _ _ _ _ Hsame))
      as (gk & Hrk & Hvk & Hactk & Hstk & Hsamek & Hkeepk).
    { intros Hpb. cbn [start end_ rotated].
      destruct Hsame as (Hty & _). rewrite Hty, Hpb. apply Hkeep. exact Hpb. }
    exists gk. split; [exact Hrk|]. split; [rewrite Hvk; exact Hv1|].
    split; [exact Hactk|]. split; [exact Hstk|].
    split; [exact Hsamek | exact Hkeepk].
Qed.

Lemma runMoves_snoc (layerId : string) (moves : list PointerEvent)
    (ev : PointerEvent) (s : DragRef * EditorState) :
  runMoves layerId (moves ++ [ev]) s
  = handlePointerMove layerId ev (snd (runMoves layerId moves s))
      (fst (runMoves layerId moves s)).
Proof. unfold runMoves. rewrite fold_left_app. reflexivity. Qed.

(** The two handles at [len / 2] on either side of [c] have midpoint [c]
    and distance [len]. *)
Lemma handles_mid (layer : Layer) (c : Vec2) (len rad : R) :
  width layer <> 0 -> height layer <> 0 ->
  pixelMid layer (handleAt layer c len rad false) (handleAt layer c len rad true)
  = c.
Proof.
  intros Hw Hh. destruct c as [cx cy]. unfold pixelMid, handleAt. cbn [x y].
  f_equal; field; assumption.
Qed.

Lemma handles_sep (layer : Layer) (c : Vec2) (len rad : R) :
  width layer <> 0 -> height layer <> 0 -> 0 <= len ->
  pixelSep layer (handleAt layer c len rad false) (handleAt layer c len rad true)
  = len.
Proof.
  intros Hw Hh Hlen. unfold pixelSep, handleAt. cbn [x y].
  match goal with
  | |- sqrt ?e = len =>
      replace e with (len * len * ((sin rad)² + (cos rad)²))
        by (unfold Rsqr; field; split; assumption)
  end.
  rewrite sin2_cos2, Rmult_1_r. apply sqrt_square. assumption.
Qed.


Lemma runMoves_cons (layerId : string) (e : PointerEvent) (es : list PointerEvent)
    (s : DragRef * EditorState) :
  runMoves layerId (e :: es) s
  = runMoves layerId es (handlePointerMove layerId e (snd s) (fst s)).
Proof. reflexivity. Qed.

(** Pointer-down on the rotation handle, any number of moves, one more
    move: the gradient is the one that this last move gives, from the centre
    and the length frozen at pointer-down. *)
Lemma rotate_gesture (layerId : string) (st : EditorState) (layer : Layer)
    (g : Gradient) (ev0 : PointerEvent) (d0 : DragRef)
    (moves : list PointerEvent) (ev : PointerEvent) :
  lookup layerId (layers st) = Some layer ->
  fill layer = GradientFill g ->
  let pb := isLinear (type g) && isSome (start g) && isSome (end_ g) in
  exists gk,
    gradientAt layerId
      (snd (runMoves layerId (moves ++ [ev])
              (handlePointerDown layerId ev0 OnRotate st d0)))
    = Some (rotated layer (rotCenter layer g) pb (frozenLen layer g)
              (pointerRad (viewport st) layer (rotCenter layer g) ev) gk)
    /\ sameButAxis g gk
    /\ (pb && isLinear (type g) = false -> start gk = start g /\ end_ gk = end_ g).
Proof.
  intros Hl Hf pb.
  pose proof (rendered_some layerId st layer g Hl Hf) as Hr.
  assert (Hr1 : rendered layerId (setInteractionMode dragging_gradient st)
                = Some (setFill layer (GradientFill g), g)).
  { rewrite (setFill_same layer _ Hf). exact Hr. }
  assert (Hdown : handlePointerDown layerId ev0 OnRotate st d0
                  = ({| active := true; hasMoved := false;
                        startPos := {| x := clientX ev0; y := clientY ev0 |};
                        state := Some (Rotate (rotCenter layer g) pb
                                         (frozenLen layer g) (angle g)) |},
                     setInteractionMode dragging_gradient st)).
  { unfold handlePointerDown. rewrite Hr. reflexivity. }
  rewrite Hdown, runMoves_snoc.
  match goal with
  | |- context [runMoves layerId moves (?d, ?s)] =>
      destruct (rotate_moves layerId layer (rotCenter layer g) pb
                  (frozenLen layer g) (angle g) g moves s d g Hr1 eq_refl eq_refl)
        as (gk & Hrk & Hvk & Hactk & Hstk & Hsamek & Hkeepk);
        [unfold sameButAxis; repeat split; reflexivity
        |intros _; split; reflexivity|];
      set (sk := runMoves layerId moves (d, s)) in *
  end.
  destruct (rotate_step layerId ev (snd sk) (fst sk) layer gk (rotCenter layer g)
              pb (frozenLen layer g) (angle g) Hrk Hactk Hstk)
    as (_ & _ & Hrn & _).
  exists gk. unfold gradientAt. rewrite Hrn. cbn [option_map snd].
  rewrite Hvk. split; [reflexivity|]. split; [exact Hsamek | exact Hkeepk].
Qed.

(** The centre that an angle-only linear gradient rotates about is the
    centre of the box. *)
Lemma rotCenter_derived (layer : Layer) (g : Gradient) :
  type g = linear -> start g = None -> end_ g = None ->
  rotCenter layer g = {| x := width layer / 2; y := height layer / 2 |}.
Proof.
  intros Hty Hs He. unfold rotCenter, renderStart, renderEnd, derivedCoords,
    getGradientCoords. rewrite Hty, Hs, He. cbn [x y x1 y1 x2 y2].
  f_equal; nra.
Qed.

(** ** C7 *)

(** C7.  A rotate gesture on a linear gradient, under a viewport of
    non-zero zoom and on a layer box with non-zero sides: pointer-down on the
    rotation handle, then any number of pointer moves, then one more.  With
    [rad] the direction from the frozen centre to the pointer of the last
    move, in layer pixels, the angle becomes the CSS angle of [rad].  If the
    gradient stored both [start] and [end], the frozen centre is their pixel
    midpoint and the new handles are the two points at half the frozen
    pixel distance from it, against and along [rad]: their midpoint is the
    midpoint of the original handles and their distance is the original
    distance; type, stops, centre, radius and ratio keep their values.  If
    it did not store both, [start] and [end] keep the values they had (none
    is introduced) and only the angle changes; with neither stored the
    frozen centre is the centre of the box. *)
Theorem rotate_linear_gesture :
  forall (layerId : string) (st : EditorState) (layer : Layer) (g : Gradient)
         (ev0 : PointerEvent) (d0 : DragRef) (moves : list PointerEvent)
         (ev : PointerEvent),
    lookup layerId (layers st) = Some layer ->
    fill layer = GradientFill g ->
    type g = linear ->
    zoom (viewport st) <> 0 -> width layer <> 0 -> height layer <> 0 ->
    let stn := snd (runMoves layerId (moves ++ [ev])
                      (handlePointerDown layerId ev0 OnRotate st d0)) in
    (forall s e, start g = Some s -> end_ g = Some e ->
       let c := pixelMid layer s e in
       let len := pixelSep layer s e in
       let rad := pointerRad (viewport st) layer c ev in
       exists g' s' e',
         gradientAt layerId stn = Some g'
         /\ start g' = Some s' /\ end_ g' = Some e'
         /\ s' = {| x := (x c - cos rad * (len / 2)) / width layer;
                    y := (y c - sin rad * (len / 2)) / height layer |}
         /\ e' = {| x := (x c + cos rad * (len / 2)) / width layer;
                    y := (y c + sin rad * (len / 2)) / height layer |}
         /\ angle g' = cssAngle rad
         /\ 0 <= angle g' < 360
         /\ pixelMid layer s' e' = pixelMid layer s e
         /\ pixelSep layer s' e' = pixelSep layer s e
         /\ sameButAxis g g')
    /\ (start g = None \/ end_ g = None ->
        exists g',
          gradientAt layerId stn = Some g'
          /\ angle g'
             = cssAngle (pointerRad (viewport st) layer (rotCenter layer g) ev)
          /\ 0 <= angle g' < 360
          /\ sameButAngle g g'
          /\ (start g = None -> end_ g = None ->
              rotCenter layer g
              = {| x := width layer / 2; y := height layer / 2 |})).
Proof.
  intros layerId st layer g ev0 d0 moves ev Hl Hf Hty _ Hw Hh stn.
  destruct (rotate_gesture layerId st layer g ev0 d0 moves ev Hl Hf)
    as (gk & Hg & Hsame & Hkeep).
  fold stn in Hg. rewrite Hty in Hg, Hkeep. cbn [isLinear andb] in Hg, Hkeep.
  split.
  - intros s e Hs He c len rad.
    assert (Hc : rotCenter layer g = c).
    { unfold rotCenter, renderStart, renderEnd. rewrite Hty, Hs, He. reflexivity. }
    assert (Hlen : frozenLen layer g = len).
    { unfold frozenLen, renderStart, renderEnd. rewrite Hs, He. reflexivity. }
    rewrite Hs, He, Hc, Hlen in Hg. cbn [isSome andb] in Hg. fold rad in Hg.
    destruct Hsame as (Hty' & Hrest).
    exists (rotated layer c true len rad gk),
      (handleAt layer c len rad false), (handleAt layer c len rad true).
    split; [exact Hg|]. cbn [start end_ angle rotated andb].
    rewrite Hty', Hty. cbn [isLinear].
    split; [reflexivity|]. split; [reflexivity|]. split; [reflexivity|].
    split; [reflexivity|]. split; [reflexivity|].
    split; [apply pointer_angle_range|].
    split; [apply handles_mid; assumption|].
    split; [apply handles_sep; [assumption | assumption | apply sqrt_pos]|].
    unfold sameButAxis. cbn [type stops center radius ratio rotated].
    split; [rewrite Hty', Hty; reflexivity | exact Hrest].
  - intros Hnone.
    assert (Hpb : isSome (start g) && isSome (end_ g) = false).
    { destruct Hnone as [-> | ->]; [reflexivity|].
      destruct (start g); reflexivity. }
    rewrite Hpb in Hg, Hkeep. destruct (Hkeep eq_refl) as [Hs' He'].
    destruct Hsame as (Hty' & Hst' & Hce' & Hra' & Hrt').
    eexists. split; [exact Hg|]. cbn [angle rotated].
    split; [reflexivity|]. split; [apply pointer_angle_range|].
    split.
    + unfold sameButAngle.
      cbn [type stops center start end_ radius ratio rotated andb].
      repeat split; assumption.
    + intros Hs He. apply rotCenter_derived; assumption.
Qed.


Lemma rotate_linear_gesture_witness :
  exists g' s' e',
    gradientAt "board"
      (snd (runMoves "board" ([] ++ [pointerAt 10 20])
              (handlePointerDown "board" (pointerAt 0 0) OnRotate
                 (stateOf gradientPts) idleDrag))) = Some g'
    /\ start g' = Some s' /\ end_ g' = Some e'
    /\ 0 <= angle g' < 360
    /\ pixelMid (boardOf gradientPts) s' e'
       = pixelMid (boardOf gradientPts) {| x := 0.25; y := 0.5 |} {| x := 0.75; y := 0.5 |}
    /\ pixelSep (boardOf gradientPts) s' e'
       = pixelSep (boardOf gradientPts) {| x := 0.25; y := 0.5 |} {| x := 0.75; y := 0.5 |}.
Proof.
  assert (Hz : zoom (viewport (stateOf gradientPts)) <> 0)
    by (cbn [stateOf viewport zoom]; lra).
  assert (Hw : width (boardOf gradientPts) <> 0) by (cbn [boardOf width]; lra).
  assert (Hh : height (boardOf gradientPts) <> 0) by (cbn [boardOf height]; lra).
  destruct (proj1 (rotate_linear_gesture "board" (stateOf gradientPts)
                     (boardOf gradientPts) gradientPts (pointerAt 0 0) idleDrag []
                     (pointerAt 10 20) eq_refl eq_refl eq_refl Hz Hw Hh)
              {| x := 0.25; y := 0.5 |} {| x := 0.75; y := 0.5 |} eq_refl eq_refl)
    as (g' & s' & e' & Hg & Hs & He & _ & _ & _ & Hrange & Hmid & Hsep & _).
  exists g', s', e'.
  split; [exact Hg|]. split; [exact Hs|]. split; [exact He|].
  split; [exact Hrange|]. split; [exact Hmid | exact Hsep].
Defined.

(** * Stop offsets set by the pointer *)

Lemma addGradientStop_eq (layerId : string) (t : R) (c : option string)
    (st : EditorState) (rng : Rng) (layer : Layer) (g : Gradient) :
  lookup layerId (layers st) = Some layer -> fill layer = GradientFill g ->
  addGradientStop layerId t c st rng
  = (setLayers (saveSnapshot st)
       (assign layerId
          (setFill layer
             (GradientFill
                (setStops g
                   (JS.sort byOffset
                      (stops g ++ [ {| id := draws rng (next rng); offset := t;
                                       color := orWhite c; opacity := 1;
                                       midpoint := None |} ])))))
          (layers st)),
     advance rng 1).
Proof.
  intros Hl Hf. unfold addGradientStop. rewrite saveSnapshot_layers, Hl, Hf.
  unfold generateId, advance. rewrite Nat.add_1_r. reflexivity.
Qed.

Lemma stopsOf_addGradientStop (layerId : string) (t : R) (c : option string)
    (st : EditorState) (rng : Rng) (layer : Layer) (g : Gradient) :
  lookup layerId (layers st) = Some layer -> fill layer = GradientFill g ->
  stopsOf layerId (fst (addGradientStop layerId t c st rng))
  = JS.sort byOffset
      (stops g ++ [ {| id := draws rng (next rng); offset := t;
                       color := orWhite c; opacity := 1; midpoint := None |} ]).
Proof.
  intros Hl Hf. rewrite (addGradientStop_eq _ _ _ _ _ _ _ Hl Hf). cbn [fst].
  unfold stopsOf. cbn [layers setLayers]. rewrite lookup_assign. reflexivity.
Qed.

Lemma stopsOf_setInteractionMode (layerId : string) (m : InteractionMode)
    (st : EditorState) :
  stopsOf layerId (setInteractionMode m st) = stopsOf layerId st.
Proof. reflexivity. Qed.

(** ** C9 *)

(** C9.  On a linear or radial gradient, a pointer move of a move-stop
    gesture calls [updateGradientStop] with an offset in [[0.01, 0.99]], and
    every stop that carries the dragged id ends at that offset; a click on
    the gradient line (pointer-down on the line, pointer-up without a move)
    adds one stop whose offset lies in [[0.01, 0.99]].  Neither is 0 or 1. *)
Theorem interactive_offsets_clamped :
  forall (layerId : string) (st : EditorState) (layer : Layer) (g : Gradient),
    lookup layerId (layers st) = Some layer ->
    fill layer = GradientFill g ->
    type g <> conic ->
    (forall (ev : PointerEvent) (d : DragRef) (sid : string),
        active d = true -> state d = Some (MoveStop sid) ->
        exists t,
          0.01 <= t <= 0.99 /\ t <> 0 /\ t <> 1
          /\ snd (handlePointerMove layerId ev st d)
             = updateGradientStop layerId sid (offsetPatch t) st
          /\ forall s,
               In s (stopsOf layerId (snd (handlePointerMove layerId ev st d))) ->
               id s = sid -> offset s = t)
    /\ (forall (ev0 ev1 : PointerEvent) (d0 : DragRef) (rng : Rng),
          let down := handlePointerDown layerId ev0 OnLine st d0 in
          let up := handlePointerUp layerId ev1 (snd down) (fst down) rng in
          exists t c,
            0.01 <= t <= 0.99 /\ t <> 0 /\ t <> 1
            /\ state (fst down)
               = Some (PotentialStop (clientX ev0) (clientY ev0) t true)
            /\ fst (fst up) = idleDrag
            /\ Permutation
                 (stopsOf layerId (snd (fst up)))
                 ({| id := draws rng (next rng); offset := t; color := c;
                     opacity := 1; midpoint := None |} :: stops g)).
Proof.
  intros layerId st layer g Hl Hf Hty.
  pose proof (rendered_some layerId st layer g Hl Hf) as Hr.
  assert (Hnc : isConic (type g) = false) by (destruct (type g); try reflexivity; exfalso; apply Hty; reflexivity).
  split.
  - intros ev d sid Hact Hst.
    unfold handlePointerMove. rewrite Hr, Hact, Hst. cbv zeta. rewrite Hnc.
    cbn [negb].
    match goal with
    | |- context [offsetPatch ?u] => set (t := u)
    end.
    assert (Ht : 0.01 <= t <= 0.99) by apply clamp_stop_range.
    exists t. split; [exact Ht|]. split; [lra|]. split; [lra|].
    match goal with
    | |- snd ?p = _ /\ _ =>
        assert (Hp : snd p = updateGradientStop layerId sid (offsetPatch t) st)
    end.
    { destruct (Rlt_dec _ _); reflexivity. }
    rewrite Hp. split; [reflexivity|].
    intros s Hin Hid.
    rewrite (stopsOf_updateGradientStop _ _ _ _ _ _ Hl Hf) in Hin.
    apply (Permutation_in _ (sort_perm _)) in Hin.
    apply in_map_iff in Hin. destruct Hin as (s0 & Hs0 & _).
    unfold mergeInto in Hs0. destruct (String.eqb (id s0) sid) eqn:He.
    + subst s. reflexivity.
    + subst s0. rewrite Hid, String.eqb_refl in He. discriminate.
  - intros ev0 ev1 d0 rng down up.
    unfold up, down, handlePointerDown. rewrite Hr. cbv zeta. cbn [fst snd].
    match goal with
    | |- context [PotentialStop _ _ ?u true] => set (t := u)
    end.
    assert (Ht : 0.01 <= t <= 0.99) by apply clamp_stop_range.
    unfold handlePointerUp.
    assert (Hr1 : rendered layerId (setInteractionMode dragging_gradient st)
                  = Some (layer, g)) by exact Hr.
    rewrite Hr1. cbn [active hasMoved state].
    exists t, (orWhite (Some (getGradientColorAt t (stops g)))).
    split; [exact Ht|]. split; [lra|]. split; [lra|]. split; [reflexivity|].
    assert (Hl1 : lookup layerId (layers (setInteractionMode dragging_gradient st))
                  = Some layer) by exact Hl.
    rewrite (addGradientStop_eq layerId t _ _ rng layer g Hl1 Hf).
    cbn [fst snd]. split; [reflexivity|].
    unfold stopsOf. cbn [layers setLayers setInteractionMode saveSnapshot].
    rewrite lookup_assign. cbn [fill setFill stops setStops].
    rewrite sort_perm. rewrite Permutation_app_comm. reflexivity.
Qed.

Lemma interactive_offsets_clamped_witness :
  exists t,
    0.01 <= t <= 0.99 /\ t <> 0 /\ t <> 1
    /\ snd (handlePointerMove "board" (pointerAt 700 500)
              (stateOf (gradientOf [stopA; stopM; stopB])) draggingM)
       = updateGradientStop "board" "m" (offsetPatch t)
           (stateOf (gradientOf [stopA; stopM; stopB]))
    /\ forall s,
         In s (stopsOf "board"
                 (snd (handlePointerMove "board" (pointerAt 700 500)
                         (stateOf (gradientOf [stopA; stopM; stopB])) draggingM))) ->
         id s = "m"%string -> offset s = t.
Proof.
  apply (proj1 (interactive_offsets_clamped "board"
                  (stateOf (gradientOf [stopA; stopM; stopB]))
                  (boardOf (gradientOf [stopA; stopM; stopB]))
                  (gradientOf [stopA; stopM; stopB]) eq_refl eq_refl
                  ltac:(discriminate))
           (pointerAt 700 500) draggingM "m"%string eq_refl eq_refl).
Defined.


(** ** C1 *)

(** C1, at the failing input.  For white, [L = 1], [C = 0], [H = 0], the
    clamp with the default 20 iterations returns the input, and its sRGB
    encoding has a red channel above [1 + 5e-5]: [isInGamutSrgbEncoded]
    rejects the result. *)
Theorem clamp_white_not_in_gamut :
  let white := {| L := 1; C := 0; H := 0 |} in
  let out := clampOklchToSrgbGamut white defaultMaxIter in
  out = white
  /\ 1 + 0.00005 < r (oklchToSrgbEncoded out)
  /\ isInGamutSrgbEncoded (oklchToSrgbEncoded out) = false.
Proof.
  cbv zeta. rewrite clamp_white.
  split; [reflexivity|]. split; [exact white_red_out | exact white_out_of_gamut].
Qed.

(** ** C10 *)

(** C10.  [clampOklchToSrgbGamut] is idempotent, for every input and every
    iteration budget, and it returns an input that is already in gamut
    unchanged. *)
Theorem clampOklchToSrgbGamut_idempotent :
  forall (lch : OKLCH) (maxIter : nat),
    clampOklchToSrgbGamut (clampOklchToSrgbGamut lch maxIter) maxIter
    = clampOklchToSrgbGamut lch maxIter
    /\ (isInGamutSrgbEncoded (oklchToSrgbEncoded lch) = true ->
        clampOklchToSrgbGamut lch maxIter = lch).
Proof.
  intros lch maxIter. split; [apply clamp_idem|]. apply clamp_in_gamut.
Qed.


(** * Further properties of the colour math *)

Lemma gray_linear_green (l h : R) :
  g (xyzToLinearSrgb (oklabToXyz (oklchToOklab {| L := l; C := 0; H := h |})))
  = grayGreen l.
Proof.
  rewrite oklchToOklab_gray. unfold oklabToXyz, xyzToLinearSrgb, grayGreen; simpl.
  lra.
Qed.

Lemma gray_linear_blue (l h : R) :
  b (xyzToLinearSrgb (oklabToXyz (oklchToOklab {| L := l; C := 0; H := h |})))
  = grayBlue l.
Proof.
  rewrite oklchToOklab_gray. unfold oklabToXyz, xyzToLinearSrgb, grayBlue; simpl.
  lra.
Qed.

(** The encoding of a linear-light value in [[0, 1.00009]] stays inside the
    gamut tolerance. *)
Lemma linearToSrgb_unit (u : R) :
  0 <= u <= 1.00009 -> 0 <= linearToSrgb u <= 1.00005.
Proof.
  intros [H0 H1]. destruct (Rle_dec u 0.0031308) as [Hs|Hs].
  - rewrite linearToSrgb_linear by assumption. lra.
  - assert (Hu : 0.0031308 < u) by lra. split.
    + apply Rle_trans with (1.055 * 0.0522 - 0.055); [lra|].
      apply linearToSrgb_ge; [assumption | lra |].
      apply Rle_trans with (0.0031308 ^ 5); [lra | apply pow_incr; lra].
    + apply Rle_trans with (1.055 * 1.00004 - 0.055); [|lra].
      left. apply linearToSrgb_lt; [assumption | lra |].
      apply Rle_lt_trans with (1.00009 ^ 5); [apply pow_incr; lra | lra].
Qed.

Lemma gray_in_gamut (l h : R) :
  0 <= l <= 0.9998 -> inGamut {| L := l; C := 0; H := h |} = true.
Proof.
  intros Hl. unfold inGamut.
  pose proof (cube_bounds l 0 0.9998 ltac:(lra) Hl) as Hc.
  assert (Hr : 0 <= grayRed l <= 1.00009) by (unfold grayRed; lra).
  assert (Hg : 0 <= grayGreen l <= 1.00009) by (unfold grayGreen; lra).
  assert (Hb : 0 <= grayBlue l <= 1.00009) by (unfold grayBlue; lra).
  apply linearToSrgb_unit in Hr, Hg, Hb.
  unfold isInGamutSrgbEncoded.
  rewrite encoded_r, encoded_g, encoded_b.
  rewrite gray_linear_red, gray_linear_green, gray_linear_blue.
  rewrite !Rleb_true by lra. reflexivity.
Qed.

Lemma clampLoop_nonneg lch n : forall lo hi best,
  0 <= lo -> lo <= hi -> 0 <= best -> 0 <= clampLoop lch n lo hi best.
Proof.
  induction n as [|n IH]; intros lo hi best Hlo Hhi Hbest; simpl.
  - assumption.
  - destruct (isInGamutSrgbEncoded _); apply IH; lra.
Qed.

Lemma clamp_result_in_gamut :
  forall (lch : OKLCH) (maxIter : nat),
    0 <= L lch <= 0.9998 -> 0 <= C lch ->
    let out := clampOklchToSrgbGamut lch maxIter in
    isInGamutSrgbEncoded (oklchToSrgbEncoded out) = true
    /\ 0 <= C out <= C lch /\ L out = L lch /\ H out = H lch.
Proof.
  intros lch n HL HC out. unfold out.
  destruct (inGamut lch) eqn:Hin.
  - rewrite (clamp_in_gamut lch n Hin). repeat split; try lra. exact Hin.
  - rewrite (clamp_out_of_gamut lch n Hin). cbn [L C H].
    pose proof (clampLoop_le lch n 0 (C lch) 0 HC (Rle_refl 0)) as Hle.
    pose proof (clampLoop_nonneg lch n 0 (C lch) 0 (Rle_refl 0) HC (Rle_refl 0)) as Hge.
    repeat split; try assumption.
    destruct (clampLoop_best_or_in_gamut lch n 0 (C lch) 0) as [Hz | Hok].
    + rewrite Hz. apply (gray_in_gamut (L lch) (H lch) HL).
    + exact Hok.
Qed.

(** X1.  For an OKLCH colour with lightness in [[0, 0.9998]] and a
    non-negative chroma, [clampOklchToSrgbGamut] (any iteration budget)
    returns a colour whose sRGB encoding [isInGamutSrgbEncoded] accepts, with
    a chroma between 0 and the input's and with [L] and [H] unchanged. *)
Theorem clamp_gamut_sound :
  forall (lch : OKLCH) (maxIter : nat),
    0 <= L lch <= 0.9998 -> 0 <= C lch ->
    let out := clampOklchToSrgbGamut lch maxIter in
    isInGamutSrgbEncoded (oklchToSrgbEncoded out) = true
    /\ 0 <= C out <= C lch /\ L out = L lch /\ H out = H lch.
Proof. exact clamp_result_in_gamut. Qed.

Lemma clamp_gamut_sound_witness :
  isInGamutSrgbEncoded
    (oklchToSrgbEncoded (clampOklchToSrgbGamut vividOrange defaultMaxIter)) = true.
Proof.
  apply (clamp_gamut_sound vividOrange defaultMaxIter); cbn [L C vividOrange]; lra.
Defined.

(** X5.  The gradient generator of colorExtraction.ts only encodes colours
    that went through [modifyLightness]: for those, with a non-negative
    chroma, the colour that [oklchToHex] encodes after its gamut clamp is in
    gamut, whatever the lightness shift. *)
Theorem modifyLightness_clamp_in_gamut :
  forall (c : OKLCH) (lDiff : R),
    0 <= C c ->
    let out := clampOklchToSrgbGamut (modifyLightness c lDiff) defaultMaxIter in
    isInGamutSrgbEncoded (oklchToSrgbEncoded out) = true
    /\ 0.02 <= L out <= 0.98 /\ H out = H c /\ C out <= C c.
Proof.
  intros c lDiff HC out.
  assert (HL : 0.02 <= L (modifyLightness c lDiff) <= 0.98).
  { cbn [L modifyLightness]. unfold JS.Math_max, JS.Math_min. split; [apply Rmax_l|].
    apply Rmax_lub; [lra | apply Rmin_l]. }
  destruct (clamp_result_in_gamut (modifyLightness c lDiff) defaultMaxIter
              ltac:(lra) HC) as (Hin & HCo & HLo & HHo).
  fold out in Hin, HCo, HLo, HHo.
  split; [exact Hin|]. split; [rewrite HLo; exact HL|].
  split; [rewrite HHo; reflexivity|]. cbn [C modifyLightness] in HCo. lra.
Qed.

Lemma modifyLightness_clamp_in_gamut_witness :
  isInGamutSrgbEncoded
    (oklchToSrgbEncoded
       (clampOklchToSrgbGamut (modifyLightness vividOrange 0.25) defaultMaxIter))
  = true.
Proof.
  apply (modifyLightness_clamp_in_gamut vividOrange 0.25); cbn [C vividOrange]; lra.
Defined.


(** * The hex encoder *)

Lemma Math_round_byte (a : R) : 0 <= a <= 255 -> byte (JS.Math_round a).
Proof.
  intros [H0 H1]. unfold JS.Math_round, byte.
  pose proof (Int_part_bounds (a + / 2)) as [Hlo Hhi].
  split.
  - apply Z.lt_succ_r, lt_IZR. rewrite succ_IZR. lra.
  - apply Z.lt_succ_r, lt_IZR. rewrite succ_IZR. lra.
Qed.

Lemma toHexUpper_byte (m : Z) :
  byte m ->
  String.length (toHexUpper m) = 2%nat
  /\ hexDigits (toHexUpper m) = true
  /\ noLowerCase (toHexUpper m) = true
  /\ JS.parseInt16 (toHexUpper m) = Some m.
Proof.
  intros [H0 H1].
  assert (Hall : forallb (fun k =>
            Nat.eqb (String.length (toHexUpper (Z.of_nat k))) 2
            && hexDigits (toHexUpper (Z.of_nat k))
            && noLowerCase (toHexUpper (Z.of_nat k))
            && match JS.parseInt16 (toHexUpper (Z.of_nat k)) with
               | Some n => Z.eqb n (Z.of_nat k)
               | None => false
               end)
            (seq 0 256) = true) by (vm_compute; reflexivity).
  rewrite forallb_forall in Hall.
  specialize (Hall (Z.to_nat m)).
  rewrite Z2Nat.id in Hall by assumption.
  assert (Hin : In (Z.to_nat m) (seq 0 256)) by (apply in_seq; lia).
  specialize (Hall Hin).
  repeat (apply andb_prop in Hall; destruct Hall as [Hall ?]).
  apply Nat.eqb_eq in Hall.
  destruct (JS.parseInt16 (toHexUpper m)) as [n|]; [|discriminate].
  repeat split; try assumption. f_equal. apply Z.eqb_eq. assumption.
Qed.

Lemma hexDigits_app (s1 s2 : string) :
  hexDigits s1 = true -> hexDigits s2 = true -> hexDigits (s1 ++ s2) = true.
Proof.
  induction s1 as [|c s1 IH]; cbn [append hexDigits]; [tauto|].
  destruct (JS.hexDigit c); [exact IH | discriminate].
Qed.

Lemma noLowerCase_app (s1 s2 : string) :
  noLowerCase s1 = true -> noLowerCase s2 = true -> noLowerCase (s1 ++ s2) = true.
Proof.
  induction s1 as [|c s1 IH]; cbn [append noLowerCase]; [tauto|].
  intros H1 H2. apply andb_prop in H1. destruct H1 as [Hc H1].
  rewrite Hc. cbn [andb]. apply IH; assumption.
Qed.

Lemma channel_byte (u : R) : byte (JS.Math_round (clamp01 u * 255)).
Proof. apply Math_round_byte. pose proof (clamp01_range u). lra. Qed.

(** X6.  [oklchToHex] returns a well-formed hex colour for every input:
    ['#'] followed by hexadecimal digits without lower-case letters, six of
    them when [alpha >= 0.999] and eight otherwise, also when the gamut clamp
    leaves the colour outside the gamut. *)
Theorem oklchToHex_well_formed :
  forall (lch : OKLCH) (alpha : R),
    exists h,
      oklchToHex lch alpha = String "#" h
      /\ hexDigits h = true /\ noLowerCase h = true
      /\ String.length h = (if Rle_dec 0.999 alpha then 6 else 8)%nat.
Proof.
  intros lch alpha. unfold oklchToHex. cbv zeta.
  set (rgb := oklchToSrgbEncoded (clampOklchToSrgbGamut lch defaultMaxIter)).
  destruct (toHexUpper_byte _ (channel_byte (r rgb))) as (Lr & Hr & Ur & _).
  destruct (toHexUpper_byte _ (channel_byte (g rgb))) as (Lg & Hg & Ug & _).
  destruct (toHexUpper_byte _ (channel_byte (b rgb))) as (Lb & Hb & Ub & _).
  destruct (toHexUpper_byte _ (channel_byte alpha)) as (La & Ha & Ua & _).
  destruct (Rle_dec 0.999 alpha).
  - eexists. split; [reflexivity|].
    split; [repeat apply hexDigits_app; assumption|].
    split; [repeat apply noLowerCase_app; assumption|].
    rewrite !string_length_app, Lr, Lg, Lb. reflexivity.
  - eexists. split; [cbn [append]; reflexivity|].
    split; [repeat apply hexDigits_app; assumption|].
    split; [repeat apply noLowerCase_app; assumption|].
    rewrite !string_length_app, Lr, Lg, Lb, La. reflexivity.
Qed.

(** * Polar form *)

Lemma atan2_polar (a b : R) :
  a <> 0 \/ b <> 0 ->
  sqrt (a * a + b * b) * cos (JS.Math_atan2 b a) = a
  /\ sqrt (a * a + b * b) * sin (JS.Math_atan2 b a) = b.
Proof.
  intros Hne. set (c := sqrt (a * a + b * b)).
  assert (Hpos : 0 < a * a + b * b) by (destruct Hne; nra).
  assert (Hc : 0 < c) by (apply sqrt_lt_R0; assumption).
  assert (Hcc : c * c = a * a + b * b) by (apply sqrt_sqrt; lra).
  unfold JS.Math_atan2.
  destruct (Rlt_dec 0 a) as [Ha|Ha].
  - assert (Hroot : sqrt (1 + (b / a)²) = c / a).
    { unfold c. replace (1 + (b / a)²) with ((a * a + b * b) / (a * a))
        by (unfold Rsqr; field; lra).
      rewrite sqrt_div_alt by nra. rewrite sqrt_square by lra. reflexivity. }
    rewrite cos_atan, sin_atan, Hroot. split; field; split; lra.
  - destruct (Rlt_dec a 0) as [Ha'|Ha'].
    + assert (Hroot : sqrt (1 + (b / a)²) = c / (- a)).
      { unfold c. replace (1 + (b / a)²) with ((a * a + b * b) / ((- a) * (- a)))
          by (unfold Rsqr; field; lra).
        rewrite sqrt_div_alt by nra. rewrite sqrt_square by lra. reflexivity. }
      destruct (Rle_dec 0 b).
      * rewrite neg_cos, neg_sin, cos_atan, sin_atan, Hroot. split; field; split; lra.
      * replace (atan (b / a) - PI) with (- (PI - atan (b / a))) by ring.
        rewrite cos_neg, sin_neg, Rtrigo_facts.cos_pi_minus, sin_PI_x.
        rewrite cos_atan, sin_atan, Hroot. split; field; split; lra.
    + assert (a = 0) by lra. subst a.
      assert (Hb : b <> 0) by (destruct Hne; [lra | assumption]).
      destruct (Rlt_dec 0 b) as [Hb'|Hb'].
      * rewrite cos_PI2, sin_PI2. unfold c.
        replace (0 * 0 + b * b) with (b * b) by ring. rewrite sqrt_square by lra. lra.
      * destruct (Rlt_dec b 0); [|lra].
        rewrite cos_neg, sin_neg, cos_PI2, sin_PI2. unfold c.
        replace (0 * 0 + b * b) with ((- b) * (- b)) by ring.
        rewrite sqrt_square by lra. lra.
Qed.

(** X7.  [oklabToOklch] keeps [L], gives a non-negative chroma and a hue in
    [[0, 360)]; followed by [oklchToOklab] it returns the OKLab input when the
    chroma exceeds [EPS], and the achromatic [(L, C, 0)] otherwise. *)
Theorem oklab_oklch_roundtrip :
  forall lab : OKLab,
    let lch := oklabToOklch lab in
    L lch = lab_L lab /\ 0 <= C lch /\ 0 <= H lch < 360
    /\ oklchToOklab lch
       = (if Rlt_dec EPS (C lch) then lab
          else {| lab_L := lab_L lab; lab_a := C lch; lab_b := 0 |}).
Proof.
  intros [l a b]. cbv zeta.
  unfold oklabToOklch, oklchToOklab, JS.Math_sqrt. cbn [lab_L lab_a lab_b L C H].
  set (c := sqrt (a * a + b * b)).
  pose proof PI_RGT_0 as Hpi.
  assert (HPI : PI <> 0) by lra.
  split; [reflexivity|]. split; [apply sqrt_pos|].
  destruct (Rlt_dec EPS c) as [HC|HC].
  - assert (Hne : a <> 0 \/ b <> 0).
    { destruct (Req_dec a 0) as [->|]; [|left; assumption].
      right. intros ->. unfold c, EPS in HC.
      replace (0 * 0 + 0 * 0) with 0 in HC by ring. rewrite sqrt_0 in HC. lra. }
    destruct (atan2_polar a b Hne) as [Hcos Hsin]. fold c in Hcos, Hsin.
    pose proof (atan2_range b a) as [Hlo Hhi].
    assert (Hd : - 180 <= JS.Math_atan2 b a * 180 / PI <= 180).
    { split.
      - apply Rmult_le_reg_r with PI; [assumption|]. unfold Rdiv.
        rewrite Rmult_assoc, Rinv_l by lra. lra.
      - apply Rmult_le_reg_r with PI; [assumption|]. unfold Rdiv.
        rewrite Rmult_assoc, Rinv_l by lra. lra. }
    destruct (Rlt_dec (JS.Math_atan2 b a * 180 / PI) 0).
    + split; [lra|].
      replace ((JS.Math_atan2 b a * 180 / PI + 360) * PI / 180)
        with (JS.Math_atan2 b a + 2 * INR 1 * PI) by (simpl; field; assumption).
      rewrite cos_period, sin_period, Hcos, Hsin. reflexivity.
    + split; [lra|].
      replace (JS.Math_atan2 b a * 180 / PI * PI / 180) with (JS.Math_atan2 b a)
        by (field; assumption).
      rewrite Hcos, Hsin. reflexivity.
  - split; [lra|].
    replace (0 * PI / 180) with 0 by lra. rewrite cos_0, sin_0.
    f_equal; ring.
Qed.

(** * Transfer curve *)

Lemma Rpower_24_pow5 (v : R) : 0 < v -> Rpower v 2.4 ^ 5 = v ^ 12.
Proof.
  intros Hv.
  rewrite <- (Rpower_pow 5) by (unfold Rpower; apply exp_pos).
  rewrite Rpower_mult.
  replace (2.4 * INR 5) with (INR 12) by (simpl; lra).
  apply Rpower_pow; assumption.
Qed.

Lemma srgbToLinear_gamma (u : R) :
  0.04045 < u -> srgbToLinear u = Rpower ((u + 0.055) / 1.055) 2.4.
Proof.
  intros Hu. unfold srgbToLinear. destruct (Rle_dec u 0.04045); [lra|].
  rewrite Math_pow_pos; [reflexivity|]. apply Rdiv_lt_0_compat; lra.
Qed.

(** X8.  Decoding and re-encoding an sRGB channel value gives the value
    back, for every value up to 0.040449936 and every value above 0.04045;
    this covers every 8-bit channel value [k / 255]. *)
Theorem srgb_transfer_roundtrip :
  (forall u : R, u <= 0.040449936 \/ 0.04045 < u ->
                 linearToSrgb (srgbToLinear u) = u)
  /\ (forall k : Z, (0 <= k <= 255)%Z ->
                    linearToSrgb (srgbToLinear (IZR k / 255)) = IZR k / 255).
Proof.
  assert (Hmain : forall u : R, u <= 0.040449936 \/ 0.04045 < u ->
                                linearToSrgb (srgbToLinear u) = u).
  { intros u [Hu|Hu].
    - rewrite srgbToLinear_linear by lra. rewrite linearToSrgb_linear by lra. lra.
    - rewrite srgbToLinear_gamma by assumption.
      set (v := (u + 0.055) / 1.055).
      assert (Hv : 0.09047 < v) by (unfold v; lra).
      assert (Hy : 0.0031308 < Rpower v 2.4).
      { apply (pow_lt_reg _ _ 5); [left; unfold Rpower; apply exp_pos|].
        rewrite Rpower_24_pow5 by lra.
        apply Rlt_le_trans with (((0.04045 + 0.055) / 1.055) ^ 12); [lra|].
        apply pow_incr. unfold v. lra. }
      rewrite linearToSrgb_gamma by assumption.
      rewrite Rpower_mult. replace (2.4 * (1 / 2.4)) with 1 by lra.
      rewrite Rpower_1 by lra. unfold v. lra. }
  split; [exact Hmain|].
  intros k [Hk0 Hk1]. apply Hmain.
  destruct (Z_le_gt_dec k 10) as [Hle|Hgt].
  - left. apply IZR_le in Hle. lra.
  - right. assert (Hge : (11 <= k)%Z) by lia. apply IZR_le in Hge. lra.
Qed.


(** * Further properties of the geometry *)

(** X2.  For a linear or radial gradient [getGradientT] lies in [[0, 1]]
    for every pointer position and box size, and it is 0 on a zero-length
    axis: a linear gradient whose start and end coincide, or a radial gradient
    of radius 0. *)
Theorem getGradientT_line_in_unit :
  forall (mx my : R) (g : Gradient) (w h : R),
    type g <> conic ->
    0 <= getGradientT mx my g w h <= 1
    /\ (forall p, type g = linear -> start g = Some p -> end_ g = Some p ->
                  getGradientT mx my g w h = 0)
    /\ (type g = radial -> radius g = Some 0 -> getGradientT mx my g w h = 0).
Proof.
  intros mx my g w h Hty. split; [apply getGradientT_axis_range; assumption|].
  split; [intros p; apply getGradientT_degenerate|].
  intros Hr Hz. unfold getGradientT. rewrite Hr, Hz. cbn [x y].
  match goal with |- context [Req_dec_T ?l 0] => destruct (Req_dec_T l 0) as [|Hne] end;
    [reflexivity|]. exfalso. apply Hne. ring.
Qed.

Lemma getGradientT_line_in_unit_witness :
  0 <= getGradientT 900 100 (radialAt (Some 0.8)) 1200 800 <= 1.
Proof.
  apply (getGradientT_line_in_unit 900 100 (radialAt (Some 0.8)) 1200 800).
  discriminate.
Defined.

(** X3.  For a conic gradient whose angle is at most 360, [getGradientT] and
    the overlay's [getProjectionT] lie in [[0, 1)] for every pointer
    position. *)
Theorem conic_t_in_unit :
  forall (mx my : R) (layer : Layer) (g : Gradient),
    type g = conic -> angle g <= 360 ->
    0 <= getGradientT mx my g (width layer) (height layer) < 1
    /\ 0 <= getProjectionT layer g mx my < 1.
Proof.
  intros mx my layer g Hty Hang.
  split; [apply getGradientT_conic_range; assumption|].
  unfold getProjectionT. rewrite Hty.
  match goal with
  | |- context [JS.rem (JS.Math_atan2 ?v ?u * 180 / PI + 90 + 360) 360] =>
      pose proof (pointer_angle_range v u) as Hp;
      set (deg := JS.rem (JS.Math_atan2 v u * 180 / PI + 90 + 360) 360) in *
  end.
  pose proof (rem_nonneg (deg - angle g + 360) 360 ltac:(lra) ltac:(lra)). lra.
Qed.

Lemma conic_t_in_unit_witness :
  0 <= getGradientT 601 400 (conicAt 135) (width (boardOf (conicAt 135)))
         (height (boardOf (conicAt 135))) < 1.
Proof.
  apply (conic_t_in_unit 601 400 (boardOf (conicAt 135)) (conicAt 135) eq_refl).
  cbn [angle conicAt]. lra.
Defined.

(** X4.  The projection used for a colour drop and the overlay's projection
    agree, up to the clamp into [[0, 1]] of the former, whenever a linear
    gradient stores both handles or neither and a radial gradient stores its
    radius. *)
Theorem getGradientT_agrees_with_overlay :
  forall (mx my : R) (layer : Layer) (g : Gradient),
    isSome (start g) = isSome (end_ g) ->
    (type g = radial -> radius g <> None) ->
    getGradientT mx my g (width layer) (height layer)
    = match type g with
      | conic => getProjectionT layer g mx my
      | _ => JS.Math_max 0 (JS.Math_min 1 (getProjectionT layer g mx my))
      end.
Proof.
  intros mx my layer g Hse Hrad.
  assert (Hclamp0 : JS.Math_max 0 (JS.Math_min 1 0) = 0).
  { unfold JS.Math_max, JS.Math_min. rewrite Rmin_right by lra. apply Rmax_left; lra. }
  unfold getGradientT, getProjectionT, renderStart, renderEnd, radiusPos,
    radiusOrDefault, derivedCoords.
  destruct (type g) eqn:Hty.
  - destruct (start g), (end_ g); cbn [isSome] in Hse; try discriminate;
      cbn [x y];
      match goal with |- context [Req_dec_T ?l 0] => destruct (Req_dec_T l 0) end;
      rewrite ?Hclamp0; reflexivity.
  - destruct (radius g); [|exfalso; apply Hrad; reflexivity]. cbn [x y].
    match goal with |- context [Req_dec_T ?l 0] => destruct (Req_dec_T l 0) end;
      rewrite ?Hclamp0; reflexivity.
  - destruct (radius g); reflexivity.
Qed.

Lemma getGradientT_agrees_with_overlay_witness :
  getGradientT 300 200 gradientPts (width (boardOf gradientPts))
    (height (boardOf gradientPts))
  = JS.Math_max 0 (JS.Math_min 1 (getProjectionT (boardOf gradientPts) gradientPts 300 200)).
Proof.
  apply (getGradientT_agrees_with_overlay 300 200 (boardOf gradientPts) gradientPts
           eq_refl).
  discriminate.
Defined.

(** X9.  Screen and canvas coordinates are inverse to each other under a
    viewport with non-zero zoom. *)
Theorem screen_canvas_roundtrip :
  forall (p : Vec2) (v : Viewport),
    zoom v <> 0 ->
    canvasToScreen (screenToCanvas p v) v = p
    /\ screenToCanvas (canvasToScreen p v) v = p.
Proof.
  intros [px py] [vx vy z] Hz. cbn [zoom] in Hz.
  unfold canvasToScreen, screenToCanvas; cbn [x y vp_x vp_y zoom].
  split; f_equal; field; assumption.
Qed.

Lemma screen_canvas_roundtrip_witness :
  canvasToScreen (screenToCanvas {| x := 10; y := 20 |} viewHalf) viewHalf
  = {| x := 10; y := 20 |}.
Proof.
  apply (screen_canvas_roundtrip {| x := 10; y := 20 |} viewHalf).
  cbn [zoom viewHalf]. lra.
Defined.

(** X10.  [getStopScreenPosition] undoes [getLocalPoint]: a screen point
    mapped into the normalised space of a layer, whatever its rotation, is
    drawn back at the same screen point, for a non-zero zoom and a layer box
    with non-zero sides. *)
Theorem local_point_roundtrip :
  forall (p : Vec2) (v : Viewport) (layer : Layer),
    zoom v <> 0 -> width layer <> 0 -> height layer <> 0 ->
    getStopScreenPosition (getLocalPoint p v layer) layer v = p.
Proof.
  intros [px py] [vx vy z] layer Hz Hw Hh. cbn [zoom] in Hz.
  unfold getStopScreenPosition, getLocalPoint, canvasToScreen, screenToCanvas.
  cbn [x y vp_x vp_y zoom].
  set (rad := degreesToRadians (rotation layer)).
  rewrite cos_neg, sin_neg.
  pose proof (sin2_cos2 rad) as Hsc. unfold Rsqr in Hsc.
  f_equal.
  - replace ((px - vx) / z - layer_x layer) with ((px - vx) / z - layer_x layer) by reflexivity.
    set (dx := (px - vx) / z - layer_x layer).
    set (dy := (py - vy) / z - layer_y layer).
    replace ((layer_x layer
              + ((dx * cos rad - dy * - sin rad) / width layer * width layer * cos rad
                 - (dx * - sin rad + dy * cos rad) / height layer * height layer * sin rad))
             * z + vx)
      with ((layer_x layer + dx * (sin rad * sin rad + cos rad * cos rad)) * z + vx)
      by (field; split; assumption).
    rewrite Hsc. unfold dx. field. assumption.
  - set (dx := (px - vx) / z - layer_x layer).
    set (dy := (py - vy) / z - layer_y layer).
    replace ((layer_y layer
              + ((dx * cos rad - dy * - sin rad) / width layer * width layer * sin rad
                 + (dx * - sin rad + dy * cos rad) / height layer * height layer * cos rad))
             * z + vy)
      with ((layer_y layer + dy * (sin rad * sin rad + cos rad * cos rad)) * z + vy)
      by (field; split; assumption).
    rewrite Hsc. unfold dy. field. assumption.
Qed.

Lemma local_point_roundtrip_witness :
  getStopScreenPosition
    (getLocalPoint {| x := 10; y := 20 |} viewHalf (boardOf gradientPts))
    (boardOf gradientPts) viewHalf
  = {| x := 10; y := 20 |}.
Proof.
  apply (local_point_roundtrip {| x := 10; y := 20 |} viewHalf (boardOf gradientPts));
    cbn [zoom viewHalf width height boardOf]; lra.
Defined.


(** X11.  The axis [getGradientCoords] derives from an angle is centred on
    (0.5, 0.5) and has length 1; at angle 0 it runs from (0.5, 1) up to
    (0.5, 0); adding 180 degrees swaps its two ends. *)
Theorem getGradientCoords_axis :
  forall angleDeg : R,
    let c := getGradientCoords angleDeg in
    (x1 c + x2 c) / 2 = 0.5 /\ (y1 c + y2 c) / 2 = 0.5
    /\ (x2 c - x1 c) * (x2 c - x1 c) + (y2 c - y1 c) * (y2 c - y1 c) = 1
    /\ getGradientCoords (angleDeg + 180) = swapEnds c
    /\ getGradientCoords 0 = {| x1 := 0.5; y1 := 1; x2 := 0.5; y2 := 0 |}.
Proof.
  intros angleDeg c. unfold c, getGradientCoords, swapEnds; cbn [x1 y1 x2 y2].
  set (rad := degreesToRadians (angleDeg - 90)).
  pose proof (sin2_cos2 rad) as Hsc. unfold Rsqr in Hsc.
  split; [lra|]. split; [lra|]. split; [nra|]. split.
  - replace (degreesToRadians (angleDeg + 180 - 90)) with (rad + PI)
      by (unfold rad, degreesToRadians; field).
    rewrite neg_cos, neg_sin. f_equal; lra.
  - replace (degreesToRadians (0 - 90)) with (- (PI / 2))
      by (unfold degreesToRadians; field).
    rewrite cos_neg, sin_neg, cos_PI2, sin_PI2. f_equal; lra.
Qed.

(** X12.  On a linear or radial gradient whose axis has a non-zero pixel
    length, the point where the overlay draws the stop of offset [t] projects
    back to [t]: [getProjectionT] inverts [getPosOnGradient]. *)
Theorem projection_inverts_position :
  forall (layer : Layer) (g : Gradient) (t : R),
    type g <> conic -> axisLenSq layer g <> 0 ->
    let pos := getPosOnGradient layer g t in
    getProjectionT layer g (x pos * width layer) (y pos * height layer) = t.
Proof.
  intros layer g t Hty Hlen pos. unfold pos, getPosOnGradient, getProjectionT.
  unfold axisLenSq in Hlen.
  destruct (type g); [| |contradiction]; cbn [x y] in *.
  - match goal with |- context [Req_dec_T ?l 0] => destruct (Req_dec_T l 0) as [Hz|Hz] end.
    + exfalso. apply Hlen. rewrite <- Hz. ring.
    + field. intros Hq. apply Hz. rewrite <- Hq. ring.
  - unfold radiusPos in *. cbn [x y] in *.
    match goal with |- context [Req_dec_T ?l 0] => destruct (Req_dec_T l 0) as [Hz|Hz] end.
    + exfalso. apply Hlen. rewrite <- Hz. ring.
    + field. intros Hq. apply Hz. rewrite <- Hq. ring.
Qed.

Lemma projection_inverts_position_witness :
  getProjectionT (boardOf gradientPts) gradientPts
    (x (getPosOnGradient (boardOf gradientPts) gradientPts 0.3)
     * width (boardOf gradientPts))
    (y (getPosOnGradient (boardOf gradientPts) gradientPts 0.3)
     * height (boardOf gradientPts))
  = 0.3.
Proof.
  apply (projection_inverts_position (boardOf gradientPts) gradientPts 0.3).
  - discriminate.
  - unfold axisLenSq, renderStart, renderEnd.
    cbn [type gradientPts start end_ x y width height boardOf]. lra.
Defined.

Lemma Math_round_IZR (k : Z) : JS.Math_round (IZR k) = k.
Proof. apply Math_round_eq. lra. Qed.

Lemma Math_round_near (a : R) :
  - / 2 < IZR (JS.Math_round a) - a <= / 2.
Proof.
  unfold JS.Math_round. pose proof (Int_part_bounds (a + / 2)). lra.
Qed.

(** X13.  For a positive grid size [snapToGrid] returns a whole multiple of
    the grid size at most half a grid step away from the value, and snapping
    a snapped value changes nothing. *)
Theorem snapToGrid_nearest :
  forall value gridSize : R,
    0 < gridSize ->
    (exists k : Z, snapToGrid value gridSize = IZR k * gridSize)
    /\ Rabs (snapToGrid value gridSize - value) <= gridSize / 2
    /\ snapToGrid (snapToGrid value gridSize) gridSize = snapToGrid value gridSize.
Proof.
  intros v gs Hg. unfold snapToGrid. split; [eexists; reflexivity|]. split.
  - pose proof (Math_round_near (v / gs)) as [Hlo Hhi].
    set (k := IZR (JS.Math_round (v / gs))) in *.
    assert (Hv : v = gs * (v / gs)) by (field; lra).
    apply Rabs_le. split.
    + apply Rmult_lt_compat_l with (r := gs) in Hlo; [|assumption]. lra.
    + apply Rmult_le_compat_l with (r := gs) in Hhi; lra.
  - replace (IZR (JS.Math_round (v / gs)) * gs / gs) with (IZR (JS.Math_round (v / gs)))
      by (field; lra).
    rewrite Math_round_IZR. reflexivity.
Qed.

Lemma snapToGrid_nearest_witness :
  Rabs (snapToGrid 13 defaultGridSize - 13) <= defaultGridSize / 2.
Proof.
  apply (snapToGrid_nearest 13 defaultGridSize). unfold defaultGridSize. lra.
Defined.


(** * Undo history *)

Lemma sliceLast_snoc {A : Type} (n : nat) (l : list A) (a : A) :
  (0 < n)%nat -> sliceLast n (l ++ [a]) = sliceLast (n - 1) l ++ [a].
Proof.
  intros Hn. unfold sliceLast. rewrite length_app. cbn [List.length].
  rewrite skipn_app.
  replace (List.length l + 1 - n)%nat with (List.length l - (n - 1))%nat by lia.
  replace (List.length l - (n - 1) - List.length l)%nat with 0%nat by lia.
  reflexivity.
Qed.

Lemma sliceLast_length {A : Type} (n : nat) (l : list A) :
  (List.length (sliceLast n l) <= n)%nat.
Proof. unfold sliceLast. rewrite length_skipn. lia. Qed.

Lemma saveSnapshot_past (st : EditorState) :
  past (history (saveSnapshot st))
  = sliceLast (MAX_HISTORY - 1) (past (history st)) ++ [currentSnapshot st].
Proof.
  unfold saveSnapshot. cbn [history past].
  rewrite sliceLast_snoc by (unfold MAX_HISTORY; lia). reflexivity.
Qed.

(** X14.  [saveSnapshot] appends the current layers and layer order as the
    newest entry of [past], keeps at most 50 entries, empties [future] and
    changes nothing else; [undo] and [redo] keep the total number of
    snapshots, so a history that holds at most 50 snapshots keeps doing so. *)
Theorem history_bounded :
  forall st : EditorState,
    (exists older, past (history (saveSnapshot st)) = older ++ [currentSnapshot st])
    /\ (historySize (saveSnapshot st) <= MAX_HISTORY)%nat
    /\ future (history (saveSnapshot st)) = []
    /\ layers (saveSnapshot st) = layers st
    /\ layerOrder (saveSnapshot st) = layerOrder st
    /\ viewport (saveSnapshot st) = viewport st
    /\ historySize (undo st) = historySize st
    /\ historySize (redo st) = historySize st.
Proof.
  intros st. split; [rewrite saveSnapshot_past; eexists; reflexivity|].
  split.
  { unfold historySize. cbn [saveSnapshot history past future List.length].
    pose proof (sliceLast_length MAX_HISTORY
                  (past (history st) ++ [ {| snap_layers := layers st;
                                             snap_layerOrder := layerOrder st |} ])).
    lia. }
  repeat (split; [reflexivity|]).
  unfold historySize, undo, redo. split.
  - destruct (past (history st)) as [|p ps] eqn:Hp; [rewrite Hp; reflexivity|].
    cbn [history past future List.length].
    assert (Hne : p :: ps <> []) by discriminate.
    pose proof (app_removelast_last p Hne) as Hsplit.
    apply (f_equal (@List.length Snapshot)) in Hsplit.
    rewrite length_app in Hsplit. cbn [List.length] in Hsplit. lia.
  - destruct (future (history st)) as [|f fs] eqn:Hf; [rewrite Hf; reflexivity|].
    cbn [history past future List.length]. rewrite length_app. cbn [List.length]. lia.
Qed.

Lemma snapshot_eta (s : Snapshot) :
  {| snap_layers := snap_layers s; snap_layerOrder := snap_layerOrder s |} = s.
Proof. destruct s; reflexivity. Qed.

Lemma last_cons_default {A : Type} (a : A) (l : list A) : last l a = last (a :: l) a.
Proof. destruct l; reflexivity. Qed.

(** X15.  [redo] undoes [undo] and [undo] undoes [redo]: when there is a
    snapshot to go back to, [redo (undo st) = st], and when there is one to
    go forward to, [undo (redo st) = st]; with nothing to go to, each leaves
    the state as it is. *)
Theorem undo_redo_roundtrip :
  forall st : EditorState,
    (past (history st) <> [] -> redo (undo st) = st)
    /\ (future (history st) <> [] -> undo (redo st) = st)
    /\ (past (history st) = [] -> undo st = st)
    /\ (future (history st) = [] -> redo st = st).
Proof.
  intros [v ls lo sel mode [ps fs]]. cbn [history past future].
  split; [|split; [|split]].
  - intros Hne. unfold undo. cbn [history past future].
    destruct ps as [|p ps']; [contradiction|].
    unfold redo. cbn [history past future viewport layers layerOrder selectedIds
                       interactionMode currentSnapshot snap_layers snap_layerOrder].
    unfold currentSnapshot. cbn [layers layerOrder].
    rewrite snapshot_eta, last_cons_default, <- (app_removelast_last p Hne).
    reflexivity.
  - intros Hne. unfold redo. cbn [history past future].
    destruct fs as [|f fs']; [contradiction|].
    unfold undo. cbn [history past future viewport layers layerOrder selectedIds
                       interactionMode currentSnapshot snap_layers snap_layerOrder].
    unfold currentSnapshot. cbn [layers layerOrder].
    destruct (ps ++ [ {| snap_layers := ls; snap_layerOrder := lo |} ]) as [|q qs] eqn:Hq.
    { destruct ps; discriminate Hq. }
    rewrite (last_cons_default q qs), <- Hq.
    rewrite (last_last ps _ q), removelast_last, snapshot_eta. reflexivity.
  - intros ->. reflexivity.
  - intros ->. reflexivity.
Qed.

Lemma undo_after_snapshot (st st' : EditorState) :
  past (history st') = past (history (saveSnapshot st)) ->
  layers (undo st') = layers st /\ layerOrder (undo st') = layerOrder st.
Proof.
  intros Hp. rewrite saveSnapshot_past in Hp. unfold undo.
  destruct (past (history st')) as [|p ps] eqn:Hps.
  { destruct (sliceLast (MAX_HISTORY - 1) (past (history st))); discriminate Hp. }
  cbn [layers layerOrder].
  rewrite (last_cons_default p ps), Hp, last_last. split; reflexivity.
Qed.

Lemma updateLayerGradient_past (layerId : string) (u : GradientPatch) (st : EditorState) :
  past (history (updateLayerGradient layerId u true st))
  = past (history (saveSnapshot st)).
Proof.
  unfold updateLayerGradient.
  destruct (lookup layerId (layers (saveSnapshot st))); reflexivity.
Qed.

Lemma removeGradientStop_past (layerId stopId : string) (st : EditorState) :
  past (history (removeGradientStop layerId stopId st))
  = past (history (saveSnapshot st)).
Proof.
  rewrite removeGradientStop_floor.
  destruct (lookup layerId (layers st)) as [l|]; [|reflexivity].
  destruct (fill l) as [|g0]; [reflexivity|].
  destruct (List.length (stops g0) <=? 2)%nat; reflexivity.
Qed.

Lemma addGradientStop_past (layerId : string) (t : R) (c : option string)
    (st : EditorState) (rng : Rng) :
  past (history (fst (addGradientStop layerId t c st rng)))
  = past (history (saveSnapshot st)).
Proof.
  unfold addGradientStop.
  destruct (lookup layerId (layers (saveSnapshot st))) as [l|]; [|reflexivity].
  destruct (fill l); reflexivity.
Qed.

Lemma smoothLayerGradient_past (layerId : string) (st : EditorState) (rng : Rng) :
  past (history (fst (smoothLayerGradient layerId st rng)))
  = past (history (saveSnapshot st)).
Proof.
  unfold smoothLayerGradient.
  destruct (lookup layerId (layers (saveSnapshot st))) as [l|]; [|reflexivity].
  destruct (fill l) as [|g0]; [reflexivity|].
  destruct (fixGradientBanding (stops g0) rng). reflexivity.
Qed.

(** X16.  One [undo] takes back any single store action that records a
    snapshot: after [removeGradientStop], [addGradientStop],
    [smoothLayerGradient], [updateLayerGradient] with history recording, or
    [addLayer], [undo] restores the layers and the layer order the action
    started from. *)
Theorem undo_takes_back :
  forall (st : EditorState) (layerId stopId : string) (t : R)
         (c : option string) (u : GradientPatch) (layer : Layer) (rng : Rng),
    let restored (st' : EditorState) :=
      layers (undo st') = layers st /\ layerOrder (undo st') = layerOrder st in
    restored (removeGradientStop layerId stopId st)
    /\ restored (fst (addGradientStop layerId t c st rng))
    /\ restored (fst (smoothLayerGradient layerId st rng))
    /\ restored (updateLayerGradient layerId u true st)
    /\ restored (addLayer layer st).
Proof.
  intros st layerId stopId t c u layer rng restored. unfold restored.
  split; [apply undo_after_snapshot, removeGradientStop_past|].
  split; [apply undo_after_snapshot, addGradientStop_past|].
  split; [apply undo_after_snapshot, smoothLayerGradient_past|].
  split; [apply undo_after_snapshot, updateLayerGradient_past|].
  apply undo_after_snapshot. reflexivity.
Qed.


(** * Further properties of the stop list actions *)

(** X17.  On a gradient layer [addGradientStop] adds exactly one stop, with
    the id drawn from [generateId], the given offset, full opacity and the
    given colour (white when the colour is missing or empty), and leaves
    the list sorted ascending by offset; on a missing layer or a solid fill
    it changes no layer and draws no id. *)
Theorem addGradientStop_inserts_sorted :
  forall (layerId : string) (t : R) (c : option string) (st : EditorState)
         (rng : Rng),
    let out := addGradientStop layerId t c st rng in
    match rendered layerId st with
    | Some (layer, g) =>
        Sorted offsetLe (stopsOf layerId (fst out))
        /\ Permutation (stopsOf layerId (fst out)) (newStop rng t c :: stops g)
        /\ List.length (stopsOf layerId (fst out)) = S (List.length (stops g))
        /\ snd out = advance rng 1
    | None => layers (fst out) = layers st /\ snd out = rng
    end.
Proof.
  intros layerId t c st rng out. unfold out.
  destruct (rendered layerId st) as [[layer g]|] eqn:Hr.
  - apply rendered_inv in Hr. destruct Hr as [Hl Hf].
    rewrite (stopsOf_addGradientStop _ _ _ _ _ _ _ Hl Hf).
    rewrite (addGradientStop_eq _ _ _ _ _ _ _ Hl Hf). cbn [snd].
    fold (newStop rng t c).
    assert (Hperm : Permutation (JS.sort byOffset (stops g ++ [newStop rng t c]))
                                (newStop rng t c :: stops g)).
    { rewrite sort_perm. rewrite Permutation_app_comm. reflexivity. }
    split; [apply sort_sorted|]. split; [exact Hperm|]. split; [|reflexivity].
    rewrite (Permutation_length Hperm). reflexivity.
  - unfold addGradientStop, rendered in *. rewrite saveSnapshot_layers.
    destruct (lookup layerId (layers st)) as [l|]; [|split; reflexivity].
    destruct (fill l); [split; reflexivity | discriminate Hr].
Qed.

(** * Removal *)

Lemma sorted_forall (a : GradientStop) (l : list GradientStop) :
  Sorted offsetLe (a :: l) -> Forall (offsetLe a) l.
Proof.
  intros Hs. apply Sorted_extends in Hs; [assumption|].
  intros u v w. unfold offsetLe. lra.
Qed.

Lemma filter_sorted (p : GradientStop -> bool) (l : list GradientStop) :
  Sorted offsetLe l -> Sorted offsetLe (filter p l).
Proof.
  induction l as [|a l IH]; intros Hs; [constructor|].
  pose proof (sorted_forall a l Hs) as Hall.
  inversion Hs as [|? ? Hs' _]; subst. cbn [filter].
  destruct (p a); [|apply IH; assumption].
  constructor; [apply IH; assumption|].
  clear IH Hs Hs'. induction l as [|b l IHl]; [constructor|].
  inversion Hall; subst. cbn [filter]. destruct (p b); [constructor; assumption|].
  apply IHl; assumption.
Qed.

Lemma filter_insert (p : GradientStop -> bool) (a : GradientStop)
    (l : list GradientStop) :
  Sorted offsetLe l ->
  filter p (JS.insert byOffset a l)
  = if p a then JS.insert byOffset a (filter p l) else filter p l.
Proof.
  induction l as [|b l IH]; intros Hs.
  - cbn [JS.insert filter]. destruct (p a); reflexivity.
  - pose proof (sorted_forall b l Hs) as Hall.
    inversion Hs as [|? ? Hs' _]; subst. cbn [JS.insert].
    unfold byOffset at 1, JS.Rleb.
    destruct (Rle_dec (offset a) (offset b)) as [Hle|Hgt].
    + cbn [filter]. destruct (p a) eqn:Hpa; [|reflexivity].
      destruct (p b) eqn:Hpb.
      * cbn [JS.insert]. unfold byOffset. rewrite Rleb_true by assumption. reflexivity.
      * destruct (filter p l) as [|c l'] eqn:Hfl; [reflexivity|].
        cbn [JS.insert]. unfold byOffset.
        assert (Hin : In c (filter p l)) by (rewrite Hfl; left; reflexivity).
        apply filter_In in Hin. destruct Hin as [Hin _].
        rewrite Forall_forall in Hall. specialize (Hall c Hin).
        unfold offsetLe in Hall. rewrite Rleb_true by lra. reflexivity.
    + cbn [filter]. rewrite (IH Hs').
      destruct (p a) eqn:Hpa, (p b) eqn:Hpb; try reflexivity.
      cbn [JS.insert]. replace (byOffset a b) with false; [reflexivity|].
      unfold byOffset. rewrite Rleb_false by lra. reflexivity.
Qed.

(** Filtering commutes with the stable sort. *)
Lemma filter_sort (p : GradientStop -> bool) (l : list GradientStop) :
  filter p (JS.sort byOffset l) = JS.sort byOffset (filter p l).
Proof.
  induction l as [|a l IH]; [reflexivity|]. cbn [JS.sort filter].
  rewrite filter_insert by apply sort_sorted. rewrite IH.
  destruct (p a); reflexivity.
Qed.

Lemma filter_removes (stopId : string) (l : list GradientStop) :
  ~ In stopId (map id (filter (keepOthers stopId) l)).
Proof.
  intros Hin. apply in_map_iff in Hin. destruct Hin as (s & Hs & Hin).
  apply filter_In in Hin. destruct Hin as [_ Hk]. unfold keepOthers in Hk.
  rewrite <- Hs, String.eqb_refl in Hk. discriminate.
Qed.

Lemma filter_present_length (stopId : string) (l : list GradientStop) :
  NoDup (map id l) -> In stopId (map id l) ->
  List.length l = S (List.length (filter (keepOthers stopId) l)).
Proof.
  induction l as [|a l IH]; intros Hnd Hin; [contradiction|].
  cbn [map] in Hnd. inversion Hnd as [|? ? Hnin Hnd']; subst. cbn [filter].
  unfold keepOthers at 1. destruct (String.eqb (id a) stopId) eqn:Ha; cbn [negb List.length].
  - apply String.eqb_eq in Ha. subst stopId. rewrite filter_absent by assumption.
    reflexivity.
  - destruct Hin as [Heq|Hin]; [rewrite Heq, String.eqb_refl in Ha; discriminate|].
    rewrite (IH Hnd' Hin). reflexivity.
Qed.

Lemma stopsOf_removeGradientStop (layerId stopId : string) (st : EditorState)
    (layer : Layer) (g : Gradient) :
  lookup layerId (layers st) = Some layer -> fill layer = GradientFill g ->
  stopsOf layerId (removeGradientStop layerId stopId st)
  = if (List.length (stops g) <=? 2)%nat then stops g
    else filter (keepOthers stopId) (stops g).
Proof.
  intros Hl Hf. rewrite removeGradientStop_floor, Hl, Hf.
  destruct (List.length (stops g) <=? 2)%nat.
  - unfold stopsOf. rewrite saveSnapshot_layers, Hl, Hf. reflexivity.
  - unfold stopsOf. cbn [layers setLayers]. rewrite lookup_assign. reflexivity.
Qed.

(** X18.  With three or more stops of distinct ids, [removeGradientStop] of
    an id that is present removes exactly that stop: the others stay, in
    their order, the id is gone, the list is one shorter and a sorted list
    stays sorted; an id that is not present removes nothing. *)
Theorem removeGradientStop_removes_one :
  forall (layerId stopId : string) (st : EditorState) (layer : Layer)
         (g : Gradient),
    lookup layerId (layers st) = Some layer ->
    fill layer = GradientFill g ->
    NoDup (map id (stops g)) ->
    (3 <= List.length (stops g))%nat ->
    let out := stopsOf layerId (removeGradientStop layerId stopId st) in
    out = filter (fun s => negb (String.eqb (id s) stopId)) (stops g)
    /\ ~ In stopId (map id out)
    /\ (Sorted offsetLe (stops g) -> Sorted offsetLe out)
    /\ (In stopId (map id (stops g)) -> List.length (stops g) = S (List.length out))
    /\ (~ In stopId (map id (stops g)) -> out = stops g).
Proof.
  intros layerId stopId st layer g Hl Hf Hnd Hlen out. unfold out.
  rewrite (stopsOf_removeGradientStop _ _ _ _ _ Hl Hf).
  destruct (List.length (stops g) <=? 2)%nat eqn:Hle; [apply Nat.leb_le in Hle; lia|].
  split; [reflexivity|]. split; [apply filter_removes|].
  split; [apply filter_sorted|].
  split; [apply filter_present_length; assumption | apply filter_absent].
Qed.

Lemma removeGradientStop_removes_one_witness :
  stopsOf "board" (removeGradientStop "board" "m"
                     (stateOf (gradientOf [stopA; stopM; stopB])))
  = filter (fun s => negb (String.eqb (id s) "m")) [stopA; stopM; stopB].
Proof.
  apply (removeGradientStop_removes_one "board" "m"
           (stateOf (gradientOf [stopA; stopM; stopB]))
           (boardOf (gradientOf [stopA; stopM; stopB]))
           (gradientOf [stopA; stopM; stopB]) eq_refl eq_refl).
  - repeat constructor; simpl; intuition discriminate.
  - simpl. lia.
Defined.

(** X19.  Adding a stop and then removing it restores the stop list: on a
    gradient with at least two stops, sorted by offset, whose ids do not
    contain the id that [generateId] draws, [removeGradientStop] of the new
    id after [addGradientStop] leaves exactly the stops there were. *)
Theorem add_then_remove_restores :
  forall (layerId : string) (t : R) (c : option string) (st : EditorState)
         (rng : Rng) (layer : Layer) (g : Gradient),
    lookup layerId (layers st) = Some layer ->
    fill layer = GradientFill g ->
    (2 <= List.length (stops g))%nat ->
    Sorted offsetLe (stops g) ->
    ~ In (draws rng (next rng)) (map id (stops g)) ->
    stopsOf layerId
      (removeGradientStop layerId (draws rng (next rng))
         (fst (addGradientStop layerId t c st rng)))
    = stops g.
Proof.
  intros layerId t c st rng layer g Hl Hf Hlen Hsorted Hfresh.
  rewrite (addGradientStop_eq _ _ _ _ _ _ _ Hl Hf). cbn [fst].
  fold (newStop rng t c).
  set (added := JS.sort byOffset (stops g ++ [newStop rng t c])).
  assert (Hl' : lookup layerId
                  (layers (setLayers (saveSnapshot st)
                             (assign layerId
                                (setFill layer (GradientFill (setStops g added)))
                                (layers st))))
                = Some (setFill layer (GradientFill (setStops g added)))).
  { cbn [layers setLayers]. apply lookup_assign. }
  rewrite (stopsOf_removeGradientStop _ _ _ _ (setStops g added) Hl' eq_refl).
  cbn [stops setStops].
  assert (Hlen' : List.length added = S (List.length (stops g))).
  { unfold added. rewrite (Permutation_length (sort_perm _)), length_app.
    cbn [List.length]. lia. }
  destruct (List.length added <=? 2)%nat eqn:Hle; [apply Nat.leb_le in Hle; lia|].
  unfold added. fold (keepOthers (draws rng (next rng))).
  rewrite filter_sort, filter_app, (filter_absent _ _ Hfresh).
  cbn [filter]. unfold keepOthers at 1. cbn [id newStop].
  rewrite String.eqb_refl. cbn [negb]. rewrite app_nil_r.
  apply sort_sorted_id; assumption.
Qed.

Lemma add_then_remove_restores_witness :
  stopsOf "board"
    (removeGradientStop "board" (draws countingRng (next countingRng))
       (fst (addGradientStop "board" 0.5 None
               (stateOf (gradientOf [stopA; stopB])) countingRng)))
  = [stopA; stopB].
Proof.
  apply (add_then_remove_restores "board" 0.5 None
           (stateOf (gradientOf [stopA; stopB])) countingRng
           (boardOf (gradientOf [stopA; stopB])) (gradientOf [stopA; stopB])
           eq_refl eq_refl).
  - simpl. lia.
  - repeat constructor; unfold offsetLe; cbn [offset stopA stopB]; lra.
  - simpl. intuition discriminate.
Defined.


(** * The viewport *)

(** X20.  [zoomCanvas] keeps the zoom inside [[0.05, 50]] and, from a
    positive zoom, keeps the canvas point under the zoom centre where it is
    on the screen; [panCanvas] moves the screen position of every canvas
    point by exactly [(dx, dy)].  Neither touches the layers or the
    history. *)
Theorem zoom_keeps_centre_pan_shifts :
  forall (st : EditorState) (delta dx dy : R) (c p : Vec2),
    0 < zoom (viewport st) ->
    let zoomed := zoomCanvas delta c st in
    let panned := panCanvas dx dy st in
    0.05 <= zoom (viewport zoomed) <= 50
    /\ screenToCanvas c (viewport zoomed) = screenToCanvas c (viewport st)
    /\ canvasToScreen p (viewport panned)
       = {| x := x (canvasToScreen p (viewport st)) + dx;
            y := y (canvasToScreen p (viewport st)) + dy |}
    /\ layers zoomed = layers st /\ history zoomed = history st
    /\ layers panned = layers st /\ history panned = history st.
Proof.
  intros st delta dx dy c p Hz zoomed panned.
  unfold zoomed, panned, zoomCanvas, panCanvas, setViewport.
  cbn [viewport layers history zoom vp_x vp_y].
  set (nz := JS.Math_min (JS.Math_max (zoom (viewport st) * (1 - delta * 0.0015)) 0.05) 50).
  assert (Hnz : 0.05 <= nz <= 50).
  { unfold nz, JS.Math_min, JS.Math_max, Rmin, Rmax.
    repeat destruct (Rle_dec _ _); lra. }
  split; [exact Hnz|].
  split.
  - unfold screenToCanvas. cbn [x y vp_x vp_y zoom]. f_equal; field; lra.
  - split; [|repeat split].
    unfold canvasToScreen. cbn [x y vp_x vp_y zoom]. f_equal; ring.
Qed.

Lemma zoom_keeps_centre_pan_shifts_witness :
  0.05 <= zoom (viewport (zoomCanvas 100 {| x := 10; y := 20 |} (viewAt 3 4 2))) <= 50.
Proof.
  apply (zoom_keeps_centre_pan_shifts (viewAt 3 4 2) 100 0 0
           {| x := 10; y := 20 |} {| x := 0; y := 0 |}).
  cbn [viewAt viewport zoom]. lra.
Defined.

(** * The renderer's midpoint stops *)

Lemma processStops_hd (a : GradientStop) (l : list GradientStop) :
  exists l', processStops (a :: l) = a :: l'.
Proof.
  cbn [processStops]. destruct l as [|b l]; [eexists; reflexivity|].
  cbv zeta. destruct (Rlt_dec _ _); eexists; reflexivity.
Qed.

(** X21.  [processStops] keeps every stop, adds at most one stop after each
    stop but the last, returns the list as it is when every midpoint is the
    default, and keeps a list sorted by offset sorted when the midpoints lie
    in [[0, 1]]. *)
Theorem processStops_keeps_order :
  forall (stops : list GradientStop),
    incl stops (processStops stops)
    /\ (List.length stops <= List.length (processStops stops)
        <= 2 * List.length stops - 1)%nat
    /\ (Forall defaultMidpoint stops -> processStops stops = stops)
    /\ (Forall midpointInUnit stops -> Sorted offsetLe stops ->
        Sorted offsetLe (processStops stops)).
Proof.
  intros stops. induction stops as [|a l IH].
  - split; [apply incl_refl|]. split; [cbn; lia|]. split; [reflexivity|].
    intros _ _. constructor.
  - destruct IH as (IHin & IHlen & IHdef & IHsort).
    destruct l as [|b l].
    { cbn [processStops]. split; [apply incl_refl|]. split; [cbn; lia|].
      split; [reflexivity|]. intros _ Hs. exact Hs. }
    destruct (processStops_hd b l) as [l' Hl'].
    change (processStops (a :: b :: l))
      with (let mid := match midpoint a with Some m => m | None => 0.5 end in
            if Rlt_dec 0.01 (JS.Math_abs (mid - 0.5)) then
              a :: {| id := ("mid-" ++ id a ++ "-" ++ id b)%string;
                      offset := offset a + (offset b - offset a) * mid;
                      color := interpolateColor (color a) (color b) 0.5;
                      opacity := (opacity a + opacity b) / 2;
                      midpoint := None |} :: processStops (b :: l)
            else a :: processStops (b :: l)).
    cbv zeta.
    set (mid := match midpoint a with Some m => m | None => 0.5 end).
    split; [|split; [|split]].
    + destruct (Rlt_dec _ _).
      * intros s [Hs|Hs]; [left; assumption | right; right; apply IHin; assumption].
      * intros s [Hs|Hs]; [left; assumption | right; apply IHin; assumption].
    + cbn [List.length] in *. destruct (Rlt_dec _ _); cbn [List.length]; lia.
    + intros Hdef. inversion Hdef as [|? ? Ha Hrest]; subst.
      destruct (Rlt_dec _ _) as [Hfar|Hnear].
      * exfalso. unfold defaultMidpoint in Ha. unfold mid, JS.Math_abs in Hfar.
        destruct (midpoint a) as [m|]; [lra|].
        replace (0.5 - 0.5) with 0 in Hfar by lra. rewrite Rabs_R0 in Hfar. lra.
      * rewrite (IHdef Hrest). reflexivity.
    + intros Hunit Hs. inversion Hunit as [|? ? Ha Hrest]; subst.
      inversion Hs as [|? ? Hs' Hhd]; subst. inversion Hhd as [|? ? Hab]; subst.
      specialize (IHsort Hrest Hs'). rewrite Hl' in *.
      assert (Hmid : 0 <= mid <= 1).
      { unfold mid, midpointInUnit in *. destruct (midpoint a); lra. }
      unfold offsetLe in Hab.
      destruct (Rlt_dec _ _).
      * constructor; [constructor; [exact IHsort|]|].
        -- constructor. unfold offsetLe. cbn [offset]. nra.
        -- constructor. unfold offsetLe. cbn [offset]. nra.
      * constructor; [exact IHsort|]. constructor. exact Hab.
Qed.


(** * Click or drag on the gradient line *)

Lemma potential_move (layerId : string) (e : PointerEvent) (st : EditorState)
    (d : DragRef) (layer : Layer) (g : Gradient) (sx sy t : R) (v : bool) :
  rendered layerId st = Some (layer, g) ->
  active d = true -> state d = Some (PotentialStop sx sy t v) ->
  let r := handlePointerMove layerId e st d in
  snd r = st /\ active (fst r) = true /\ startPos (fst r) = startPos d
  /\ (exists v', state (fst r) = Some (PotentialStop sx sy t v'))
  /\ (hasMoved d = true \/ movedFrom (startPos d) e -> hasMoved (fst r) = true)
  /\ (hasMoved d = false -> ~ movedFrom (startPos d) e -> fst r = d).
Proof.
  intros Hr Hact Hst r. unfold r, handlePointerMove, movedFrom.
  rewrite Hr, Hact, Hst. cbv zeta.
  destruct (Rlt_dec 16 _) as [Hfar|Hnear].
  - cbn [hasMoved setMoved fst snd active startPos state setDragState].
    split; [reflexivity|]. split; [assumption|]. split; [reflexivity|].
    split; [eexists; reflexivity|]. split; [reflexivity|].
    intros _ Hn. contradiction.
  - destruct (hasMoved d) eqn:Hm;
      cbn [fst snd active startPos state setDragState hasMoved].
    + split; [reflexivity|]. split; [assumption|]. split; [reflexivity|].
      split; [eexists; reflexivity|]. split; [intros _; assumption|].
      intros Hd. discriminate.
    + split; [reflexivity|]. split; [assumption|]. split; [reflexivity|].
      split; [eexists; exact Hst|]. split; [|reflexivity].
      intros [Hd|Hd]; [discriminate | contradiction].
Qed.

Lemma potential_moves (layerId : string) (st : EditorState) (layer : Layer)
    (g : Gradient) (sx sy t : R) (es : list PointerEvent) :
  rendered layerId st = Some (layer, g) ->
  forall (d : DragRef) (v : bool),
    active d = true -> state d = Some (PotentialStop sx sy t v) ->
    let r := runMoves layerId es (d, st) in
    snd r = st /\ active (fst r) = true
    /\ (exists v', state (fst r) = Some (PotentialStop sx sy t v'))
    /\ (hasMoved d = true \/ Exists (movedFrom (startPos d)) es ->
        hasMoved (fst r) = true)
    /\ (hasMoved d = false -> Forall (fun e => ~ movedFrom (startPos d) e) es ->
        fst r = d).
Proof.
  intros Hr. induction es as [|e es IH]; intros d v Hact Hst r.
  - unfold r, runMoves. cbn [fold_left fst snd].
    repeat split; try assumption; [eexists; exact Hst|].
    intros [Hm|Hex]; [assumption | inversion Hex].
  - unfold r, runMoves. cbn [fold_left fst snd].
    destruct (potential_move layerId e st d layer g sx sy t v Hr Hact Hst)
      as (Hs1 & Ha1 & Hp1 & [v1 Hv1] & Hm1 & Hsame1).
    destruct (handlePointerMove layerId e st d) as [d1 st1] eqn:Hstep.
    cbn [fst snd] in *. subst st1.
    destruct (IH d1 v1 Ha1 Hv1) as (Hs2 & Ha2 & Hv2 & Hm2 & Hsame2).
    unfold runMoves in *. rewrite Hp1 in *.
    repeat split; try assumption.
    + intros [Hm|Hex]; apply Hm2.
      * left. apply Hm1. left. assumption.
      * inversion Hex as [? ? Hhere|? ? Hlater]; subst.
        -- left. apply Hm1. right. assumption.
        -- right. assumption.
    + intros Hm Hall. inversion Hall as [|? ? Hnear Hrest]; subst.
      specialize (Hsame1 Hm Hnear). subst d1. apply Hsame2; assumption.
Qed.

(** X22.  A press on the gradient line adds a stop only when it ends as a
    click.  When some pointer move of the gesture is more than 4 px away
    from the press point, the release adds no stop: layers, history and the
    id source stay as they were, the drag is reset and the mode is idle.
    When every move stays within 4 px, the release acts as if there had
    been no move at all. *)
Theorem line_press_click_or_drag :
  forall (layerId : string) (st : EditorState) (layer : Layer) (g : Gradient)
         (e0 e1 : PointerEvent) (es : list PointerEvent) (d0 : DragRef)
         (rng : Rng),
    lookup layerId (layers st) = Some layer ->
    fill layer = GradientFill g ->
    let down := handlePointerDown layerId e0 OnLine st d0 in
    let moved := runMoves layerId es down in
    let up := handlePointerUp layerId e1 (snd moved) (fst moved) rng in
    (Exists (movedFrom (pressAt e0)) es ->
       layers (snd (fst up)) = layers st
       /\ history (snd (fst up)) = history st
       /\ snd up = rng
       /\ fst (fst up) = idleDrag
       /\ interactionMode (snd (fst up)) = idle)
    /\ (Forall (fun e => ~ movedFrom (pressAt e0) e) es ->
        up = handlePointerUp layerId e1 (snd down) (fst down) rng).
Proof.
  intros layerId st layer g e0 e1 es d0 rng Hl Hf down moved up.
  pose proof (rendered_some layerId st layer g Hl Hf) as Hr.
  assert (Hr1 : rendered layerId (setInteractionMode dragging_gradient st)
                = Some (layer, g)) by exact Hr.
  assert (Hdown : exists t,
            down = ({| active := true; hasMoved := false; startPos := pressAt e0;
                       state := Some (PotentialStop (clientX e0) (clientY e0) t true) |},
                    setInteractionMode dragging_gradient st)).
  { unfold down, handlePointerDown. rewrite Hr. cbv zeta. eexists. reflexivity. }
  destruct Hdown as [t Hdown].
  set (d1 := {| active := true; hasMoved := false; startPos := pressAt e0;
                state := Some (PotentialStop (clientX e0) (clientY e0) t true) |}) in *.
  destruct (potential_moves layerId (setInteractionMode dragging_gradient st)
              layer g (clientX e0) (clientY e0) t es Hr1 d1 true eq_refl eq_refl)
    as (Hs & Ha & [v' Hv] & Hm & Hsame).
  unfold up, moved. rewrite Hdown. cbn [startPos d1] in Hm, Hsame.
  split.
  - intros Hex. specialize (Hm (or_intror Hex)).
    unfold handlePointerUp. rewrite Hs, Hr1, Ha, Hm. cbn [fst snd].
    repeat split.
  - intros Hall. rewrite (Hsame eq_refl Hall), Hs. reflexivity.
Qed.

Lemma line_press_click_or_drag_witness :
  snd (handlePointerUp "board" (pointerAt 720 500)
         (snd (runMoves "board" [pointerAt 720 500]
                 (handlePointerDown "board" (pointerAt 700 500) OnLine
                    (stateOf (gradientOf [stopA; stopB])) idleDrag)))
         (fst (runMoves "board" [pointerAt 720 500]
                 (handlePointerDown "board" (pointerAt 700 500) OnLine
                    (stateOf (gradientOf [stopA; stopB])) idleDrag)))
         countingRng)
  = countingRng.
Proof.
  apply (line_press_click_or_drag "board" (stateOf (gradientOf [stopA; stopB]))
           (boardOf (gradientOf [stopA; stopB])) (gradientOf [stopA; stopB])
           (pointerAt 700 500) (pointerAt 720 500) [pointerAt 720 500] idleDrag
           countingRng eq_refl eq_refl).
  constructor. unfold movedFrom, pressAt, pointerAt. cbn [clientX clientY x y]. lra.
Defined.

(** * Dragging a midpoint handle *)

(** X23.  A pointer move of a midpoint gesture sets the midpoint of the
    dragged stop to a value in [[0.1, 0.9]] and changes nothing else: the
    offsets, colours and opacities of all stops stay, and so does the order
    of a list that is sorted by offset.  On a linear or radial gradient
    whose two neighbouring stops are no more than 0.001 apart the midpoint
    becomes 0.5.  The viewport zoom and the sides of the layer box are not
    zero, and on a conic gradient the two neighbouring offsets differ by
    neither 0 nor 1, so that no division by zero occurs. *)
Theorem midpoint_drag_clamped :
  forall (layerId : string) (st : EditorState) (layer : Layer) (g : Gradient)
         (ev : PointerEvent) (d : DragRef) (sid : string) (a b : R),
    lookup layerId (layers st) = Some layer ->
    fill layer = GradientFill g ->
    active d = true ->
    state d = Some (MoveMidpoint sid a b) ->
    Sorted offsetLe (stops g) ->
    zoom (viewport st) <> 0 -> width layer <> 0 -> height layer <> 0 ->
    (type g = conic -> b - a <> 0 /\ b - a <> -1) ->
    exists m,
      0.1 <= m <= 0.9
      /\ (type g <> conic -> b - a <= 0.001 -> m = 0.5)
      /\ snd (handlePointerMove layerId ev st d)
         = updateGradientStop layerId sid (midpointPatch m) st
      /\ stopsOf layerId (snd (handlePointerMove layerId ev st d))
         = map (fun s => if String.eqb (id s) sid
                         then {| id := id s; offset := offset s; color := color s;
                                 opacity := opacity s; midpoint := Some m |}
                         else s) (stops g).
Proof.
  intros layerId st layer g ev d sid a b Hl Hf Hact Hst Hsorted _ _ _ _.
  pose proof (rendered_some layerId st layer g Hl Hf) as Hr.
  unfold handlePointerMove. rewrite Hr, Hact, Hst. cbv zeta.
  match goal with
  | |- context [midpointPatch ?u] => set (m := u)
  end.
  exists m.
  assert (Hm : 0.1 <= m <= 0.9).
  { unfold m, JS.Math_max, JS.Math_min, Rmax, Rmin.
    repeat destruct (Rle_dec _ _); lra. }
  split; [exact Hm|]. split.
  { intros Hty Hclose. unfold m.
    assert (Hnc : isConic (type g) = false)
      by (destruct (type g); try reflexivity; exfalso; apply Hty; reflexivity).
    rewrite Hnc. destruct (Rlt_dec 0.001 (b - a)); [lra|].
    unfold JS.Math_max, JS.Math_min, Rmax, Rmin.
    repeat destruct (Rle_dec _ _); lra. }
  match goal with
  | |- snd ?p = _ /\ _ =>
      assert (Hp : snd p = updateGradientStop layerId sid (midpointPatch m) st)
  end.
  { destruct (Rlt_dec _ _); reflexivity. }
  rewrite Hp. split; [reflexivity|].
  rewrite (stopsOf_updateGradientStop _ _ _ _ _ _ Hl Hf).
  assert (Hmap : map (mergeInto sid (midpointPatch m)) (stops g)
                 = map (fun s => if String.eqb (id s) sid
                         then {| id := id s; offset := offset s; color := color s;
                                 opacity := opacity s; midpoint := Some m |}
                         else s) (stops g)).
  { apply map_ext. intros s. unfold mergeInto.
    destruct (String.eqb (id s) sid); reflexivity. }
  rewrite Hmap. apply sort_sorted_id.
  clear Hmap Hp. induction Hsorted as [|s l Hs IH Hhd]; [constructor|].
  cbn [map]. constructor; [exact IH|].
  destruct Hhd as [|s' l' Hss']; [constructor|]. cbn [map]. constructor.
  unfold offsetLe in *.
  destruct (String.eqb (id s) sid), (String.eqb (id s') sid); cbn [offset]; exact Hss'.
Qed.

Lemma midpoint_drag_clamped_witness :
  exists m,
    0.1 <= m <= 0.9
    /\ (type (gradientOf [stopA; stopB]) <> conic -> 1 - 0 <= 0.001 -> m = 0.5)
    /\ snd (handlePointerMove "board" (pointerAt 700 500)
              (stateOf (gradientOf [stopA; stopB])) draggingMid)
       = updateGradientStop "board" "a" (midpointPatch m)
           (stateOf (gradientOf [stopA; stopB]))
    /\ stopsOf "board"
         (snd (handlePointerMove "board" (pointerAt 700 500)
                 (stateOf (gradientOf [stopA; stopB])) draggingMid))
       = map (fun s => if String.eqb (id s) "a"
                       then {| id := id s; offset := offset s; color := color s;
                               opacity := opacity s; midpoint := Some m |}
                       else s) (stops (gradientOf [stopA; stopB])).
Proof.
  apply (midpoint_drag_clamped "board" (stateOf (gradientOf [stopA; stopB]))
           (boardOf (gradientOf [stopA; stopB])) (gradientOf [stopA; stopB])
           (pointerAt 700 500) draggingMid "a" 0 1 eq_refl eq_refl eq_refl eq_refl).
  - repeat constructor; unfold offsetLe; cbn [offset stopA stopB]; lra.
  - cbn [stateOf viewport zoom]. lra.
  - cbn [boardOf width]. lra.
  - cbn [boardOf height]. lra.
  - cbn [gradientOf type]. discriminate.
Defined.


(** * The anti-banding resample on any stop list *)

Lemma stepLoop_sorted (a b : GradientStop) (range : R) (lin1 lin2 : RGBn)
    (rest : list GradientStop) :
  0 <= range -> range = offset b - offset a -> Sorted offsetLe (b :: rest) ->
  forall (n : nat) (k : Z) (rng : Rng) (p : GradientStop),
    (0 <= k)%Z -> (k + Z.of_nat n <= 8)%Z ->
    offset p <= offset a + range * (IZR k / INR steps) ->
    Sorted offsetLe
      (p :: fst (stepLoop a b range lin1 lin2 n k rng) ++ b :: rest).
Proof.
  intros Hrange Hdef Hrest. rewrite INR_steps.
  induction n as [|n IH]; intros k rng p Hk Hkn Hp.
  - cbn [stepLoop fst List.app]. constructor; [exact Hrest|]. constructor.
    unfold offsetLe. apply IZR_le in Hkn. apply IZR_le in Hk.
    cbn [Z.of_nat] in Hkn. rewrite Z.add_0_r in Hkn. nra.
  - cbn [stepLoop generateId]. rewrite INR_steps.
    match goal with
    | |- context [stepLoop a b range lin1 lin2 n (k + 1)%Z ?r] =>
        specialize (IH (k + 1)%Z r); destruct (stepLoop a b range lin1 lin2 n (k + 1)%Z r)
          as [tl rng2]
    end.
    cbn [fst List.app] in *.
    constructor.
    + apply IH; [lia | lia |]. cbn [offset]. rewrite plus_IZR. nra.
    + constructor. unfold offsetLe. cbn [offset]. exact Hp.
Qed.

Lemma smoothPair_sorted (a b : GradientStop) (rng : Rng)
    (rest : list GradientStop) :
  offset a <= offset b -> Sorted offsetLe (b :: rest) ->
  Sorted offsetLe (a :: fst (smoothPair a b rng) ++ b :: rest).
Proof.
  intros Hab Hrest. unfold smoothPair.
  destruct (Rlt_dec _ _) as [Hclose|Hfar].
  { cbn [fst List.app]. constructor; [exact Hrest | constructor; exact Hab]. }
  cbv zeta.
  match goal with
  | |- context [if ?c then _ else _] => destruct c
  end.
  { cbn [fst List.app]. constructor; [exact Hrest | constructor; exact Hab]. }
  apply stepLoop_sorted; try assumption; try reflexivity; try lia.
  - lra.
  - rewrite INR_steps. lra.
Qed.

Lemma smoothPair_count (a b : GradientStop) (rng : Rng) :
  (List.length (fst (smoothPair a b rng)) <= 7)%nat
  /\ draws (snd (smoothPair a b rng)) = draws rng
  /\ next (snd (smoothPair a b rng))
     = (next rng + List.length (fst (smoothPair a b rng)))%nat
  /\ forall s, In s (fst (smoothPair a b rng)) ->
       exists j, (next rng <= j < next (snd (smoothPair a b rng)))%nat
                 /\ id s = draws rng j /\ midpoint s = None.
Proof.
  unfold smoothPair.
  destruct (Rlt_dec _ _).
  { cbn [fst snd List.length]. repeat split; try lia. intros s []. }
  cbv zeta.
  match goal with
  | |- context [if ?c then _ else _] => destruct c
  end.
  { cbn [fst snd List.length]. repeat split; try lia. intros s []. }
  rewrite stepLoop_eq. cbn [fst snd advance draws next].
  rewrite length_map, length_seq. unfold steps.
  split; [lia|]. split; [reflexivity|]. split; [reflexivity|].
  intros s Hin. apply in_map_iff in Hin. destruct Hin as (j & Hs & Hj).
  apply in_seq in Hj. exists (next rng + j)%nat. subst s.
  split; [lia|]. split; reflexivity.
Qed.

Lemma bandLoop_hd (a : GradientStop) (l : list GradientStop) (rng : Rng) :
  exists tl, fst (bandLoop (a :: l) rng) = a :: tl.
Proof.
  cbn [bandLoop]. destruct l as [|b l]; [eexists; reflexivity|].
  destruct (smoothPair a b rng) as [ins rng1].
  destruct (bandLoop (b :: l) rng1) as [tl rng2]. eexists; reflexivity.
Qed.

Lemma bandLoop_spec (l : list GradientStop) :
  forall (rng : Rng),
    (Sorted offsetLe l -> Sorted offsetLe (fst (bandLoop l rng)))
    /\ incl l (fst (bandLoop l rng))
    /\ (List.length l <= List.length (fst (bandLoop l rng)) <= 8 * List.length l)%nat
    /\ draws (snd (bandLoop l rng)) = draws rng
    /\ next (snd (bandLoop l rng))
       = (next rng + (List.length (fst (bandLoop l rng)) - List.length l))%nat
    /\ forall s, In s (fst (bandLoop l rng)) ->
         In s l
         \/ exists j, (next rng <= j < next (snd (bandLoop l rng)))%nat
                      /\ id s = draws rng j /\ midpoint s = None.
Proof.
  induction l as [|a l IH]; intros rng.
  { cbn [bandLoop fst snd List.length]. repeat split; try lia.
    - intros _. constructor.
    - apply incl_refl.
    - intros s []. }
  destruct l as [|b l].
  { cbn [bandLoop fst snd List.length]. repeat split; try lia.
    - intros Hs; exact Hs.
    - apply incl_refl.
    - intros s Hs. left. exact Hs. }
  change (bandLoop (a :: b :: l) rng)
    with (let (inserted, rng1) := smoothPair a b rng in
          let (tail, rng2) := bandLoop (b :: l) rng1 in
          (a :: inserted ++ tail, rng2)).
  pose proof (smoothPair_sorted a b rng) as Hps.
  destruct (smoothPair_count a b rng) as (Hc1 & Hc2 & Hc3 & Hc4).
  destruct (smoothPair a b rng) as [ins rng1]. cbn [fst snd] in *.
  destruct (bandLoop_hd b l rng1) as [tl Htl].
  destruct (IH rng1) as (IHs & IHi & IHl & IHd & IHn & IHid).
  destruct (bandLoop (b :: l) rng1) as [tail rng2]. cbn [fst snd] in *.
  subst tail.
  split; [|split; [|split; [|split; [|split]]]].
  - intros Hs. inversion Hs as [|? ? Hs' Hhd]; subst.
    inversion Hhd as [|? ? Hab]; subst.
    specialize (IHs Hs'). apply Hps; assumption.
  - intros s [Hs|Hs]; [left; exact Hs|]. right. apply in_or_app. right.
    apply IHi. exact Hs.
  - cbn [List.length] in *. rewrite length_app. cbn [List.length] in *. lia.
  - congruence.
  - cbn [List.length] in *. rewrite length_app. cbn [List.length] in *. lia.
  - intros s [Hs|Hs]; [left; left; exact Hs|].
    apply in_app_or in Hs. destruct Hs as [Hs|Hs].
    + right. destruct (Hc4 s Hs) as (j & Hj & Hid & Hmid). exists j.
      split; [|split; assumption]. cbn [List.length] in *. lia.
    + destruct (IHid s Hs) as [Hin|(j & Hj & Hid & Hmid)]; [left; right; exact Hin|].
      right. exists j. split; [lia|]. split; [congruence | assumption].
Qed.

(** X24.  On any stop list [fixGradientBanding] returns a list that keeps
    every given stop, has at most eight times as many stops and, from two
    stops on, is sorted ascending by offset; fewer than two stops come back
    as they are.  Every stop that was not given carries an id drawn from
    [generateId] during the call and no midpoint, and the call draws exactly
    one id per added stop. *)
Theorem fixGradientBanding_sorted_superset :
  forall (stops : list GradientStop) (rng : Rng),
    let out := fixGradientBanding stops rng in
    ((2 <= List.length stops)%nat -> Sorted offsetLe (fst out))
    /\ ((List.length stops < 2)%nat -> out = (stops, rng))
    /\ incl stops (fst out)
    /\ (List.length stops <= List.length (fst out) <= 8 * List.length stops)%nat
    /\ draws (snd out) = draws rng
    /\ next (snd out)
       = (next rng + (List.length (fst out) - List.length stops))%nat
    /\ forall s, In s (fst out) ->
         In s stops
         \/ exists j, (next rng <= j < next (snd out))%nat
                      /\ id s = draws rng j /\ midpoint s = None.
Proof.
  intros stops rng out. unfold out, fixGradientBanding. cbv zeta.
  pose proof (sort_perm stops) as Hperm.
  rewrite (Permutation_length Hperm).
  destruct (List.length stops <? 2)%nat eqn:Hlen.
  - apply Nat.ltb_lt in Hlen. cbn [fst snd].
    split; [intros; lia|]. split; [reflexivity|]. split; [apply incl_refl|].
    split; [lia|]. split; [reflexivity|]. split; [lia|].
    intros s Hs. left. exact Hs.
  - apply Nat.ltb_ge in Hlen.
    destruct (bandLoop_spec (JS.sort byOffset stops) rng)
      as (Hs & Hi & Hl & Hd & Hn & Hid).
    rewrite (Permutation_length Hperm) in Hl, Hn.
    split; [intros _; apply Hs, sort_sorted|]. split; [intros; lia|].
    split.
    { intros s Hin. apply Hi. apply (Permutation_in _ (Permutation_sym Hperm)).
      exact Hin. }
    split; [exact Hl|]. split; [exact Hd|]. split; [exact Hn|].
    intros s Hin. destruct (Hid s Hin) as [Hold|Hnew]; [|right; exact Hnew].
    left. apply (Permutation_in _ Hperm). exact Hold.
Qed.


(** * Colours that [interpolateColor] prints as it reads them *)

Lemma hex_pair_roundtrip (a b : ascii) :
  In a lowerHexDigits -> In b lowerHexDigits ->
  exists n, JS.parseInt16 (String a (String b EmptyString)) = Some n
            /\ toHex (Some n) = String a (String b EmptyString).
Proof.
  intros Ha Hb.
  set (check := fun a b : ascii =>
         match JS.parseInt16 (String a (String b EmptyString)) with
         | Some n => String.eqb (toHex (Some n)) (String a (String b EmptyString))
         | None => false
         end).
  assert (Hall : forallb (fun a => forallb (check a) lowerHexDigits) lowerHexDigits
                 = true) by (vm_compute; reflexivity).
  rewrite forallb_forall in Hall. specialize (Hall a Ha).
  rewrite forallb_forall in Hall. specialize (Hall b Hb).
  unfold check in Hall.
  destruct (JS.parseInt16 (String a (String b EmptyString))) as [n|];
    [|discriminate Hall].
  exists n. split; [reflexivity|]. apply String.eqb_eq. exact Hall.
Qed.

Lemma parseHex_lowerHex6 (c : string) :
  lowerHex6 c ->
  exists r g b h1 h2 h3,
    parseHex c = {| p_r := Some r; p_g := Some g; p_b := Some b; p_a := Some 1 |}
    /\ toHex (Some r) = h1 /\ toHex (Some g) = h2 /\ toHex (Some b) = h3
    /\ c = ("#" ++ h1 ++ h2 ++ h3)%string.
Proof.
  intros (h & -> & Hlen & Hall).
  destruct h as [|c1 [|c2 [|c3 [|c4 [|c5 [|c6 [|? ?]]]]]]]; try discriminate Hlen.
  cbn [list_ascii_of_string] in Hall.
  inversion Hall as [|? ? H1 Hall1]; subst. inversion Hall1 as [|? ? H2 Hall2]; subst.
  inversion Hall2 as [|? ? H3 Hall3]; subst. inversion Hall3 as [|? ? H4 Hall4]; subst.
  inversion Hall4 as [|? ? H5 Hall5]; subst. inversion Hall5 as [|? ? H6 _]; subst.
  destruct (hex_pair_roundtrip c1 c2 H1 H2) as (r & Hr & Hr').
  destruct (hex_pair_roundtrip c3 c4 H3 H4) as (g & Hg & Hg').
  destruct (hex_pair_roundtrip c5 c6 H5 H6) as (b & Hb & Hb').
  exists r, g, b, (String c1 (String c2 EmptyString)),
    (String c3 (String c4 EmptyString)), (String c5 (String c6 EmptyString)).
  split; [|repeat (split; [assumption|]); reflexivity].
  unfold parseHex.
  change (JS.replaceHash (String "#" (String c1 (String c2 (String c3
            (String c4 (String c5 (String c6 EmptyString))))))))
    with (String c1 (String c2 (String c3 (String c4 (String c5
            (String c6 EmptyString)))))).
  cbn [String.length Nat.eqb JS.substring String.substring Nat.sub].
  rewrite Hr, Hg, Hb. reflexivity.
Qed.

Lemma interpolateColor_lowerHex6 :
  forall (c1 c2 : string) (factor : R),
    lowerHex6 c1 -> lowerHex6 c2 ->
    interpolateColor c1 c2 0 = c1
    /\ interpolateColor c1 c2 1 = c2
    /\ interpolateColor c1 c1 factor = c1.
Proof.
  intros c1 c2 factor Hc1 Hc2.
  destruct (parseHex_lowerHex6 c1 Hc1)
    as (r1 & g1 & b1 & u1 & u2 & u3 & Hp1 & Hr1 & Hg1 & Hb1 & Hs1).
  destruct (parseHex_lowerHex6 c2 Hc2)
    as (r2 & g2 & b2 & v1 & v2 & v3 & Hp2 & Hr2 & Hg2 & Hb2 & Hs2).
  split; [|split].
  - rewrite (interpolateColor_parsed c1 c2 0 _ _ _ _ _ _ _ _ Hp1 Hp2). cbv zeta.
    destruct (Rle_dec 0.999 (1 + (1 - 1) * 0)); [|lra].
    rewrite (Math_round_eq (IZR r1 + (IZR r2 - IZR r1) * 0) r1) by lra.
    rewrite (Math_round_eq (IZR g1 + (IZR g2 - IZR g1) * 0) g1) by lra.
    rewrite (Math_round_eq (IZR b1 + (IZR b2 - IZR b1) * 0) b1) by lra.
    rewrite Hr1, Hg1, Hb1. symmetry. exact Hs1.
  - rewrite (interpolateColor_parsed c1 c2 1 _ _ _ _ _ _ _ _ Hp1 Hp2). cbv zeta.
    destruct (Rle_dec 0.999 (1 + (1 - 1) * 1)); [|lra].
    rewrite (Math_round_eq (IZR r1 + (IZR r2 - IZR r1) * 1) r2) by lra.
    rewrite (Math_round_eq (IZR g1 + (IZR g2 - IZR g1) * 1) g2) by lra.
    rewrite (Math_round_eq (IZR b1 + (IZR b2 - IZR b1) * 1) b2) by lra.
    rewrite Hr2, Hg2, Hb2. symmetry. exact Hs2.
  - rewrite (interpolateColor_parsed c1 c1 factor _ _ _ _ _ _ _ _ Hp1 Hp1). cbv zeta.
    destruct (Rle_dec 0.999 (1 + (1 - 1) * factor)); [|lra].
    rewrite (Math_round_eq (IZR r1 + (IZR r1 - IZR r1) * factor) r1) by lra.
    rewrite (Math_round_eq (IZR g1 + (IZR g1 - IZR g1) * factor) g1) by lra.
    rewrite (Math_round_eq (IZR b1 + (IZR b1 - IZR b1) * factor) b1) by lra.
    rewrite Hr1, Hg1, Hb1. symmetry. exact Hs1.
Qed.

(** X25.  On opaque colours written as ['#'] and six lower-case hex digits,
    [interpolateColor] returns the first colour at factor 0 and the second
    at factor 1, and blending a colour with itself gives the colour back at
    every factor. *)
Theorem interpolateColor_endpoints :
  forall (c1 c2 : string) (factor : R),
    lowerHex6 c1 -> lowerHex6 c2 ->
    interpolateColor c1 c2 0 = c1
    /\ interpolateColor c1 c2 1 = c2
    /\ interpolateColor c1 c1 factor = c1.
Proof. exact interpolateColor_lowerHex6. Qed.

Lemma interpolateColor_endpoints_witness :
  interpolateColor "#1a2b3c" "#ffffff" 0 = "#1a2b3c"%string.
Proof.
  apply (interpolateColor_endpoints "#1a2b3c" "#ffffff" 0).
  - exists "1a2b3c"%string. split; [reflexivity|]. split; [reflexivity|].
    cbn [list_ascii_of_string]. unfold lowerHexDigits. cbn [list_ascii_of_string In].
    repeat (apply Forall_cons; [repeat (first [left; reflexivity | right])|]).
    apply Forall_nil.
  - exists "ffffff"%string. split; [reflexivity|]. split; [reflexivity|].
    cbn [list_ascii_of_string]. unfold lowerHexDigits. cbn [list_ascii_of_string In].
    repeat (apply Forall_cons; [repeat (first [left; reflexivity | right])|]).
    apply Forall_nil.
Defined.

(** * The colour of a gradient at a position *)





(** ** C5 *)











